(** * streamui: line buffer, patch/text classifier, patch engine and
      transport orchestrator

    Shallow embedding of [packages/streamui/src/spec-stream.ts], of the
    class [UITransport] of [packages/streamui/src/transport.ts]
    ([sendMessages] and [processResponseStream]), of the callback of
    [convertUIMessagesToModelMessages] in [utils.ts] and of
    [createUserPrompt] in [schema.ts].

    Conventions.
    - A JavaScript string is a sequence of UTF-16 code units: [jstring] is
      [list N].
    - A value produced by [JSON.parse] is an immutable tree ([value]);
      documents ([Spec]) live in a store of mutable cells ([heap]) because
      the code clones and then mutates them.
    - [JSON.parse], the string coercion of the [+=] operator and
      [applySpecStreamPatch] of [@json-render/core] are not part of the
      repository; general statements take them as section variables and the
      closed examples instantiate them with the executable models of
      modules [Json], [Ecma] and [JsonRender].
    - The response body is taken as the strings the [TextDecoder] returns,
      and the consumer of the resulting stream never cancels it.
    - [fetch], [JSON.stringify] and [buildUserPrompt] are parameters as
      well; a JavaScript object that is only read and copied is the list of
      its own properties, in property order. *)

From Stdlib Require Import ZArith NArith List Lia Bool String Ascii.
From Stdlib Require Import DecimalString DecimalNat.
From Stdlib Require Import Floats.SpecFloat.
From stdpp Require Import base numbers option list.

Set Warnings "-register-all".
Local Open Scope N_scope.
Local Open Scope list_scope.

(** ** Strings *)

Abbreviation jstring := (list N) (only parsing).

(** Code units of a literal. *)
Definition str (s : string) : jstring :=
  map N_of_ascii (list_ascii_of_string s).

Definition nl : N := 10.

(** ECMAScript [WhiteSpace] and [LineTerminator] code units, the ones
    [String.prototype.trim] removes. *)
Definition is_ws (c : N) : bool :=
  (c =? 9) || (c =? 10) || (c =? 11) || (c =? 12) || (c =? 13) || (c =? 32)
  || (c =? 160) || (c =? 5760) || ((8192 <=? c) && (c <=? 8202))
  || (c =? 8232) || (c =? 8233) || (c =? 8239) || (c =? 8287)
  || (c =? 12288) || (c =? 65279).

Fixpoint trimStart (s : jstring) : jstring :=
  match s with
  | c :: r => if is_ws c then trimStart r else s
  | [] => []
  end.

Definition trimEnd (s : jstring) : jstring := rev (trimStart (rev s)).

Definition trim (s : jstring) : jstring := trimEnd (trimStart s).

Definition jstring_eqb (a b : jstring) : bool := bool_decide (a = b).

Fixpoint startsWith (s p : jstring) : bool :=
  match p, s with
  | [], _ => true
  | c :: p', d :: s' => (c =? d) && startsWith s' p'
  | _ :: _, [] => false
  end.

(** [s.slice(n)] for [0 <= n]. *)
Definition slice_from (n : nat) (s : jstring) : jstring := drop n s.

(** [s.split("\n")]: never empty, one more piece than there are
    terminators. *)
Fixpoint split_nl (s : jstring) : list jstring :=
  match s with
  | [] => [[]]
  | c :: r =>
      if c =? nl then [] :: split_nl r
      else match split_nl r with
           | l :: ls => (c :: l) :: ls
           | [] => [[c]]
           end
  end.

(** [Array.prototype.pop]: the array without its last element, and that
    element ([None] is [undefined], on an empty array). *)
Definition pop {A} (l : list A) : list A * option A := (removelast l, last l).

(** [x || s] for the empty string [s] and an [x] that is a string or
    [undefined]. *)
Definition or_empty (o : option jstring) : jstring := default [] o.

(** ** Parsed JSON values *)

Inductive value :=
| VNull
| VBool (b : bool)
| VNum (x : spec_float)
| VStr (s : jstring)
| VArr (items : list value)
| VObj (props : list (jstring * value)).

Fixpoint own_prop {A} (k : jstring) (l : list (jstring * A)) : option A :=
  match l with
  | [] => None
  | (k', v) :: r => if jstring_eqb k k' then Some v else own_prop k r
  end.

(** Property read [v.k] on a non-null parsed value, for a key [k] that no
    built-in prototype defines ([op], [path], [type], [delta]); [None] is
    [undefined]. Reading a property of [null] throws, which the callers
    handle before they use [field]. *)
Definition field (v : value) (k : jstring) : option value :=
  match v with
  | VObj props => own_prop k props
  | _ => None
  end.

Definition number_truthy (x : spec_float) : bool :=
  match x with
  | S754_zero _ | S754_nan => false
  | _ => true
  end.

(** ECMAScript [ToBoolean]; [None] is [undefined]. *)
Definition truthy (o : option value) : bool :=
  match o with
  | None | Some VNull => false
  | Some (VBool b) => b
  | Some (VNum x) => number_truthy x
  | Some (VStr s) => negb (jstring_eqb s [])
  | Some (VArr _) | Some (VObj _) => true
  end.

(** [types.ts]: [ParsedLine]. The cast [parsed as SpecPatch] is unchecked,
    so the payload of a patch is whatever value the line parsed to. *)
Inductive ParsedLine :=
| Patch (data : value)
| Text (content : jstring).

(** ** Line classifier and line buffer ([spec-stream.ts]) *)

(** The private field [buffer] of the class [SpecStreamBuffer]. *)
Abbreviation SpecStreamBuffer := (list N) (only parsing).

(** The statements [buffer += chunk; lines = buffer.split("\n");
    buffer = lines.pop() || empty], which [processChunk] and the read loop of
    the transport both start with: the complete lines of the extended
    buffer and the tail that stays buffered. *)
Definition takeLines (buffer chunk : jstring) : list jstring * jstring :=
  let '(lines, lastLine) := pop (split_nl (buffer ++ chunk)) in
  (lines, or_empty lastLine).

Section SpecStream.

(** [JSON.parse]; [None] is a [SyntaxError]. *)
Variable JSON_parse : jstring -> option value.

Definition parseSpecLine (line : jstring) : option ParsedLine :=
  let trimmed := trim line in
  match trimmed with
  | [] => None
  | _ :: _ =>
      match JSON_parse trimmed with
      | None => Some (Text line)
      | Some VNull => Some (Text line)
      | Some parsed =>
          if truthy (field parsed (str "op"))
             && truthy (field parsed (str "path"))
          then Some (Patch parsed)
          else Some (Text line)
      end
  end.

Definition new_SpecStreamBuffer : SpecStreamBuffer := [].

Definition processChunk (buffer : SpecStreamBuffer) (chunk : jstring)
  : list ParsedLine * SpecStreamBuffer :=
  let '(lines, buffer') := takeLines buffer chunk in
  (omap parseSpecLine lines, buffer').

Definition flush (buffer : SpecStreamBuffer)
  : option ParsedLine * SpecStreamBuffer :=
  match trim buffer with
  | [] => (None, buffer)
  | _ :: _ => (parseSpecLine buffer, [])
  end.

End SpecStream.

(** ** The store of mutable objects

    Objects and arrays that the code mutates or hands out by reference are
    cells of a store; a cell's address is its index, allocation appends. *)

Abbreviation loc := nat (only parsing).

Inductive hval :=
| HUndef
| HNull
| HBool (b : bool)
| HNum (x : spec_float)
| HStr (s : jstring)
| HRef (l : loc).

Inductive cell :=
| CObj (props : list (jstring * hval))
| CArr (items : list hval).

Abbreviation heap := (list cell) (only parsing).

(** The references a cell holds. *)
Definition hval_refs (v : hval) : list loc :=
  match v with
  | HRef l => [l]
  | _ => []
  end.

Definition cell_refs (c : cell) : list loc :=
  match c with
  | CObj props => flat_map (fun kv => hval_refs (snd kv)) props
  | CArr items => flat_map hval_refs items
  end.

(** [JSON.stringify] of a number followed by [JSON.parse]: [NaN] and the
    infinities are written as [null], the sign of zero is lost. *)
Definition number_json (x : spec_float) : value :=
  match x with
  | S754_nan | S754_infinity _ => VNull
  | S754_zero _ => VNum (S754_zero false)
  | S754_finite _ _ _ => VNum x
  end.

(** Properties whose value is [undefined] are omitted by [JSON.stringify];
    [rec] answers [None] when serialisation throws and [Some None] for
    [undefined]. *)
Fixpoint snapshot_props (rec : hval -> option (option value))
    (props : list (jstring * hval)) : option (list (jstring * value)) :=
  match props with
  | [] => Some []
  | (k, v) :: r =>
      match rec v with
      | None => None
      | Some None => snapshot_props rec r
      | Some (Some t) =>
          match snapshot_props rec r with
          | None => None
          | Some ts => Some ((k, t) :: ts)
          end
      end
  end.

(** An [undefined] array element is written as [null]. *)
Fixpoint snapshot_items (rec : hval -> option (option value))
    (items : list hval) : option (list value) :=
  match items with
  | [] => Some []
  | v :: r =>
      match rec v with
      | None => None
      | Some o =>
          match snapshot_items rec r with
          | None => None
          | Some ts => Some (default VNull o :: ts)
          end
      end
  end.

(** The tree [JSON.parse(JSON.stringify(v))] builds. One unit of [fuel] is
    spent per reference followed; [None] is the [TypeError] of a cyclic
    structure (or a dangling address, which no run creates). *)
Fixpoint snapshot (fuel : nat) (h : heap) (v : hval) : option (option value) :=
  match v with
  | HUndef => Some None
  | HNull => Some (Some VNull)
  | HBool b => Some (Some (VBool b))
  | HNum x => Some (Some (number_json x))
  | HStr s => Some (Some (VStr s))
  | HRef l =>
      match fuel with
      | O => None
      | S f =>
          match h !! l with
          | None => None
          | Some (CObj props) =>
              match snapshot_props (snapshot f h) props with
              | None => None
              | Some ps => Some (Some (VObj ps))
              end
          | Some (CArr items) =>
              match snapshot_items (snapshot f h) items with
              | None => None
              | Some ts => Some (Some (VArr ts))
              end
          end
      end
  end.

(** Building a parsed tree in the store: every object and array gets a
    fresh cell, children before their parent. *)
Fixpoint alloc (t : value) (h : heap) : heap * hval :=
  match t with
  | VNull => (h, HNull)
  | VBool b => (h, HBool b)
  | VNum x => (h, HNum x)
  | VStr s => (h, HStr s)
  | VArr items =>
      let '(h', vs) :=
        (fix go (items : list value) (h : heap) : heap * list hval :=
           match items with
           | [] => (h, [])
           | x :: r =>
               let '(h1, v) := alloc x h in
               let '(h2, vs) := go r h1 in
               (h2, v :: vs)
           end) items h in
      (h' ++ [CArr vs], HRef (length h'))
  | VObj props =>
      let '(h', ps) :=
        (fix go (props : list (jstring * value)) (h : heap)
           : heap * list (jstring * hval) :=
           match props with
           | [] => (h, [])
           | (k, x) :: r =>
               let '(h1, v) := alloc x h in
               let '(h2, ps) := go r h1 in
               (h2, (k, v) :: ps)
           end) props h in
      (h' ++ [CObj ps], HRef (length h'))
  end.

(** The two loops of [alloc] on their own. *)
Fixpoint alloc_items (items : list value) (h : heap) : heap * list hval :=
  match items with
  | [] => (h, [])
  | x :: r =>
      let '(h1, v) := alloc x h in
      let '(h2, vs) := alloc_items r h1 in
      (h2, v :: vs)
  end.

Fixpoint alloc_props (props : list (jstring * value)) (h : heap)
  : heap * list (jstring * hval) :=
  match props with
  | [] => (h, [])
  | (k, x) :: r =>
      let '(h1, v) := alloc x h in
      let '(h2, ps) := alloc_props r h1 in
      (h2, (k, v) :: ps)
  end.

(** More fuel than there are cells: every acyclic chain of references is
    followed to its end. *)
Definition JSON_fuel (h : heap) : nat := S (length h).

(** [JSON.parse(JSON.stringify(x))] for an object [x]: a deep copy in
    fresh cells. [None] when either call throws. *)
Definition JSON_clone (h : heap) (x : loc) : option (heap * loc) :=
  match snapshot (JSON_fuel h) h (HRef x) with
  | Some (Some t) =>
      match alloc t h with
      | (h', HRef l) => Some (h', l)
      | _ => None
      end
  | _ => None
  end.

(** [ToBoolean] of a stored value. *)
Definition hval_truthy (v : option hval) : bool :=
  match v with
  | None | Some HUndef | Some HNull => false
  | Some (HBool b) => b
  | Some (HNum x) => number_truthy x
  | Some (HStr s) => negb (jstring_eqb s [])
  | Some (HRef _) => true
  end.

(** [o.k] for a stored object; [None] is [undefined]. *)
Definition get_prop (h : heap) (o : loc) (k : jstring) : option hval :=
  match h !! o with
  | Some (CObj props) => own_prop k props
  | _ => None
  end.

Definition digit (c : N) : option N :=
  if (48 <=? c) && (c <=? 57) then Some (c - 48) else None.

(** The longest prefix of decimal digits: its value, its length, the
    rest. *)
Fixpoint take_digits (s : jstring) (acc : N) (n : nat) : N * nat * jstring :=
  match s with
  | c :: r =>
      match digit c with
      | Some d => take_digits r (10 * acc + d) (S n)
      | None => (acc, n, s)
      end
  | [] => (acc, n, [])
  end.

(** The number an array-index key denotes: canonical decimal below
    [2^32 - 1]. *)
Definition array_index (k : jstring) : option N :=
  match k with
  | [48] => Some 0
  | 48 :: _ => None
  | _ :: _ =>
      match take_digits k 0 0 with
      | (x, _, []) => if x <? 4294967295 then Some x else None
      | _ => None
      end
  | [] => None
  end.

(** Setting the property [k] of an ordinary object: an existing key
    keeps its position; a new key that is an array index goes among the
    array indices, which come first in ascending order; any other new key
    goes last. *)
Fixpoint assign {A} (k : jstring) (v : A) (props : list (jstring * A))
  : list (jstring * A) :=
  match props with
  | [] => [(k, v)]
  | (k', v') :: r =>
      if jstring_eqb k k' then (k, v) :: r
      else match array_index k, array_index k' with
           | Some i, Some j =>
               if i <? j then (k, v) :: props else (k', v') :: assign k v r
           | Some _, None => (k, v) :: props
           | None, _ => (k', v') :: assign k v r
           end
  end.

(** [o.k = v] for a stored object. *)
Definition set_prop (h : heap) (o : loc) (k : jstring) (v : hval) : heap :=
  match h !! o with
  | Some (CObj props) => <[o := CObj (assign k v props)]> h
  | _ => h
  end.

(** [types.ts]: [SpecPatchOperation] and [SpecPatch]. *)
Inductive SpecPatchOperation := OpAdd | OpRemove | OpReplace | OpMove | OpCopy | OpTest.

Record SpecPatch := {
  op : SpecPatchOperation;
  path : jstring;
  value_ : option value;
  from : option jstring
}.

Definition op_name (o : SpecPatchOperation) : jstring :=
  match o with
  | OpAdd => str "add"
  | OpRemove => str "remove"
  | OpReplace => str "replace"
  | OpMove => str "move"
  | OpCopy => str "copy"
  | OpTest => str "test"
  end.

(** The object a typed patch is at run time. *)
Definition SpecPatch_object (p : SpecPatch) : value :=
  VObj ([(str "op", VStr (op_name (op p))); (str "path", VStr (path p))]
        ++ match value_ p with Some v => [(str "value", v)] | None => [] end
        ++ match from p with Some f => [(str "from", VStr f)] | None => [] end).

(** The object literal with an empty [root] and an empty [elements]
    mapping that [buildSpec] and the transport start from: two fresh objects,
    the inner one first. *)
Definition newSpec (h : heap) : heap * loc :=
  (h ++ [CObj []; CObj [(str "root", HStr []); (str "elements", HRef (length h))]],
   S (length h)).

Definition slash : N := 47.

(** [/^\/elements\/[^/]+$/.exec(path)]: the whole match, [None] for
    [null]. Without the [m] flag the anchors are the ends of the string,
    and the class [[^/]] accepts every code unit but the slash. *)
Definition directElementPath (path : jstring) : option jstring :=
  let id := slice_from 10 path in
  if startsWith path (str "/elements/")
     && negb (jstring_eqb id [])
     && forallb (fun c => negb (c =? slash)) id
  then Some path
  else None.

(** [!firstElementKey] for [string | null]. *)
Definition key_falsy (k : option jstring) : bool :=
  match k with
  | None | Some [] => true
  | Some (_ :: _) => false
  end.

Section PatchEngine.

(** [applySpecStreamPatch] of [@json-render/core]: mutates the target
    object in the store; the flag is [false] when it throws. The patch is
    a value of its own, sharing no object with the store: the transport
    parses it from a line and [buildSpec] is handed it by its caller. *)
Variable applySpecStreamPatch : heap -> loc -> value -> heap * bool.

(** [None]: an exception leaves the function. *)
Definition applySpecPatch (h : heap) (spec : loc) (patch : value)
  : heap * option loc :=
  match JSON_clone h spec with
  | None => (h, None)
  | Some (h1, nextSpec) =>
      let '(h2, ok) := applySpecStreamPatch h1 nextSpec patch in
      (h2, if ok then Some nextSpec else None)
  end.

(** One turn of the loop of [buildSpec]. *)
Definition buildSpec_step (acc : heap * option loc * option jstring)
    (patch : SpecPatch) : heap * option loc * option jstring :=
  match acc with
  | (h, None, firstElementKey) => (h, None, firstElementKey)
  | (h, Some spec, firstElementKey) =>
      let firstElementKey' :=
        match directElementPath (path patch) with
        | Some m =>
            match op patch with
            | OpAdd | OpReplace =>
                if key_falsy firstElementKey
                then Some (slice_from 10 m)
                else firstElementKey
            | _ => firstElementKey
            end
        | None => firstElementKey
        end in
      let '(h', r) := applySpecPatch h spec (SpecPatch_object patch) in
      (h', r, firstElementKey')
  end.

(** The loop: the store, the current [spec] ([None] once a patch has
    thrown) and [firstElementKey]. *)
Definition buildSpec_loop (h : heap) (patches : list SpecPatch)
  : heap * option loc * option jstring :=
  let '(h0, spec) := newSpec h in
  foldl buildSpec_step (h0, Some spec, None) patches.

Definition buildSpec (h : heap) (patches : list SpecPatch)
  : heap * option loc :=
  match buildSpec_loop h patches with
  | (h', Some spec, firstElementKey) =>
      if negb (hval_truthy (get_prop h' spec (str "root")))
         && negb (key_falsy firstElementKey)
      then (set_prop h' spec (str "root") (HStr (or_empty firstElementKey)),
            Some spec)
      else (h', Some spec)
  | (h', None, _) => (h', None)
  end.

End PatchEngine.

(** ** The transport ([transport.ts], [processResponseStream]) *)

(** What [controller.enqueue] receives. [DataUI] is
    [{type: "data-ui", id: "ui", data: currentSpec}] and carries the
    reference held by [currentSpec]; [DataUIText k t] is
    [{type: "data-ui-text", id: `ui-text-${k}`, data: {segmentId: `seg-${k}`,
    text: t}}]; [Forwarded] is a parsed chunk passed through. *)
Inductive OutChunk :=
| DataUI (data : loc)
| DataUIText (segmentIndex : nat) (text : jstring)
| Forwarded (chunk : value).

Definition decimal (n : nat) : jstring :=
  str (NilZero.string_of_uint (Nat.to_uint n)).

Definition chunk_id (c : OutChunk) : option jstring :=
  match c with
  | DataUI _ => Some (str "ui")
  | DataUIText k _ => Some (str "ui-text-" ++ decimal k)
  | Forwarded _ => None
  end.

Definition segmentId (k : nat) : jstring := str "seg-" ++ decimal k.

(** The variables the closure of [start] captures, the store, and the
    chunks enqueued so far (oldest first). *)
Record state := mkState {
  store : heap;
  specBuffer : jstring;
  currentSpec : loc;
  segmentIndex : nat;
  currentSegmentText : jstring;
  queue : list OutChunk
}.

Definition enqueue (st : state) (c : OutChunk) : state :=
  mkState (store st) (specBuffer st) (currentSpec st) (segmentIndex st)
    (currentSegmentText st) (queue st ++ [c]).

Definition emitUIText (st : state) (text : jstring) : state :=
  let currentSegmentText' := currentSegmentText st ++ text in
  mkState (store st) (specBuffer st) (currentSpec st) (segmentIndex st)
    currentSegmentText'
    (queue st ++ [DataUIText (segmentIndex st) currentSegmentText']).

Definition splitTextSegment (st : state) : state :=
  match currentSegmentText st with
  | [] => st
  | _ :: _ =>
      mkState (store st) (specBuffer st) (currentSpec st)
        (S (segmentIndex st)) [] (queue st)
  end.

Definition set_specBuffer (st : state) (b : jstring) : state :=
  mkState (store st) b (currentSpec st) (segmentIndex st)
    (currentSegmentText st) (queue st).

(** The store after a call and the reference [currentSpec] holds. *)
Definition set_currentSpec (st : state) (h : heap) (spec : loc) : state :=
  mkState h (specBuffer st) spec (segmentIndex st)
    (currentSegmentText st) (queue st).

(** How the read loop ends: [done] with what the final [decode()]
    returns, or a rejected [read()]. *)
Inductive source_end := SourceDone (tail : jstring) | SourceError.

(** The response body as the decoder delivers it: the string of each
    [decode(value, {stream: true})], then the end. *)
Record source := mkSource {
  reads : list jstring;
  ending : source_end
}.

(** [controller.close()] or [controller.error(error)]. *)
Inductive signal := Closed | Errored.

Section Transport.

Variable JSON_parse : jstring -> option value.

(** The string [buffer += x] appends for an [x] that is not a string
    (ECMAScript [ToPrimitive] and [ToString]); [None] is a
    [TypeError]. *)
Variable ToString : option value -> option jstring.

Variable applySpecStreamPatch : heap -> loc -> value -> heap * bool.

Definition concat_operand (x : option value) : option jstring :=
  match x with
  | Some (VStr s) => Some s
  | _ => ToString x
  end.

(** The branch [item.type === "patch"] / [remaining.type === "patch"]:
    the flag is [false] when [applySpecPatch] throws. *)
Definition applyPatchItem (st : state) (data : value) : state * bool :=
  let st1 := splitTextSegment st in
  match applySpecPatch applySpecStreamPatch (store st1) (currentSpec st1) data with
  | (h', Some nextSpec) =>
      (enqueue (set_currentSpec st1 h' nextSpec) (DataUI nextSpec), true)
  | (h', None) => (set_currentSpec st1 h' (currentSpec st1), false)
  end.

(** [for (const item of parsed)]: the flag is [false] when an exception
    ends the loop. *)
Fixpoint processItems (st : state) (parsed : list ParsedLine) : state * bool :=
  match parsed with
  | [] => (st, true)
  | Patch data :: r =>
      let '(st', ok) := applyPatchItem st data in
      if ok then processItems st' r else (st', false)
  | Text content :: r => processItems (emitUIText st (content ++ [nl])) r
  end.

Definition type_is (chunk : value) (name : string) : bool :=
  match field chunk (str "type") with
  | Some (VStr s) => jstring_eqb s (str name)
  | _ => false
  end.

(** The branch [chunk.type === "text-delta"]. An exception leaves the
    branch with what was done before it. *)
Definition onTextDelta (st : state) (chunk : value) : state :=
  match concat_operand (field chunk (str "delta")) with
  | None => st
  | Some delta =>
      let '(parsed, buffer') :=
        processChunk JSON_parse (specBuffer st) delta in
      (processItems (set_specBuffer st buffer') parsed).1
  end.

(** The branch [chunk.type === "text-end"]. *)
Definition onTextEnd (st : state) : state :=
  let '(remaining, buffer') := flush JSON_parse (specBuffer st) in
  let st1 := set_specBuffer st buffer' in
  match remaining with
  | None => splitTextSegment st1
  | Some (Patch data) =>
      let '(st2, ok) := applyPatchItem st1 data in
      if ok then splitTextSegment st2 else st2
  | Some (Text content) => splitTextSegment (emitUIText st1 content)
  end.

(** The body of the [try] of [processLine] after [JSON.parse]; the empty
    [catch] turns every exception into a return, the first of them the
    [TypeError] of reading [type] from [null]. *)
Definition handleChunk (st : state) (chunk : value) : state :=
  match chunk with
  | VNull => st
  | _ =>
      if type_is chunk "text-delta" then onTextDelta st chunk
      else if type_is chunk "text-end" then onTextEnd st
      else if type_is chunk "text-start" then st
      else enqueue st (Forwarded chunk)
  end.

Definition processLine (st : state) (line : jstring) : state :=
  match trim line with
  | [] => st
  | _ :: _ =>
      let jsonLine := trim line in
      let jsonLine :=
        if startsWith jsonLine (str "data:")
        then trimStart (slice_from 5 jsonLine)
        else jsonLine in
      if jstring_eqb jsonLine (str "[DONE]") then st
      else match JSON_parse jsonLine with
           | None => st
           | Some chunk => handleChunk st chunk
           end
  end.

(** One turn of the read loop with [done] false. *)
Definition readLoop_step (acc : state * jstring) (decoded : jstring)
  : state * jstring :=
  let '(st, buffer) := acc in
  let '(lines, buffer') := takeLines buffer decoded in
  (foldl processLine st lines, buffer').

Definition initialState (h : heap) : state :=
  let '(h0, spec) := newSpec h in
  mkState h0 new_SpecStreamBuffer spec 0 [] [].

Definition processResponseStream (h : heap) (src : source) : state * signal :=
  let '(st, buffer) :=
    foldl readLoop_step (initialState h, []) (reads src) in
  match ending src with
  | SourceError => (st, Errored)
  | SourceDone tail =>
      let buffer := buffer ++ tail in
      match trim buffer with
      | [] => (st, Closed)
      | _ :: _ => (processLine st buffer, Closed)
      end
  end.

End Transport.

(** ** The request ([transport.ts], [UITransport], [sendMessages]) *)

(** Copying the own properties of [source] onto an object under
    construction, as the spread [{...target, ...source}] and
    [Object.fromEntries] do: in order, each one set as [assign] sets
    it. *)
Definition spread {A} (target source : list (jstring * A))
  : list (jstring * A) :=
  foldl (fun o kv => assign kv.1 kv.2 o) target source.

(** Spreading [undefined] copies nothing. *)
Definition spread_opt {A} (target : list (jstring * A))
    (source : option (list (jstring * A))) : list (jstring * A) :=
  match source with
  | Some o => spread target o
  | None => target
  end.

Definition fromEntries {A} (entries : list (jstring * A))
  : list (jstring * A) :=
  spread [] entries.

(** [UITransportOptions.headers]: a record, or a function whose awaited
    result is a record ([None]: the call throws or the promise
    rejects). *)
Inductive HeadersSetting :=
| HeadersRecord (record : list (jstring * jstring))
| HeadersFunction (result : option (list (jstring * jstring))).

(** [ChatRequestOptions.headers]: a record, or an instance of [Headers],
    given by the pairs its [entries()] yields. *)
Inductive HeadersInit :=
| PlainHeaders (record : list (jstring * jstring))
| HeadersInstance (entries : list (jstring * jstring)).

Inductive RequestCredentials := Include | Omit | SameOrigin.

Inductive Trigger := SubmitMessage | RegenerateMessage.

Definition trigger_name (t : Trigger) : jstring :=
  match t with
  | SubmitMessage => str "submit-message"
  | RegenerateMessage => str "regenerate-message"
  end.

(** What [fetch] resolves to, as far as [sendMessages] looks at it:
    [ok], the text that [text()] resolves to ([None]: it rejects) and
    [body] ([None] is [null]). *)
Record Response := mkResponse {
  response_ok : bool;
  response_text : option jstring;
  response_body : option source
}.

(** How the promise of [sendMessages] settles: with the stream, run to
    its end; with one of the two errors the method throws itself; or with
    a rejection that comes from the headers function, from [fetch] or
    from [text()]. *)
Inductive Outcome :=
| Resolved (stream : state * signal)
| ThrownError (message : jstring)
| Rejected.

Section Request.

(** The type of [AbortSignal] objects, which [sendMessages] only hands
    on. *)
Variable AbortSignal : Type.

(** The second argument of [fetch]. *)
Record RequestInit := mkRequestInit {
  method : jstring;
  init_headers : list (jstring * jstring);
  init_body : jstring;
  init_credentials : option RequestCredentials;
  init_signal : option AbortSignal
}.

(** [None]: the promise rejects. *)
Definition Fetch : Type := jstring -> RequestInit -> option Response.

Record UITransportOptions := mkUITransportOptions {
  options_api : option jstring;
  options_headers : option HeadersSetting;
  options_body : option (list (jstring * option value));
  options_credentials : option RequestCredentials;
  options_fetch : option Fetch
}.

(** The private fields of the class. The values of a [body] are parsed
    values or [undefined] ([None]). *)
Record UITransport := mkUITransport {
  api : jstring;
  headers : option HeadersSetting;
  body : option (list (jstring * option value));
  credentials : option RequestCredentials;
  customFetch : option Fetch
}.

(** The constructor. *)
Definition new_UITransport (options : UITransportOptions) : UITransport :=
  {| api := default (str "/api/chat") (options_api options);
     headers := options_headers options;
     body := options_body options;
     credentials := options_credentials options;
     customFetch := options_fetch options |}.

(** The argument of [sendMessages]; [requestHeaders] and [requestBody]
    are the [headers] and [body] of [ChatRequestOptions]. *)
Record SendOptions := mkSendOptions {
  trigger : Trigger;
  chatId : jstring;
  messageId : option jstring;
  messages : list value;
  abortSignal : option AbortSignal;
  requestHeaders : option HeadersInit;
  requestBody : option (list (jstring * option value))
}.

(** [typeof this.headers === "function" ? await this.headers() :
    this.headers]; the outer [None] is a rejection. *)
Definition resolvedHeaders (this : UITransport)
  : option (option (list (jstring * jstring))) :=
  match headers this with
  | Some (HeadersFunction result) => Some <$> result
  | Some (HeadersRecord record) => Some (Some record)
  | None => Some None
  end.

Definition optionHeaders (options : SendOptions) : list (jstring * jstring) :=
  match requestHeaders options with
  | Some (HeadersInstance entries) => fromEntries entries
  | Some (PlainHeaders record) => record
  | None => []
  end.

(** The object literal passed as [headers]. *)
Definition headersOf (resolved : option (list (jstring * jstring)))
    (options : SendOptions) : list (jstring * jstring) :=
  spread
    (spread_opt [(str "Content-Type", str "application/json")] resolved)
    (optionHeaders options).

(** The object literal that is serialised as the body. *)
Definition bodyOf (this : UITransport) (options : SendOptions)
  : list (jstring * option value) :=
  assign (str "messageId") (VStr <$> messageId options)
    (assign (str "trigger") (Some (VStr (trigger_name (trigger options))))
       (assign (str "messages") (Some (VArr (messages options)))
          (assign (str "id") (Some (VStr (chatId options)))
             (spread_opt (spread_opt [] (body this)) (requestBody options))))).

Variable JSON_parse : jstring -> option value.
Variable ToString : option value -> option jstring.
Variable applySpecStreamPatch : heap -> loc -> value -> heap * bool.

(** [JSON.stringify] of the body object. *)
Variable JSON_stringify : list (jstring * option value) -> jstring.

(** [globalThis.fetch]. *)
Variable fetch : Fetch.

Definition requestOf (this : UITransport)
    (resolved : option (list (jstring * jstring))) (options : SendOptions)
  : RequestInit :=
  {| method := str "POST";
     init_headers := headersOf resolved options;
     init_body := JSON_stringify (bodyOf this options);
     init_credentials := credentials this;
     init_signal := abortSignal options |}.

(** [h] is the store at the time of the call. *)
Definition sendMessages (h : heap) (this : UITransport) (options : SendOptions)
  : Outcome :=
  match resolvedHeaders this with
  | None => Rejected
  | Some resolved =>
      let fetchFn := default fetch (customFetch this) in
      match fetchFn (api this) (requestOf this resolved options) with
      | None => Rejected
      | Some response =>
          if negb (response_ok response) then
            match response_text response with
            | None => Rejected
            | Some [] => ThrownError (str "Failed to fetch the chat response.")
            | Some (c :: t) => ThrownError (c :: t)
            end
          else
            match response_body response with
            | None => ThrownError (str "The response body is empty.")
            | Some stream =>
                Resolved (processResponseStream JSON_parse ToString
                            applySpecStreamPatch h stream)
            end
      end
  end.

End Request.

Arguments method {AbortSignal}.
Arguments init_headers {AbortSignal}.
Arguments init_body {AbortSignal}.
Arguments init_credentials {AbortSignal}.
Arguments init_signal {AbortSignal}.
Arguments api {AbortSignal}.
Arguments headers {AbortSignal}.
Arguments body {AbortSignal}.
Arguments credentials {AbortSignal}.
Arguments customFetch {AbortSignal}.
Arguments trigger {AbortSignal}.
Arguments chatId {AbortSignal}.
Arguments messageId {AbortSignal}.
Arguments messages {AbortSignal}.
Arguments abortSignal {AbortSignal}.
Arguments requestHeaders {AbortSignal}.
Arguments requestBody {AbortSignal}.
Arguments optionHeaders {AbortSignal}.
Arguments headersOf {AbortSignal}.
Arguments bodyOf {AbortSignal}.
Arguments resolvedHeaders {AbortSignal}.
Arguments requestOf {AbortSignal}.
Arguments sendMessages {AbortSignal}.
Arguments new_UITransport {AbortSignal}.

(** ** Messages for the model ([utils.ts]) *)

(** A data part of a UI message, as the callback [convertDataPart]
    reads it: [type], [id] and [data]; [None] is [undefined]. *)
Record DataPart := mkDataPart {
  part_type : jstring;
  part_id : option jstring;
  part_data : option value
}.

Definition spec_marker : jstring := str "[Generated UI Spec JSON]" ++ [nl].

Section Utils.

(** [JSON.stringify] of a parsed value. *)
Variable JSON_stringify : value -> jstring.

Definition serializeSpec (spec : value) : jstring := JSON_stringify spec.

(** The callback that [convertUIMessagesToModelMessages] hands to
    [convertToModelMessages]: the text of the text part it returns, [None]
    for [undefined]. The property [text] is read from a [data] that is
    truthy, hence not [null]. *)
Definition convertDataPart (part : DataPart) : option jstring :=
  let second :=
    match part_id part, part_data part with
    | Some id, Some data =>
        if jstring_eqb id (str "ui") && truthy (Some data)
        then Some (spec_marker ++ serializeSpec data)
        else None
    | _, _ => None
    end in
  match part_data part with
  | Some data =>
      if jstring_eqb (part_type part) (str "data-ui-text") && truthy (Some data)
      then match field data (str "text") with
           | Some (VStr text) =>
               if negb (jstring_eqb text []) then Some text else second
           | _ => second
           end
      else second
  | None => second
  end.

End Utils.

(** ** Prompts ([schema.ts]) *)

Definition STREAMUI_RULES : list jstring :=
  [str "Never wrap output in code fences (``` or ```json). Output raw JSONL lines directly.";
   str "You may include plain text lines before, after, or between JSONL patch lines."].

(** [Array.prototype.join] with the separator [sep], on strings. *)
Fixpoint join (sep : jstring) (l : list jstring) : jstring :=
  match l with
  | [] => []
  | [x] => x
  | x :: r => x ++ sep ++ join sep r
  end.

Section Schema.

Variable UserPromptOptions : Type.

(** [buildUserPrompt] of [@json-render/core]. *)
Variable buildUserPrompt : UserPromptOptions -> jstring.

Definition createUserPrompt (options : UserPromptOptions) : jstring :=
  let base := buildUserPrompt options in
  base ++ [nl; nl] ++ join [nl] STREAMUI_RULES.

End Schema.

(** ** An executable [JSON.parse]

    The JSON grammar of ECMA-404 as [JSON.parse] reads it, used for the
    closed examples. Numbers are rounded to binary64, a repeated key keeps
    its last value, and the keys of an object are in property order
    (array indices ascending, then the other keys in order of creation). *)
Module Json.

Definition is_json_ws (c : N) : bool :=
  (c =? 32) || (c =? 9) || (c =? 10) || (c =? 13).

Fixpoint skip_ws (s : jstring) : jstring :=
  match s with
  | c :: r => if is_json_ws c then skip_ws r else s
  | [] => []
  end.

Definition hex_digit (c : N) : option N :=
  if (48 <=? c) && (c <=? 57) then Some (c - 48)
  else if (65 <=? c) && (c <=? 70) then Some (c - 55)
  else if (97 <=? c) && (c <=? 102) then Some (c - 87)
  else None.

(** The binary64 nearest to [m * 10^e] (ties to even). For a negative
    exponent the quotient is computed with more than 64 bits and a
    sticky bit. Decimals beyond the range of the format are settled
    before any power is computed: [m * 10^e >= 10^311] overflows, and
    [m / 10^k < 2^(log2 m + 1 - 3k)] is below half the least
    subnormal once that exponent is below [-1075]. *)
Definition double_of_decimal (neg : bool) (m : N) (e : Z) : spec_float :=
  match m with
  | N0 => S754_zero neg
  | Npos p =>
      if (310 <? e)%Z then S754_infinity neg
      else if (0 <=? e)%Z then binary_round 53 1024 neg (p * Z.to_pos (10 ^ e)) 0
      else if (Z.log2 (Zpos p) + 1 + 3 * e <? -1075)%Z then S754_zero neg
      else
        let d := (10 ^ (- e))%Z in
        let s := Z.max 0 (64 + Z.log2 d - Z.log2 (Zpos p)) in
        let n := (Zpos p * 2 ^ s)%Z in
        let q := (n / d)%Z in
        let sticky := if (n mod d =? 0)%Z then 0%Z else 1%Z in
        binary_round 53 1024 neg (Z.to_pos (2 * q + sticky)) (- (s + 1))
  end.

Definition parse_exponent (s : jstring) : option (Z * jstring) :=
  match s with
  | c :: r =>
      if (c =? 101) || (c =? 69) then
        let '(neg, r1) :=
          match r with
          | 43 :: r' => (false, r')
          | 45 :: r' => (true, r')
          | _ => (false, r)
          end in
        match take_digits r1 0 0 with
        | (_, O, _) => None
        | (x, S _, r2) => Some (if neg then (- Z.of_N x)%Z else Z.of_N x, r2)
        end
      else Some (0%Z, s)
  | [] => Some (0%Z, [])
  end.

Definition parse_fraction (s : jstring) (int : N) : option (N * Z * jstring) :=
  match s with
  | 46 :: r =>
      match take_digits r int 0 with
      | (_, O, _) => None
      | (m, S n, r') => Some (m, (- Z.of_nat (S n))%Z, r')
      end
  | _ => Some (int, 0%Z, s)
  end.

Definition parse_number (s : jstring) : option (spec_float * jstring) :=
  let '(neg, s1) :=
    match s with
    | 45 :: r => (true, r)
    | _ => (false, s)
    end in
  let int :=
    match s1 with
    | 48 :: r => Some (0, r)
    | c :: _ =>
        match digit c with
        | Some _ => let '(x, _, r) := take_digits s1 0 0 in Some (x, r)
        | None => None
        end
    | [] => None
    end in
  match int with
  | None => None
  | Some (i, s2) =>
      match parse_fraction s2 i with
      | None => None
      | Some (m, e1, s3) =>
          match parse_exponent s3 with
          | None => None
          | Some (e2, s4) => Some (double_of_decimal neg m (e1 + e2), s4)
          end
      end
  end.

Definition hex4 (s : jstring) : option (N * jstring) :=
  match s with
  | a :: b :: c :: d :: r =>
      match hex_digit a, hex_digit b, hex_digit c, hex_digit d with
      | Some x, Some y, Some z, Some w => Some (4096 * x + 256 * y + 16 * z + w, r)
      | _, _, _, _ => None
      end
  | _ => None
  end.

(** After the opening quote; [acc] holds the code units read so far,
    last first. *)
Fixpoint parse_chars (fuel : nat) (s : jstring) (acc : jstring)
  : option (jstring * jstring) :=
  match fuel with
  | O => None
  | S f =>
      match s with
      | [] => None
      | 34 :: r => Some (rev acc, r)
      | 92 :: e :: r =>
          match e with
          | 34 => parse_chars f r (34 :: acc)
          | 92 => parse_chars f r (92 :: acc)
          | 47 => parse_chars f r (47 :: acc)
          | 98 => parse_chars f r (8 :: acc)
          | 102 => parse_chars f r (12 :: acc)
          | 110 => parse_chars f r (10 :: acc)
          | 114 => parse_chars f r (13 :: acc)
          | 116 => parse_chars f r (9 :: acc)
          | 117 =>
              match hex4 r with
              | Some (u, r') => parse_chars f r' (u :: acc)
              | None => None
              end
          | _ => None
          end
      | c :: r => if c <? 32 then None else parse_chars f r (c :: acc)
      end
  end.

Definition expect (lit : string) (v : value) (s : jstring) : option (value * jstring) :=
  if startsWith s (str lit) then Some (v, drop (String.length lit) s) else None.

Fixpoint parse_value (fuel : nat) (s : jstring) : option (value * jstring) :=
  match fuel with
  | O => None
  | S f =>
      match skip_ws s with
      | 110 :: _ => expect "null" VNull (skip_ws s)
      | 116 :: _ => expect "true" (VBool true) (skip_ws s)
      | 102 :: _ => expect "false" (VBool false) (skip_ws s)
      | 34 :: r =>
          match parse_chars (S (length r)) r [] with
          | Some (x, r') => Some (VStr x, r')
          | None => None
          end
      | 91 :: r =>
          match skip_ws r with
          | 93 :: r' => Some (VArr [], r')
          | _ => parse_elements f r []
          end
      | 123 :: r =>
          match skip_ws r with
          | 125 :: r' => Some (VObj [], r')
          | _ => parse_members f r []
          end
      | _ =>
          match parse_number (skip_ws s) with
          | Some (x, r) => Some (VNum x, r)
          | None => None
          end
      end
  end
with parse_elements (fuel : nat) (s : jstring) (acc : list value)
  : option (value * jstring) :=
  match fuel with
  | O => None
  | S f =>
      match parse_value f s with
      | None => None
      | Some (v, r) =>
          match skip_ws r with
          | 44 :: r' => parse_elements f r' (v :: acc)
          | 93 :: r' => Some (VArr (rev (v :: acc)), r')
          | _ => None
          end
      end
  end
with parse_members (fuel : nat) (s : jstring) (acc : list (jstring * value))
  : option (value * jstring) :=
  match fuel with
  | O => None
  | S f =>
      match skip_ws s with
      | 34 :: r =>
          match parse_chars (S (length r)) r [] with
          | None => None
          | Some (k, r1) =>
              match skip_ws r1 with
              | 58 :: r2 =>
                  match parse_value f r2 with
                  | None => None
                  | Some (v, r3) =>
                      match skip_ws r3 with
                      | 44 :: r4 => parse_members f r4 (assign k v acc)
                      | 125 :: r4 => Some (VObj (assign k v acc), r4)
                      | _ => None
                      end
                  end
              | _ => None
              end
          end
      | _ => None
      end
  end.

(** [JSON.parse(text)]; [None] is a [SyntaxError]. Every call of the
    three functions above that spends fuel has consumed input since the
    call before the previous one, so twice the length is enough. *)
Definition parse (text : jstring) : option value :=
  match parse_value (2 * length text + 2) text with
  | Some (v, r) =>
      match skip_ws r with
      | [] => Some v
      | _ :: _ => None
      end
  | None => None
  end.

End Json.

(** ** An executable string coercion

    [ToString] of ECMA-262 for the values [JSON.parse] builds and for
    [undefined], used for the closed examples. *)
Module Ecma.

Definition digits_of (n : N) : jstring :=
  str (NilZero.string_of_uint (N.to_uint n)).

(** [x < 10^n] for [x = num / den]. *)
Definition below_pow10 (num den n : Z) : bool :=
  if (0 <=? n)%Z then (num <? 10 ^ n * den)%Z
  else (num * 10 ^ (- n) <? den)%Z.

(** The least [n] from [n] on with [x < 10^n]. *)
Fixpoint magnitude (fuel : nat) (num den n : Z) : Z :=
  match fuel with
  | O => n
  | S f => if below_pow10 num den n then n else magnitude f num den (n + 1)
  end.

Fixpoint strip_zeros (fuel : nat) (s : Z) : Z :=
  match fuel with
  | O => s
  | S f => if (0 <? s)%Z && (s mod 10 =? 0)%Z then strip_zeros f (s / 10) else s
  end.

(** The decimal with [k] digits nearest to [x = num / den] that reads
    back as [x], if there is one: its digits and its scale. *)
Definition candidate (x : spec_float) (num den n0 : Z) (k : Z) : option (Z * Z) :=
  let scale := (n0 - k)%Z in
  let a := if (0 <=? scale)%Z then num else (num * 10 ^ (- scale))%Z in
  let b := if (0 <=? scale)%Z then (den * 10 ^ scale)%Z else den in
  let lo := (a / b)%Z in
  let r := (a mod b)%Z in
  let back c := SFeqb (Json.double_of_decimal false (Z.to_N c) scale) x in
  let lo_first := (2 * r <? b)%Z || ((2 * r =? b)%Z && Z.even lo) in
  match back lo, back (lo + 1)%Z with
  | true, true => Some (if lo_first then lo else (lo + 1)%Z, scale)
  | true, false => Some (lo, scale)
  | false, true => Some ((lo + 1)%Z, scale)
  | false, false => None
  end.

Fixpoint shortest (fuel : nat) (x : spec_float) (num den n0 k : Z) : Z * Z :=
  match fuel with
  | O => (0%Z, 0%Z)
  | S f =>
      match candidate x num den n0 k with
      | Some c => c
      | None => shortest f x num den n0 (k + 1)
      end
  end.

Definition zeros (n : Z) : jstring := repeat 48 (Z.to_nat n).

(** [Number::toString] for a positive finite number [m * 2^e]. *)
Definition positive_to_string (m : positive) (e : Z) : jstring :=
  let x := S754_finite false m e in
  let num := if (0 <=? e)%Z then (Zpos m * 2 ^ e)%Z else Zpos m in
  let den := if (0 <=? e)%Z then 1%Z else (2 ^ (- e))%Z in
  let n0 := magnitude 640 num den (-325) in
  let '(c, scale) := shortest 17 x num den n0 1 in
  let ds0 := digits_of (Z.to_N c) in
  let n := (Z.of_nat (length ds0) + scale)%Z in
  let ds := digits_of (Z.to_N (strip_zeros 400 c)) in
  let k := Z.of_nat (length ds) in
  if (k <=? n)%Z && (n <=? 21)%Z then ds ++ zeros (n - k)
  else if (0 <? n)%Z && (n <=? 21)%Z then
    take (Z.to_nat n) ds ++ [46] ++ drop (Z.to_nat n) ds
  else if (-6 <? n)%Z && (n <=? 0)%Z then
    [48; 46] ++ zeros (- n) ++ ds
  else
    let ex := (n - 1)%Z in
    let sign := if (0 <=? ex)%Z then [43] else [45] in
    let mant := match ds with
                | [d] => [d]
                | d :: r => d :: 46 :: r
                | [] => []
                end in
    mant ++ [101] ++ sign ++ digits_of (Z.to_N (Z.abs ex)).

Definition number_to_string (x : spec_float) : jstring :=
  match x with
  | S754_nan => str "NaN"
  | S754_zero _ => str "0"
  | S754_infinity false => str "Infinity"
  | S754_infinity true => str "-Infinity"
  | S754_finite false m e => positive_to_string m e
  | S754_finite true m e => 45 :: positive_to_string m e
  end.

Definition join (parts : list jstring) : jstring :=
  match parts with
  | [] => []
  | p :: r => p ++ flat_map (fun q => 44 :: q) r
  end.

(** [ToString] of a parsed value. An object answers
    ["[object Object]"] unless an own property hides the inherited
    [toString], which no parsed value can replace by a function. An
    array joins its elements, [null] counting as the empty string. *)
Fixpoint value_to_string (v : value) : option jstring :=
  match v with
  | VNull => Some (str "null")
  | VBool true => Some (str "true")
  | VBool false => Some (str "false")
  | VNum x => Some (number_to_string x)
  | VStr s => Some s
  | VArr items =>
      join <$> mapM (fun x => match x with
                              | VNull => Some []
                              | _ => value_to_string x
                              end) items
  | VObj props =>
      match own_prop (str "toString") props with
      | Some _ => None
      | None => Some (str "[object Object]")
      end
  end.

Definition ToString (x : option value) : option jstring :=
  match x with
  | None => Some (str "undefined")
  | Some v => value_to_string v
  end.

End Ecma.

(** ** A model of the patch library

    [applySpecStreamPatch] belongs to [@json-render/core], which is not
    part of the repository. The general statements below hold for every
    function that keeps to the target it is given; the closed examples
    use this model. *)
Module JsonRender.

Fixpoint unescape (s : jstring) : jstring :=
  match s with
  | 126 :: 49 :: r => 47 :: unescape r
  | 126 :: 48 :: r => 126 :: unescape r
  | c :: r => c :: unescape r
  | [] => []
  end.

Fixpoint pieces (s : jstring) : list jstring :=
  match s with
  | [] => [[]]
  | c :: r =>
      if c =? slash then [] :: pieces r
      else match pieces r with
           | l :: ls => (c :: l) :: ls
           | [] => [[c]]
           end
  end.

(** The segments of a pointer; [None] when it lacks the leading
    slash. *)
Definition pointer (path : jstring) : option (list jstring) :=
  match path with
  | 47 :: r => Some (map unescape (pieces r))
  | _ => None
  end.

Definition index (seg : jstring) : option nat :=
  N.to_nat <$> array_index seg.

Fixpoint get_at (segs : list jstring) (v : value) : option value :=
  match segs with
  | [] => Some v
  | seg :: rest =>
      match v with
      | VObj props =>
          match own_prop seg props with
          | Some c => get_at rest c
          | None => None
          end
      | VArr items =>
          match index seg with
          | Some i =>
              match items !! i with
              | Some c => get_at rest c
              | None => None
              end
          | None => None
          end
      | _ => None
      end
  end.

(** Writing [new] at [segs] below [v] ([None]: nothing there yet). A
    missing container on the way is created when [create] is set, an
    array for a position and an object for a name. *)
Fixpoint set_at (create : bool) (segs : list jstring) (new : value)
    (v : option value) : option value :=
  match segs with
  | [] => Some new
  | seg :: rest =>
      match v with
      | Some (VObj props) =>
          match set_at create rest new (own_prop seg props) with
          | Some c => Some (VObj (assign seg c props))
          | None => None
          end
      | Some (VArr items) =>
          match index seg with
          | Some i =>
              if decide (i <= length items)%nat then
                match set_at create rest new (items !! i) with
                | Some c =>
                    Some (VArr (if decide (i < length items)%nat
                                then <[i := c]> items
                                else items ++ [c]))
                | None => None
                end
              else None
          | None => None
          end
      | Some _ => None
      | None =>
          if create then
            match set_at create rest new None with
            | Some c =>
                match index seg with
                | Some O => Some (VArr [c])
                | Some (S _) => None
                | None => Some (VObj [(seg, c)])
                end
            | None => None
            end
          else None
      end
  end.

Definition without (k : jstring) (props : list (jstring * value))
  : list (jstring * value) :=
  filter (fun kv => k <> fst kv) props.

(** Removing what [segs] addresses; nothing happens when it is not
    there. *)
Fixpoint remove_at (segs : list jstring) (v : value) : option value :=
  match segs with
  | [] => None
  | seg :: rest =>
      match v with
      | VObj props =>
          match rest, own_prop seg props with
          | [], _ => Some (VObj (without seg props))
          | _ :: _, Some c =>
              match remove_at rest c with
              | Some c' => Some (VObj (assign seg c' props))
              | None => None
              end
          | _ :: _, None => Some v
          end
      | VArr items =>
          match index seg with
          | Some i =>
              match rest, items !! i with
              | [], _ => Some (VArr (delete i items))
              | _ :: _, Some c =>
                  match remove_at rest c with
                  | Some c' => Some (VArr (<[i := c']> items))
                  | None => None
                  end
              | _ :: _, None => Some v
              end
          | None => Some v
          end
      | _ => Some v
      end
  end.

(** Equality of parsed values; the keys of two equal objects come in
    the same order. *)
Fixpoint value_eqb (a b : value) {struct a} : bool :=
  match a, b with
  | VNull, VNull => true
  | VBool x, VBool y => Bool.eqb x y
  | VNum x, VNum y => SFeqb x y
  | VStr x, VStr y => jstring_eqb x y
  | VArr xs, VArr ys =>
      (fix go (xs ys : list value) : bool :=
         match xs, ys with
         | [], [] => true
         | x :: xs', y :: ys' => value_eqb x y && go xs' ys'
         | _, _ => false
         end) xs ys
  | VObj ps, VObj qs =>
      (fix go (ps qs : list (jstring * value)) : bool :=
         match ps, qs with
         | [], [] => true
         | (k, x) :: ps', (k', y) :: qs' =>
             jstring_eqb k k' && value_eqb x y && go ps' qs'
         | _, _ => false
         end) ps qs
  | _, _ => false
  end.

Definition string_field (v : value) (k : string) : option jstring :=
  match field v (str k) with
  | Some (VStr s) => Some s
  | _ => None
  end.

(** The places of a Document: [/root], [/elements/<id>] and below,
    [/state] and below. *)
Definition resolves (segs : list jstring) : bool :=
  match segs with
  | [r] => jstring_eqb r (str "root") || jstring_eqb r (str "state")
  | top :: _ :: _ =>
      jstring_eqb top (str "elements") || jstring_eqb top (str "state")
  | [] => false
  end.

Definition under_state (segs : list jstring) : bool :=
  match segs with
  | top :: _ => jstring_eqb top (str "state")
  | [] => false
  end.

(** Modelled from the spec: the effect of one patch on the content of a
    Document, which section 4.3 describes and [@json-render/core]
    implements outside this repository. [None] is a failure
    ([InvalidPatchPath] for a path that does not resolve or an
    operation that is none of the six, [PatchTestFailed] for a [test]
    that does not hold). [add] and [replace] write alike; [add], [move]
    and [copy] create missing containers under [/state] only; [remove]
    at [/root] clears the root. *)
Definition apply_tree (doc patch : value) : option value :=
  match string_field patch "op", string_field patch "path" with
  | Some o, Some p =>
      match pointer p with
      | Some segs =>
          if negb (resolves segs) then None
          else if jstring_eqb o (str "add") || jstring_eqb o (str "replace") then
            match field patch (str "value") with
            | Some x =>
                set_at (jstring_eqb o (str "add") && under_state segs) segs x (Some doc)
            | None => None
            end
          else if jstring_eqb o (str "remove") then
            if jstring_eqb p (str "/root")
            then set_at false segs (VStr []) (Some doc)
            else remove_at segs doc
          else if jstring_eqb o (str "move") || jstring_eqb o (str "copy") then
            match string_field patch "from" with
            | Some f =>
                match pointer f with
                | Some fsegs =>
                    match get_at fsegs doc with
                    | Some x =>
                        match (if jstring_eqb o (str "move")
                               then remove_at fsegs doc else Some doc) with
                        | Some doc1 => set_at (under_state segs) segs x (Some doc1)
                        | None => None
                        end
                    | None => None
                    end
                | None => None
                end
            | None => None
            end
          else if jstring_eqb o (str "test") then
            match get_at segs doc, field patch (str "value") with
            | Some x, Some y => if value_eqb x y then Some doc else None
            | _, _ => None
            end
          else None
      | None => None
      end
  | _, _ => None
  end.

(** Modelled from the spec: [applySpecStreamPatch] as the mutation of
    its target that has the effect [apply_tree] on the target's
    content. The properties of the target object are rewritten in
    place, their new values are built in fresh cells; the flag is
    [false] when the patch fails, and the target is then as it was. *)
Definition applySpecStreamPatch (h : heap) (target : loc) (patch : value)
  : heap * bool :=
  match snapshot (JSON_fuel h) h (HRef target) with
  | Some (Some doc) =>
      match apply_tree doc patch with
      | Some (VObj props) =>
          let '(h', ps) := alloc_props props h in
          (<[target := CObj ps]> h', true)
      | _ => (h, false)
      end
  | _ => (h, false)
  end.

End JsonRender.


(** ** Notions the statements use *)

(** Number of line terminators in a text. *)
Definition count_nl (s : jstring) : nat := length (filter (fun c => c = nl) s).

(** The text that has the given complete lines, each followed by its
    terminator, and then an unterminated rest. *)
Definition unlines (lines : list jstring) (rest : jstring) : jstring :=
  flat_map (fun l => l ++ [nl]) lines ++ rest.

(** Pushing fragments one after the other: the complete lines each push
    finds, and the buffer left. *)
Fixpoint pushedLines (buffer : jstring) (frags : list jstring)
  : list (list jstring) * jstring :=
  match frags with
  | [] => ([], buffer)
  | f :: r =>
      let '(lines, buffer') := takeLines buffer f in
      let '(ls, b) := pushedLines buffer' r in
      (lines :: ls, b)
  end.

(** The same pushes through [processChunk]: what each call returns. *)
Fixpoint pushes (JSON_parse : jstring -> option value) (buffer : jstring)
    (frags : list jstring) : list (list ParsedLine) * jstring :=
  match frags with
  | [] => ([], buffer)
  | f :: r =>
      let '(out, buffer') := processChunk JSON_parse buffer f in
      let '(outs, b) := pushes JSON_parse buffer' r in
      (out :: outs, b)
  end.

(** Every object that exists in [h] exists unchanged in [h']. *)
Definition preserved (h h' : heap) : Prop :=
  forall l c, h !! l = Some c -> h' !! l = Some c.

(** No object at an address from [b] on refers to one below [b]. *)
Definition closed_above (b : loc) (h : heap) : Prop :=
  forall l c, (b <= l)%nat -> h !! l = Some c ->
    Forall (fun r => (b <= r)%nat) (cell_refs c).

(** The library function keeps to its target: when the target lies in a
    part of the store that refers to nothing outside itself, the call
    changes no object outside that part and leaves the part
    self-contained. *)
Definition keeps_to_target (f : heap -> loc -> value -> heap * bool) : Prop :=
  forall h target patch b,
    (b <= target)%nat -> (target < length h)%nat -> (b <= length h)%nat ->
    closed_above b h ->
    (forall l, (l < b)%nat -> (f h target patch).1 !! l = h !! l)
    /\ closed_above b (f h target patch).1
    /\ (length h <= length (f h target patch).1)%nat.

(** What an allocation adds to the store refers to nothing below the
    address [b]. *)
Definition added_above (b : nat) (h h' : heap) (refs : list loc) : Prop :=
  exists ext, h' = h ++ ext
    /\ Forall (fun c => Forall (fun r => (b <= r)%nat) (cell_refs c)) ext
    /\ Forall (fun r => (b <= r < length h')%nat) refs.



(** The segment index of a text chunk is at least [k]. *)
Definition text_from (k : nat) (c : OutChunk) : Prop :=
  match c with
  | DataUIText i _ => (k <= i)%nat
  | _ => True
  end.

(** [st'] comes after [st]: the segment counter has not gone back, the
    queue has grown at its end, and no chunk added belongs to a segment
    before the one [st] was at. *)
Definition advances (st st' : state) : Prop :=
  (segmentIndex st <= segmentIndex st')%nat
  /\ exists new, queue st' = queue st ++ new
       /\ Forall (text_from (segmentIndex st)) new.

Definition is_text (c : OutChunk) : Prop :=
  match c with
  | DataUIText _ _ => True
  | _ => False
  end.

Definition has_segment (q : list OutChunk) (k : nat) : Prop :=
  exists t, DataUIText k t ∈ q.

Definition open_segments (st : state) : nat :=
  match currentSegmentText st with
  | [] => segmentIndex st
  | _ :: _ => S (segmentIndex st)
  end.

(** The segments that have been announced are exactly those below
    [open_segments], and the last text chunk of the open segment carries
    the text accumulated so far. *)
Definition segments_ok (st : state) : Prop :=
  (forall k, has_segment (queue st) k <-> (k < open_segments st)%nat)
  /\ (currentSegmentText st <> [] ->
      exists q1 q2, queue st = q1 ++ DataUIText (segmentIndex st) (currentSegmentText st) :: q2
                    /\ Forall (fun c => ~ is_text c) q2).

(** The chunks of a queue that are text chunks of segment [k], in
    order. *)
Definition segment_texts (k : nat) (q : list OutChunk) : list jstring :=
  omap (fun c => match c with
                 | DataUIText i t => if decide (i = k) then Some t else None
                 | _ => None
                 end) q.

(** The id a patch adds or replaces directly under [/elements], if it
    does. *)
Definition directElementKey (p : SpecPatch) : option jstring :=
  match op p with
  | OpAdd | OpReplace => slice_from 10 <$> directElementPath (path p)
  | _ => None
  end.

(** Folding patches over a Document, the result of one application
    being the Document of the next; [None] once an application has
    thrown. *)
Definition applyAll (f : heap -> loc -> value -> heap * bool)
    (start : heap * option loc) (patches : list SpecPatch) : heap * option loc :=
  foldl (fun acc p =>
           match acc with
           | (h, Some spec) => applySpecPatch f h spec (SpecPatch_object p)
           | (h, None) => (h, None)
           end) start patches.

(** What the consumer of the stream sees of a chunk when it reads the
    Document of a [data-ui] chunk in the store [h]. *)
Inductive Seen :=
| SeenUI (document : option (option value))
| SeenText (segmentIndex : nat) (text : jstring)
| SeenForwarded (chunk : value).

Definition see (h : heap) (c : OutChunk) : Seen :=
  match c with
  | DataUI l => SeenUI (snapshot (JSON_fuel h) h (HRef l))
  | DataUIText k t => SeenText k t
  | Forwarded v => SeenForwarded v
  end.

(** The claim of one buffer per identifier, in the words of the
    specification: each fragment is pushed into the buffer of its
    identifier, and the lines of a push are cut from that buffer alone. *)
Fixpoint keyedLines (buffers : jstring -> jstring)
    (events : list (jstring * jstring)) : list (list jstring) :=
  match events with
  | [] => []
  | (id, delta) :: r =>
      let '(lines, buffer') := takeLines (buffers id) delta in
      lines :: keyedLines (fun i => if jstring_eqb i id then buffer' else buffers i) r
  end.

(** The text [processLine] hands to [JSON.parse] for a line that is not
    blank: the line trimmed, without a leading [data:] and the white space
    that follows it. *)
Definition payload (line : jstring) : jstring :=
  let jsonLine := trim line in
  if startsWith jsonLine (str "data:")
  then trimStart (slice_from 5 jsonLine)
  else jsonLine.

Definition is_null (v : value) : bool :=
  match v with
  | VNull => true
  | _ => false
  end.

(** The chunk that a line of the response passes on to the consumer,
    if it passes one on. *)
Definition passedThrough (JSON_parse : jstring -> option value)
    (line : jstring) : option value :=
  match trim line with
  | [] => None
  | _ :: _ =>
      if jstring_eqb (payload line) (str "[DONE]") then None
      else match JSON_parse (payload line) with
           | Some chunk =>
               if is_null chunk || type_is chunk "text-delta"
                  || type_is chunk "text-end" || type_is chunk "text-start"
               then None
               else Some chunk
           | None => None
           end
  end.

(** The chunks of a queue that were passed through, and the Documents
    it carries, in order. *)
Definition forwarded (q : list OutChunk) : list value :=
  omap (fun c => match c with Forwarded v => Some v | _ => None end) q.

Definition documents (q : list OutChunk) : list loc :=
  omap (fun c => match c with DataUI l => Some l | _ => None end) q.

(** The Documents enqueued exist in the store and no two of them are the
    same object. *)
Definition documents_apart (st : state) : Prop :=
  Forall (fun l => (l < length (store st))%nat) (documents (queue st))
  /\ NoDup (documents (queue st)).

(** Each text of the list is the one before it with something appended
    at its end. *)
Fixpoint grows (texts : list jstring) : Prop :=
  match texts with
  | t :: r =>
      match r with
      | t' :: _ => (exists more, more <> [] /\ t' = t ++ more) /\ grows r
      | [] => True
      end
  | [] => True
  end.

(** The texts announced for every segment grow, and the last text
    announced for the open segment is the text accumulated. *)
Definition texts_grow (st : state) : Prop :=
  segments_ok st
  /\ (forall k, grows (segment_texts k (queue st)))
  /\ last (segment_texts (segmentIndex st) (queue st))
     = match currentSegmentText st with
       | [] => None
       | _ :: _ => Some (currentSegmentText st)
       end.

(** The Document that [currentSpec] holds is the last one enqueued, or
    the one the run started with. *)
Definition current_is_announced (first : loc) (st : state) : Prop :=
  last (first :: documents (queue st)) = Some (currentSpec st).

(** What a chunk of the queue never is: a text chunk without text, or a
    passed-through chunk that is [null] or one of the three text events. *)
Definition well_formed_chunk (c : OutChunk) : Prop :=
  match c with
  | DataUI _ => True
  | DataUIText _ t => t <> []
  | Forwarded v =>
      v <> VNull /\ type_is v "text-delta" = false
      /\ type_is v "text-end" = false /\ type_is v "text-start" = false
  end.

(** The data part that a chunk of the transport is for
    [convertDataPart], the Document read in the store [h]. *)
Definition part_of (h : heap) (c : OutChunk) : option DataPart :=
  match c with
  | DataUI l =>
      match snapshot (JSON_fuel h) h (HRef l) with
      | Some (Some document) =>
          Some (mkDataPart (str "data-ui") (chunk_id c) (Some document))
      | _ => None
      end
  | DataUIText k t =>
      Some (mkDataPart (str "data-ui-text") (chunk_id c)
              (Some (VObj [(str "segmentId", VStr (segmentId k));
                           (str "text", VStr t)])))
  | Forwarded _ => None
  end.

(** A typed patch as an item of a delta. *)
Definition patchItem (p : SpecPatch) : ParsedLine := Patch (SpecPatch_object p).

(** [flush] as the last item of a push. *)
Definition flushed (JSON_parse : jstring -> option value) (buffer : jstring)
  : list ParsedLine :=
  match (flush JSON_parse buffer).1 with
  | Some item => [item]
  | None => []
  end.

(** Concrete streams for the closed examples. *)
Module Examples.

(** JSON text written with apostrophes in place of the double
    quotes. *)
Definition js (s : string) : jstring :=
  map (fun c => if c =? 39 then 34 else c) (str s).

(** A string as a JSON string literal. *)
Definition quote (s : jstring) : jstring :=
  [34] ++ flat_map (fun c => if c =? 34 then [92; 34]
                             else if c =? 92 then [92; 92]
                             else if c =? 10 then [92; 110]
                             else [c]) s ++ [34].

(** One event of the response body as the server writes it. *)
Definition sse (json : jstring) : jstring := str "data: " ++ json ++ [nl].

Definition text_delta (id delta : jstring) : jstring :=
  sse (js "{'type':'text-delta','id':" ++ quote id
       ++ js ",'delta':" ++ quote delta ++ js "}").

Definition text_end (id : jstring) : jstring :=
  sse (js "{'type':'text-end','id':" ++ quote id ++ js "}").

Definition message_start : jstring :=
  sse (js "{'type':'message-start','id':'msg1'}").

Definition line (s : string) : jstring := js s ++ [nl].

(** A whole run on a body that ends normally, from an empty store, and
    what the consumer sees in the end. *)
Definition run (body : list jstring) : state * signal :=
  processResponseStream Json.parse Ecma.ToString
    JsonRender.applySpecStreamPatch [] (mkSource body (SourceDone [])).

Definition seen (body : list jstring) : list Seen :=
  map (see (store (run body).1)) (queue (run body).1).

Definition set_root : string := "{'op':'replace','path':'/root','value':'card1'}".

Definition add_card : string :=
  "{'op':'add','path':'/elements/card1','value':{'type':'Card','props':{}}}".

Definition bad_path : string := "{'op':'add','path':'/elements','value':1}".

Definition no_path : string := "{'op':'add','path':5,'value':1}".

Definition card : value :=
  VObj [(str "type", VStr (str "Card")); (str "props", VObj [])].

(** The value a JSON text parses to. *)
Definition parsed (s : string) : value := default VNull (Json.parse (js s)).

Definition add_card_patch : SpecPatch :=
  {| op := OpAdd; path := str "/elements/card1";
     value_ := Some card; from := None |}.

(** The state in which one text line has been announced. *)
Definition after_Before : state :=
  emitUIText (initialState []) (str "Before" ++ [nl]).

(** A state whose buffer holds an unterminated text. *)
Definition buffered_tail : state :=
  set_specBuffer after_Before (str "tail").

End Examples.

Import Examples.

(** A transport, a request and patches for the closed examples. *)
Module Samples.

Definition transport : UITransport unit :=
  new_UITransport
    {| options_api := None;
       options_headers :=
         Some (HeadersRecord [(str "Authorization", str "Bearer a");
                              (str "X-Client", str "web")]);
       options_body :=
         Some [(str "id", Some (VStr (str "mine")));
               (str "model", Some (VStr (str "m1")))];
       options_credentials := None;
       options_fetch := None |}.

Definition options : SendOptions unit :=
  {| trigger := SubmitMessage;
     chatId := str "chat1";
     messageId := None;
     messages := [];
     abortSignal := None;
     requestHeaders := Some (PlainHeaders [(str "Authorization", str "Bearer b")]);
     requestBody := Some [(str "model", Some (VStr (str "m2")))] |}.

(** A server that answers every request with the status 500 and no
    text. *)
Definition failing_fetch : Fetch unit :=
  fun _ _ => Some (mkResponse false (Some []) None).

(** A [test] that the empty Document does not pass. *)
Definition failing_test : SpecPatch :=
  {| op := OpTest; path := str "/root";
     value_ := Some (VStr (str "x")); from := None |}.

(** A patch that adds the element whose id is [b/c], the slash written
    as the pointer syntax asks. *)
Definition add_escaped : SpecPatch :=
  {| op := OpAdd; path := str "/elements/b~1c";
     value_ := Some card; from := None |}.

(** A body in two reads that cut an event in two. *)
Definition cut_body : list jstring :=
  [message_start ++ str "data: {";
   js "'type':'text-delta','id':'t','delta':'Hi" ++ [92; 110]
     ++ js "'}" ++ [nl]].

End Samples.

(** ** Lines and terminators *)

Lemma split_nl_snoc (s : jstring) :
  exists ls r, split_nl s = ls ++ [r]
    /\ s = unlines ls r
    /\ Forall (fun l => nl ∉ l) ls /\ nl ∉ r.
Proof.
  induction s as [|c s (ls & r & E & Hs & Hls & Hr)]; simpl.
  - exists [], []. repeat split; auto. apply not_elem_of_nil.
  - destruct (N.eqb_spec c nl) as [->|Hc].
    + exists ([] :: ls), r. rewrite E. repeat split; auto.
      * unfold unlines in *. simpl. congruence.
      * constructor; auto. apply not_elem_of_nil.
    + rewrite E. destruct ls as [|l ls]; simpl.
      * exists [], (c :: r). repeat split; auto.
        -- unfold unlines in *. simpl in *. congruence.
        -- rewrite not_elem_of_cons. auto.
      * exists ((c :: l) :: ls), r. repeat split; auto.
        -- unfold unlines in *. simpl in *. congruence.
        -- inversion Hls; subst. constructor; auto.
           rewrite not_elem_of_cons. auto.
Qed.

Lemma pop_snoc {A} (l : list A) (x : A) : pop (l ++ [x]) = (l, Some x).
Proof. unfold pop. by rewrite removelast_last, last_snoc. Qed.

Lemma takeLines_spec (buffer chunk : jstring) :
  buffer ++ chunk = unlines (takeLines buffer chunk).1 (takeLines buffer chunk).2
  /\ Forall (fun l => nl ∉ l) (takeLines buffer chunk).1
  /\ nl ∉ (takeLines buffer chunk).2.
Proof.
  unfold takeLines.
  destruct (split_nl_snoc (buffer ++ chunk)) as (ls & r & E & Hs & Hls & Hr).
  rewrite E, pop_snoc. simpl. auto.
Qed.

Lemma count_nl_app (a b : jstring) : count_nl (a ++ b) = (count_nl a + count_nl b)%nat.
Proof. unfold count_nl. by rewrite filter_app, length_app. Qed.

Lemma count_nl_free (s : jstring) : nl ∉ s -> count_nl s = 0%nat.
Proof.
  unfold count_nl. induction s as [|c s IH]; intros H; [done|].
  apply not_elem_of_cons in H as [Hc Hs].
  rewrite filter_cons. destruct (decide (c = nl)); [congruence|]. auto.
Qed.

Lemma count_nl_lines (ls : list jstring) :
  Forall (fun l => nl ∉ l) ls ->
  count_nl (flat_map (fun l => l ++ [nl]) ls) = length ls.
Proof.
  induction 1 as [|l ls Hl _ IH]; simpl; [done|].
  rewrite <- app_assoc, !count_nl_app, (count_nl_free l Hl), IH. done.
Qed.

Lemma count_nl_unlines (ls : list jstring) (r : jstring) :
  Forall (fun l => nl ∉ l) ls -> nl ∉ r -> count_nl (unlines ls r) = length ls.
Proof.
  intros Hls Hr. unfold unlines.
  rewrite count_nl_app, (count_nl_free r Hr), count_nl_lines by done. lia.
Qed.

Lemma unlines_app (ls1 ls2 : list jstring) (r : jstring) :
  unlines (ls1 ++ ls2) r = unlines ls1 [] ++ unlines ls2 r.
Proof. unfold unlines. rewrite flat_map_app, app_nil_r. by rewrite app_assoc. Qed.

Lemma unlines_nil_app (ls : list jstring) (r : jstring) :
  unlines ls [] ++ r = unlines ls r.
Proof. unfold unlines. by rewrite app_nil_r. Qed.

Lemma pushedLines_cons (buffer f : jstring) (r : list jstring) :
  pushedLines buffer (f :: r)
  = ((takeLines buffer f).1 :: (pushedLines (takeLines buffer f).2 r).1,
     (pushedLines (takeLines buffer f).2 r).2).
Proof.
  cbn [pushedLines]. destruct (takeLines buffer f) as [lines buffer'].
  cbn [fst snd]. by destruct (pushedLines buffer' r).
Qed.

Lemma pushedLines_spec (frags : list jstring) (buffer : jstring) :
  buffer ++ concat frags
    = unlines (concat (pushedLines buffer frags).1) (pushedLines buffer frags).2
  /\ Forall (fun l => nl ∉ l) (concat (pushedLines buffer frags).1)
  /\ (nl ∉ buffer -> nl ∉ (pushedLines buffer frags).2).
Proof.
  revert buffer. induction frags as [|f r IH]; intros buffer.
  - cbn. unfold unlines. cbn. rewrite !app_nil_r. auto.
  - rewrite pushedLines_cons. cbn [fst snd concat].
    destruct (takeLines_spec buffer f) as (E & Hl & Hr).
    destruct (IH (takeLines buffer f).2) as (E' & Hl' & Hr'). repeat split.
    + rewrite app_assoc, E, unlines_app, <- E'.
      by rewrite app_assoc, unlines_nil_app.
    + apply Forall_app; auto.
    + auto.
Qed.

Lemma pushes_pushedLines (JSON_parse : jstring -> option value)
    (frags : list jstring) (buffer : jstring) :
  pushes JSON_parse buffer frags
  = (map (omap (parseSpecLine JSON_parse)) (pushedLines buffer frags).1,
     (pushedLines buffer frags).2).
Proof.
  revert buffer. induction frags as [|f r IH]; intros buffer; [done|].
  rewrite pushedLines_cons. cbn [pushes fst snd map]. unfold processChunk.
  destruct (takeLines buffer f) as [lines buffer']. cbn [fst snd].
  by rewrite IH.
Qed.

(** ** Trimming *)

Lemma trimStart_nil (s : jstring) :
  trimStart s = [] <-> forallb is_ws s = true.
Proof.
  induction s as [|c s IH]; simpl; [done|].
  destruct (is_ws c); simpl; [done|]. split; discriminate.
Qed.

Lemma trimStart_head (s : jstring) (c : N) (r : jstring) :
  trimStart s = c :: r -> is_ws c = false.
Proof.
  induction s as [|d s IH]; simpl; [done|].
  destruct (is_ws d) eqn:E; [done|]. by intros [= -> _].
Qed.

Lemma forallb_rev (f : N -> bool) (s : jstring) :
  forallb f (rev s) = forallb f s.
Proof.
  induction s as [|c s IH]; simpl; [done|].
  rewrite forallb_app, IH. simpl. rewrite andb_true_r. apply andb_comm.
Qed.

(** A text trims to nothing exactly when it is empty or consists of
    white space. *)
Lemma trim_nil (s : jstring) : trim s = [] <-> forallb is_ws s = true.
Proof.
  unfold trim, trimEnd. rewrite <- trimStart_nil. split.
  - intros H. apply (f_equal (@rev N)) in H. rewrite rev_involutive in H.
    simpl in H. apply trimStart_nil in H. rewrite forallb_rev in H.
    destruct (trimStart s) as [|c r] eqn:E; [done|].
    apply trimStart_head in E. simpl in H. by rewrite E in H.
  - by intros ->.
Qed.

(** ** The classifier and the buffer *)

Section SpecStreamFacts.

Variable JSON_parse : jstring -> option value.

Lemma parseSpecLine_blank (line : jstring) :
  trim line = [] -> parseSpecLine JSON_parse line = None.
Proof. unfold parseSpecLine. by intros ->. Qed.

Lemma parseSpecLine_is_Some (line : jstring) :
  trim line <> [] -> is_Some (parseSpecLine JSON_parse line).
Proof.
  unfold parseSpecLine. destruct (trim line) as [|c r]; [done|]. intros _.
  destruct (JSON_parse (c :: r)) as [[]|]; try done;
    by destruct (_ && _).
Qed.

Lemma parseSpecLine_cases (line : jstring) (pl : ParsedLine) :
  parseSpecLine JSON_parse line = Some pl ->
  pl = Text line
  \/ exists v, JSON_parse (trim line) = Some v /\ pl = Patch v
       /\ truthy (field v (str "op")) = true
       /\ truthy (field v (str "path")) = true.
Proof.
  unfold parseSpecLine. destruct (trim line) as [|c r]; [done|].
  destruct (JSON_parse (c :: r)) as [v|]; [|intros [= <-]; by left].
  destruct (truthy (field v (str "op")) && truthy (field v (str "path"))) eqn:E.
  - apply andb_true_iff in E as [E1 E2].
    destruct v; try (intros [= <-]; right; eauto 6); done.
  - destruct v; intros [= <-]; by left.
Qed.

Lemma flush_blank (buffer : jstring) :
  trim buffer = [] -> flush JSON_parse buffer = (None, buffer).
Proof. unfold flush. by intros ->. Qed.

Lemma flush_content (buffer : jstring) :
  trim buffer <> [] ->
  flush JSON_parse buffer = (parseSpecLine JSON_parse buffer, []).
Proof. unfold flush. by destruct (trim buffer). Qed.

(** C4. The classifier is a three-way case split: a line that trims to
    nothing yields nothing; a line whose trimmed form does not parse, or
    parses to a value without a truthy [op] or without a truthy [path],
    yields [Text] with the line exactly as it came; a line whose trimmed
    form parses to a value with both yields [Patch] with that value and
    no further check. *)
Theorem classifier_cases (line : jstring) :
  (trim line = [] -> parseSpecLine JSON_parse line = None)
  /\ (trim line <> [] -> JSON_parse (trim line) = None ->
      parseSpecLine JSON_parse line = Some (Text line))
  /\ (forall v, trim line <> [] -> JSON_parse (trim line) = Some v ->
      (truthy (field v (str "op")) && truthy (field v (str "path"))) = false ->
      parseSpecLine JSON_parse line = Some (Text line))
  /\ (forall v, trim line <> [] -> JSON_parse (trim line) = Some v ->
      truthy (field v (str "op")) = true ->
      truthy (field v (str "path")) = true ->
      parseSpecLine JSON_parse line = Some (Patch v)).
Proof.
  unfold parseSpecLine. destruct (trim line) as [|c r] eqn:E.
  - repeat split; done.
  - repeat split; try done.
    + by intros _ ->.
    + intros v _ -> H. rewrite H. by destruct v.
    + intros v _ -> H1 H2. rewrite H1, H2. by destruct v.
Qed.

End SpecStreamFacts.

(** ** The store *)

Lemma value_nested_ind (P : value -> Prop) :
  P VNull -> (forall b, P (VBool b)) -> (forall x, P (VNum x)) ->
  (forall s, P (VStr s)) ->
  (forall items, Forall P items -> P (VArr items)) ->
  (forall props, Forall (fun kv => P kv.2) props -> P (VObj props)) ->
  forall v, P v.
Proof.
  intros Hnull Hbool Hnum Hstr Harr Hobj. fix IH 1.
  intros [|b|x|s|items|props];
    [apply Hnull | apply Hbool | apply Hnum | apply Hstr | |].
  - apply Harr.
    exact ((fix go (l : list value) : Forall P l :=
              match l with
              | [] => @List.Forall_nil _ P
              | x :: r => @List.Forall_cons _ P x r (IH x) (go r)
              end) items).
  - apply Hobj.
    exact ((fix go (l : list (jstring * value)) : Forall (fun kv => P kv.2) l :=
              match l with
              | [] => @List.Forall_nil _ (fun kv => P kv.2)
              | kv :: r => @List.Forall_cons _ (fun kv => P kv.2) kv r (IH kv.2) (go r)
              end) props).
Qed.

Lemma alloc_VArr (items : list value) (h : heap) :
  alloc (VArr items) h
  = ((alloc_items items h).1 ++ [CArr (alloc_items items h).2],
     HRef (length (alloc_items items h).1)).
Proof.
  cbn [alloc].
  change ((fix go (items : list value) (h : heap) : heap * list hval :=
             match items with
             | [] => (h, [])
             | x :: r =>
                 let '(h1, v) := alloc x h in
                 let '(h2, vs) := go r h1 in (h2, v :: vs)
             end) items h) with (alloc_items items h).
  by destruct (alloc_items items h).
Qed.

Lemma alloc_VObj (props : list (jstring * value)) (h : heap) :
  alloc (VObj props) h
  = ((alloc_props props h).1 ++ [CObj (alloc_props props h).2],
     HRef (length (alloc_props props h).1)).
Proof.
  cbn [alloc].
  change ((fix go (props : list (jstring * value)) (h : heap)
             : heap * list (jstring * hval) :=
             match props with
             | [] => (h, [])
             | (k, x) :: r =>
                 let '(h1, v) := alloc x h in
                 let '(h2, ps) := go r h1 in (h2, (k, v) :: ps)
             end) props h) with (alloc_props props h).
  by destruct (alloc_props props h).
Qed.

Lemma added_above_trans (b : nat) (h1 h2 h3 : heap) (r1 r2 : list loc) :
  added_above b h1 h2 r1 -> added_above b h2 h3 r2 ->
  added_above b h1 h3 (r1 ++ r2).
Proof.
  intros (e1 & -> & H1 & R1) (e2 & -> & H2 & R2).
  exists (e1 ++ e2). rewrite app_assoc. split; [done|]. split.
  - apply Forall_app; auto.
  - apply Forall_app. split; [|done].
    eapply Forall_impl; [exact R1|]. intros r. cbn. rewrite !length_app. lia.
Qed.

Lemma alloc_added (t : value) :
  forall b h, (b <= length h)%nat ->
    added_above b h (alloc t h).1 (hval_refs (alloc t h).2).
Proof.
  induction t as [|b0|x0|s0|items IH|props IH] using value_nested_ind;
    intros b h Hb;
    try (exists []; rewrite app_nil_r; repeat split; by constructor).
  - assert (Hitems : forall h, (b <= length h)%nat ->
              added_above b h (alloc_items items h).1
                (flat_map hval_refs (alloc_items items h).2)).
    { clear h Hb. induction IH as [|x r Hx _ IHr]; intros h Hb.
      - exists []. rewrite app_nil_r. repeat split; by constructor.
      - cbn [alloc_items]. specialize (Hx b h Hb).
        destruct (alloc x h) as [h1 v]. cbn [fst snd] in Hx.
        assert (Hb1 : (b <= length h1)%nat).
        { destruct Hx as (e & -> & _). rewrite length_app. lia. }
        specialize (IHr h1 Hb1). destruct (alloc_items r h1) as [h2 vs].
        cbn [fst snd flat_map] in *. eapply added_above_trans; eauto. }
    rewrite alloc_VArr. cbn [fst snd hval_refs].
    destruct (Hitems h Hb) as (e & E & He & Hr).
    exists (e ++ [CArr (alloc_items items h).2]).
    rewrite E at 1. rewrite <- app_assoc. split; [done|]. split.
    + apply Forall_app. split; [done|]. constructor; [|done]. cbn.
      eapply Forall_impl; [exact Hr|]. cbn. lia.
    + constructor; [|done]. rewrite length_app. cbn. rewrite E, length_app. lia.
  - assert (Hprops : forall h, (b <= length h)%nat ->
              added_above b h (alloc_props props h).1
                (flat_map (fun kv => hval_refs kv.2) (alloc_props props h).2)).
    { clear h Hb. induction IH as [|[k x] r Hx _ IHr]; intros h Hb.
      - exists []. rewrite app_nil_r. repeat split; by constructor.
      - cbn [alloc_props]. cbn [snd] in Hx. specialize (Hx b h Hb).
        destruct (alloc x h) as [h1 v]. cbn [fst snd] in Hx.
        assert (Hb1 : (b <= length h1)%nat).
        { destruct Hx as (e & -> & _). rewrite length_app. lia. }
        specialize (IHr h1 Hb1). destruct (alloc_props r h1) as [h2 vs].
        cbn [fst snd flat_map] in *. eapply added_above_trans; eauto. }
    rewrite alloc_VObj. cbn [fst snd hval_refs].
    destruct (Hprops h Hb) as (e & E & He & Hr).
    exists (e ++ [CObj (alloc_props props h).2]).
    rewrite E at 1. rewrite <- app_assoc. split; [done|]. split.
    + apply Forall_app. split; [done|]. constructor; [|done]. cbn.
      eapply Forall_impl; [exact Hr|]. cbn. lia.
    + constructor; [|done]. rewrite length_app. cbn. rewrite E, length_app. lia.
Qed.

Lemma preserved_refl (h : heap) : preserved h h.
Proof. by intros l c. Qed.

Lemma preserved_trans (h1 h2 h3 : heap) :
  preserved h1 h2 -> preserved h2 h3 -> preserved h1 h3.
Proof. intros H1 H2 l c Hl. auto. Qed.


Lemma preserved_length (h h' : heap) : preserved h h' -> (length h <= length h')%nat.
Proof.
  intros H. destruct (decide (length h = 0)%nat) as [->|Hn]; [lia|].
  destruct (lookup_lt_is_Some_2 h (pred (length h))) as [c Hc]; [lia|].
  apply H, lookup_lt_Some in Hc. lia.
Qed.

Lemma preserved_below (h h' : heap) :
  (forall l, (l < length h)%nat -> h' !! l = h !! l) -> preserved h h'.
Proof. intros H l c Hl. rewrite H; [done|]. by eapply lookup_lt_Some. Qed.

Lemma added_above_closed (h h' : heap) (refs : list loc) :
  added_above (length h) h h' refs -> closed_above (length h) h'.
Proof.
  intros (ext & -> & He & _) l c Hl Hc.
  rewrite lookup_app_r in Hc by done.
  eapply Forall_lookup_1 in He; eauto.
Qed.



(** Reading the store: more fuel and more objects never change an
    answer. *)
Lemma snapshot_props_mono (rec rec' : hval -> option (option value))
    (props : list (jstring * hval)) (ps : list (jstring * value)) :
  (forall v o, rec v = Some o -> rec' v = Some o) ->
  snapshot_props rec props = Some ps -> snapshot_props rec' props = Some ps.
Proof.
  intros Hrec. revert ps. induction props as [|[k v] r IH]; intros ps; cbn; [done|].
  destruct (rec v) as [o|] eqn:E; [|done]. rewrite (Hrec _ _ E).
  destruct o as [t|]; [|by apply IH].
  destruct (snapshot_props rec r) as [ts|]; [|done].
  by rewrite (IH ts eq_refl).
Qed.

Lemma snapshot_items_mono (rec rec' : hval -> option (option value))
    (items : list hval) (ts : list value) :
  (forall v o, rec v = Some o -> rec' v = Some o) ->
  snapshot_items rec items = Some ts -> snapshot_items rec' items = Some ts.
Proof.
  intros Hrec. revert ts. induction items as [|v r IH]; intros ts; cbn; [done|].
  destruct (rec v) as [o|] eqn:E; [|done]. rewrite (Hrec _ _ E).
  destruct (snapshot_items rec r) as [ts'|]; [|done].
  by rewrite (IH ts' eq_refl).
Qed.

Lemma snapshot_mono (fuel fuel' : nat) (h h' : heap) (v : hval)
    (o : option value) :
  (fuel <= fuel')%nat -> preserved h h' ->
  snapshot fuel h v = Some o -> snapshot fuel' h' v = Some o.
Proof.
  intros Hf Hp. revert fuel' Hf v o.
  induction fuel as [|f IH]; intros fuel' Hf v o.
  - destruct v; cbn; try done; by destruct fuel'.
  - destruct fuel' as [|f']; [lia|].
    destruct v as [| | | | |l]; cbn; try done.
    destruct (h !! l) as [c|] eqn:El; [|done]. rewrite (Hp _ _ El).
    assert (Hrec : forall v o, snapshot f h v = Some o -> snapshot f' h' v = Some o).
    { intros v' o'. apply IH. lia. }
    destruct c as [props|items].
    + destruct (snapshot_props (snapshot f h) props) as [ps|] eqn:E; [|done].
      by rewrite (snapshot_props_mono _ _ _ _ Hrec E).
    + destruct (snapshot_items (snapshot f h) items) as [ts|] eqn:E; [|done].
      by rewrite (snapshot_items_mono _ _ _ _ Hrec E).
Qed.

Lemma snapshot_ref_container (fuel : nat) (h : heap) (l : loc) (t : value) :
  snapshot fuel h (HRef l) = Some (Some t) ->
  (exists items, t = VArr items) \/ (exists props, t = VObj props).
Proof.
  destruct fuel as [|f]; cbn; [done|].
  destruct (h !! l) as [[props|items]|]; [| |done].
  - destruct (snapshot_props _ _); [|done]. intros [= <-]. eauto.
  - destruct (snapshot_items _ _); [|done]. intros [= <-]. eauto.
Qed.


(** The clone lives in fresh cells that refer to fresh cells only. *)
Lemma JSON_clone_fresh (h h1 : heap) (x n : loc) :
  JSON_clone h x = Some (h1, n) -> added_above (length h) h h1 [n].
Proof.
  unfold JSON_clone.
  destruct (snapshot (JSON_fuel h) h (HRef x)) as [[t|]|]; [|done|done].
  pose proof (alloc_added t (length h) h (le_n _)) as Ha.
  destruct (alloc t h) as [h' [| | | | |l]]; try done.
  by intros [= <- <-].
Qed.


Lemma JSON_clone_source (h h1 : heap) (x n : loc) :
  JSON_clone h x = Some (h1, n) -> (x < length h)%nat.
Proof.
  unfold JSON_clone, JSON_fuel. cbn.
  destruct (h !! x) as [c|] eqn:E; [|done]. intros _. by eapply lookup_lt_Some.
Qed.

(** ** A clone reads as its original *)








(** ** The patch engine *)

Lemma closed_above_length (h : heap) : closed_above (length h) h.
Proof. intros l c Hl Hc. apply lookup_lt_Some in Hc. lia. Qed.

Section PatchEngineFacts.

Variable applySpecStreamPatch : heap -> loc -> value -> heap * bool.
Hypothesis library_keeps_to_target : keeps_to_target applySpecStreamPatch.

Lemma applySpecPatch_frame (h : heap) (spec : loc) (patch : value) :
  preserved h (applySpecPatch applySpecStreamPatch h spec patch).1
  /\ closed_above (length h) (applySpecPatch applySpecStreamPatch h spec patch).1
  /\ forall n, (applySpecPatch applySpecStreamPatch h spec patch).2 = Some n ->
       (spec < length h <= n)%nat
       /\ (n < length (applySpecPatch applySpecStreamPatch h spec patch).1)%nat.
Proof.
  unfold applySpecPatch.
  destruct (JSON_clone h spec) as [[h1 n]|] eqn:E; cbn [fst snd].
  - pose proof (JSON_clone_source _ _ _ _ E) as Hspec.
    apply JSON_clone_fresh in E.
    pose proof (added_above_closed _ _ _ E) as Hc.
    destruct E as (ext & -> & _ & Hn). rewrite Forall_singleton in Hn.
    destruct (library_keeps_to_target (h ++ ext) n patch (length h))
      as (Hlow & Hcl & Hlen); try done; try lia.
    destruct (applySpecStreamPatch (h ++ ext) n patch) as [h2 ok].
    cbn [fst snd] in *. rewrite length_app in *. split; [|split].
    + apply preserved_below. intros l Hl. rewrite Hlow by done.
      by apply lookup_app_l.
    + done.
    + destruct ok; [|done]. intros n0 [= <-]. lia.
  - split; [|split]; [apply preserved_refl | apply closed_above_length | done].
Qed.


End PatchEngineFacts.

(** ** Identifiers of segments *)

Lemma str_inj (s s' : string) : str s = str s' -> s = s'.
Proof.
  unfold str. intros H. apply (f_equal (map ascii_of_N)) in H.
  rewrite !map_map in H.
  rewrite !(map_ext _ id ascii_N_embedding), !map_id in H.
  apply (f_equal string_of_list_ascii) in H.
  by rewrite !string_of_list_ascii_of_string in H.
Qed.

Lemma to_uint_not_Nil (n : nat) : Nat.to_uint n <> Decimal.Nil.
Proof.
  intros H. pose proof (Unsigned.of_to n) as E. rewrite H in E. cbn in E.
  subst n. discriminate H.
Qed.

Lemma decimal_inj (k k' : nat) : decimal k = decimal k' -> k = k'.
Proof.
  unfold decimal. intros H. apply str_inj in H.
  apply (f_equal NilZero.uint_of_string) in H.
  rewrite !NilZero.usu in H by apply to_uint_not_Nil.
  injection H as H. by apply Unsigned.to_uint_inj.
Qed.

(** Text chunks of different segments carry different [id]s and
    different [segmentId]s. *)
Lemma segment_ids_inj (k k' : nat) (t t' : jstring) :
  (chunk_id (DataUIText k t) = chunk_id (DataUIText k' t') -> k = k')
  /\ (segmentId k = segmentId k' -> k = k').
Proof.
  split.
  - cbn [chunk_id]. intros [= H]. by apply decimal_inj in H.
  - unfold segmentId. intros H. by apply app_inv_head, decimal_inj in H.
Qed.

(** ** The transport: segments *)

Lemma text_from_mono (k k' : nat) (c : OutChunk) :
  (k <= k')%nat -> text_from k' c -> text_from k c.
Proof. destruct c; cbn; lia. Qed.

Lemma advances_refl (st : state) : advances st st.
Proof. split; [done|]. exists []. by rewrite app_nil_r. Qed.

Lemma advances_trans (st1 st2 st3 : state) :
  advances st1 st2 -> advances st2 st3 -> advances st1 st3.
Proof.
  intros (H1 & n1 & E1 & F1) (H2 & n2 & E2 & F2). split; [lia|].
  exists (n1 ++ n2). rewrite E2, E1, app_assoc. split; [done|].
  apply Forall_app. split; [done|].
  eapply Forall_impl; [exact F2|]. intros c. by apply text_from_mono.
Qed.

Lemma advances_enqueue (st : state) (c : OutChunk) :
  text_from (segmentIndex st) c -> advances st (enqueue st c).
Proof. intros H. split; [done|]. exists [c]. split; [done|]. by constructor. Qed.

Lemma advances_emitUIText (st : state) (text : jstring) :
  advances st (emitUIText st text).
Proof.
  split; [done|]. eexists [_]. split; [done|]. constructor; [|done]. cbn. lia.
Qed.

Lemma advances_splitTextSegment (st : state) :
  advances st (splitTextSegment st).
Proof.
  unfold splitTextSegment. destruct (currentSegmentText st); [apply advances_refl|].
  split; [cbn; lia|]. exists []. by rewrite app_nil_r.
Qed.

Lemma advances_set_specBuffer (st : state) (b : jstring) :
  advances st (set_specBuffer st b).
Proof. split; [done|]. exists []. by rewrite app_nil_r. Qed.

Lemma has_segment_snoc_text (q : list OutChunk) (i k : nat) (t : jstring) :
  has_segment (q ++ [DataUIText i t]) k <-> has_segment q k \/ k = i.
Proof.
  unfold has_segment. split.
  - intros [t' H]. apply elem_of_app in H as [H|H]; [eauto|].
    apply list_elem_of_singleton in H. injection H as -> ->. by right.
  - intros [[t' H]| ->].
    + exists t'. apply elem_of_app. by left.
    + exists t. apply elem_of_app. right. by apply list_elem_of_singleton.
Qed.

Lemma has_segment_snoc_other (q : list OutChunk) (c : OutChunk) (k : nat) :
  ~ is_text c -> has_segment (q ++ [c]) k <-> has_segment q k.
Proof.
  intros Hc. unfold has_segment. split.
  - intros [t H]. apply elem_of_app in H as [H|H]; [eauto|].
    apply list_elem_of_singleton in H. subst c. by destruct Hc.
  - intros [t H]. exists t. apply elem_of_app. by left.
Qed.

Lemma segments_ok_emitUIText (st : state) (text : jstring) :
  text <> [] -> segments_ok st -> segments_ok (emitUIText st text).
Proof.
  intros Ht [Hseg _]. split.
  - intros k. cbn [queue emitUIText]. rewrite has_segment_snoc_text, Hseg.
    unfold open_segments. cbn [currentSegmentText segmentIndex emitUIText].
    destruct (currentSegmentText st); cbn.
    + destruct text; [done|]. lia.
    + lia.
  - intros _. exists (queue st), []. by split.
Qed.

Lemma segments_ok_splitTextSegment (st : state) :
  segments_ok st -> segments_ok (splitTextSegment st).
Proof.
  unfold splitTextSegment. destruct (currentSegmentText st) eqn:E; [done|].
  intros [Hseg _]. split; [|done].
  intros k. cbn [queue]. rewrite Hseg. unfold open_segments. by rewrite E.
Qed.

Lemma segments_ok_enqueue (st : state) (c : OutChunk) :
  ~ is_text c -> segments_ok st -> segments_ok (enqueue st c).
Proof.
  intros Hc [Hseg Hlast]. split.
  - intros k. cbn [queue enqueue]. by rewrite has_segment_snoc_other, Hseg.
  - cbn [currentSegmentText segmentIndex queue enqueue]. intros Ht.
    destruct (Hlast Ht) as (q1 & q2 & -> & Hq2).
    exists q1, (q2 ++ [c]). rewrite <- app_assoc. split; [done|].
    apply Forall_app. split; [done|]. by constructor.
Qed.

Lemma segments_ok_set_specBuffer (st : state) (b : jstring) :
  segments_ok st -> segments_ok (set_specBuffer st b).
Proof. done. Qed.

Lemma segments_ok_set_currentSpec (st : state) (h : heap) (spec : loc) :
  segments_ok st -> segments_ok (set_currentSpec st h spec).
Proof. done. Qed.

Lemma advances_set_currentSpec (st : state) (h : heap) (spec : loc) :
  advances st (set_currentSpec st h spec).
Proof. split; [done|]. exists []. by rewrite app_nil_r. Qed.

Section TransportFacts.

Variable JSON_parse : jstring -> option value.
Variable ToString : option value -> option jstring.
Variable applySpecStreamPatch : heap -> loc -> value -> heap * bool.

(** What a patch item does to the variables of the closure. *)
Lemma applyPatchItem_fields (st : state) (data : value) :
  let st' := (applyPatchItem applySpecStreamPatch st data).1 in
  specBuffer st' = specBuffer st
  /\ segmentIndex st' = segmentIndex (splitTextSegment st)
  /\ currentSegmentText st' = []
  /\ (queue st' = queue st \/ exists n, queue st' = queue st ++ [DataUI n]).
Proof.
  unfold applyPatchItem.
  destruct (applySpecPatch _ _ _ _) as [h' [n|]]; cbn;
    unfold splitTextSegment; destruct (currentSegmentText st) eqn:E;
    cbn; rewrite ?E; eauto 10.
Qed.

Lemma advances_applyPatchItem (st : state) (data : value) :
  advances st (applyPatchItem applySpecStreamPatch st data).1.
Proof.
  destruct (applyPatchItem_fields st data) as (_ & Hi & _ & Hq).
  split.
  - rewrite Hi. apply advances_splitTextSegment.
  - destruct Hq as [->|[n ->]].
    + exists []. by rewrite app_nil_r.
    + eexists [_]. split; [done|]. by constructor.
Qed.

Lemma segments_ok_applyPatchItem (st : state) (data : value) :
  segments_ok st -> segments_ok (applyPatchItem applySpecStreamPatch st data).1.
Proof.
  intros H. apply segments_ok_splitTextSegment in H. revert H.
  unfold applyPatchItem.
  destruct (applySpecPatch _ _ _ _) as [h' [n|]]; cbn [fst]; [|done].
  intros H. apply segments_ok_enqueue; [|done]. by intros [].
Qed.

Lemma advances_processItems (parsed : list ParsedLine) (st : state) :
  advances st (processItems applySpecStreamPatch st parsed).1.
Proof.
  revert st. induction parsed as [|[data|content] r IH]; intros st; cbn.
  - apply advances_refl.
  - pose proof (advances_applyPatchItem st data) as H.
    destruct (applyPatchItem applySpecStreamPatch st data) as [st' [|]]; [|done].
    eapply advances_trans; [exact H|apply IH].
  - eapply advances_trans; [apply advances_emitUIText|apply IH].
Qed.

Lemma segments_ok_processItems (parsed : list ParsedLine) (st : state) :
  segments_ok st -> segments_ok (processItems applySpecStreamPatch st parsed).1.
Proof.
  revert st. induction parsed as [|[data|content] r IH]; intros st Hst; cbn.
  - done.
  - pose proof (segments_ok_applyPatchItem st data Hst) as H.
    destruct (applyPatchItem applySpecStreamPatch st data) as [st' [|]]; [|done].
    by apply IH.
  - apply IH, segments_ok_emitUIText; [|done]. by destruct content.
Qed.

Lemma flush_Text_nonempty (buffer buffer' content : jstring) :
  flush JSON_parse buffer = (Some (Text content), buffer') ->
  content = buffer /\ buffer <> [] /\ buffer' = [].
Proof.
  unfold flush. destruct (trim buffer) as [|c r] eqn:E; [done|].
  intros [= H <-].
  destruct (parseSpecLine_cases _ _ _ H) as [[= ->]|(v & _ & [=] & _)].
  split; [done|]. split; [|done]. by intros ->.
Qed.

Lemma advances_onTextDelta (st : state) (chunk : value) :
  advances st (onTextDelta JSON_parse ToString applySpecStreamPatch st chunk).
Proof.
  unfold onTextDelta. destruct (concat_operand _ _); [|apply advances_refl].
  destruct (processChunk _ _ _) as [parsed b].
  eapply advances_trans;
    [apply (advances_set_specBuffer st b)|apply advances_processItems].
Qed.

Lemma segments_ok_onTextDelta (st : state) (chunk : value) :
  segments_ok st ->
  segments_ok (onTextDelta JSON_parse ToString applySpecStreamPatch st chunk).
Proof.
  intros Hst. unfold onTextDelta. destruct (concat_operand _ _); [|done].
  destruct (processChunk _ _ _) as [parsed b].
  by apply segments_ok_processItems.
Qed.

Lemma advances_onTextEnd (st : state) :
  advances st (onTextEnd JSON_parse applySpecStreamPatch st).
Proof.
  unfold onTextEnd. destruct (flush _ _) as [[[data|content]|] b];
    (eapply advances_trans; [apply (advances_set_specBuffer st b)|]).
  - pose proof (advances_applyPatchItem (set_specBuffer st b) data) as H.
    destruct (applyPatchItem _ _ _) as [st2 [|]]; [|done].
    eapply advances_trans; [exact H|apply advances_splitTextSegment].
  - eapply advances_trans;
      [apply advances_emitUIText|apply advances_splitTextSegment].
  - apply advances_splitTextSegment.
Qed.

Lemma segments_ok_onTextEnd (st : state) :
  segments_ok st ->
  segments_ok (onTextEnd JSON_parse applySpecStreamPatch st).
Proof.
  intros Hst. unfold onTextEnd.
  destruct (flush _ _) as [[[data|content]|] b] eqn:E.
  - pose proof (segments_ok_applyPatchItem (set_specBuffer st b) data Hst) as H.
    destruct (applyPatchItem _ _ _) as [st2 [|]]; [|done].
    by apply segments_ok_splitTextSegment.
  - apply flush_Text_nonempty in E as (-> & Hb & _).
    by apply segments_ok_splitTextSegment, segments_ok_emitUIText.
  - by apply segments_ok_splitTextSegment.
Qed.

Lemma handleChunk_cases (st : state) (chunk : value) :
  let st' := handleChunk JSON_parse ToString applySpecStreamPatch st chunk in
  st' = st
  \/ st' = onTextDelta JSON_parse ToString applySpecStreamPatch st chunk
  \/ st' = onTextEnd JSON_parse applySpecStreamPatch st
  \/ st' = enqueue st (Forwarded chunk).
Proof.
  unfold handleChunk. destruct chunk; auto;
    destruct (type_is _ "text-delta"); auto;
    destruct (type_is _ "text-end"); auto;
    destruct (type_is _ "text-start"); auto.
Qed.

Lemma advances_handleChunk (st : state) (chunk : value) :
  advances st (handleChunk JSON_parse ToString applySpecStreamPatch st chunk).
Proof.
  destruct (handleChunk_cases st chunk) as [->|[->|[->| ->]]].
  - apply advances_refl.
  - apply advances_onTextDelta.
  - apply advances_onTextEnd.
  - by apply advances_enqueue.
Qed.

Lemma segments_ok_handleChunk (st : state) (chunk : value) :
  segments_ok st ->
  segments_ok (handleChunk JSON_parse ToString applySpecStreamPatch st chunk).
Proof.
  intros Hst. destruct (handleChunk_cases st chunk) as [->|[->|[->| ->]]].
  - done.
  - by apply segments_ok_onTextDelta.
  - by apply segments_ok_onTextEnd.
  - apply segments_ok_enqueue; [|done]. by intros [].
Qed.

Lemma advances_processLine (st : state) (line : jstring) :
  advances st (processLine JSON_parse ToString applySpecStreamPatch st line).
Proof.
  unfold processLine. destruct (trim line); [apply advances_refl|].
  destruct (jstring_eqb _ _); [apply advances_refl|].
  destruct (JSON_parse _); [apply advances_handleChunk|apply advances_refl].
Qed.

Lemma segments_ok_processLine (st : state) (line : jstring) :
  segments_ok st ->
  segments_ok (processLine JSON_parse ToString applySpecStreamPatch st line).
Proof.
  intros Hst. unfold processLine. destruct (trim line); [done|].
  destruct (jstring_eqb _ _); [done|].
  destruct (JSON_parse _); [by apply segments_ok_handleChunk|done].
Qed.

Lemma advances_lines (lines : list jstring) (st : state) :
  advances st
    (foldl (processLine JSON_parse ToString applySpecStreamPatch) st lines).
Proof.
  revert st. induction lines as [|l r IH]; intros st; cbn.
  - apply advances_refl.
  - eapply advances_trans; [apply advances_processLine|apply IH].
Qed.

Lemma segments_ok_lines (lines : list jstring) (st : state) :
  segments_ok st ->
  segments_ok
    (foldl (processLine JSON_parse ToString applySpecStreamPatch) st lines).
Proof.
  revert st. induction lines as [|l r IH]; intros st Hst; cbn; [done|].
  by apply IH, segments_ok_processLine.
Qed.

Lemma segments_ok_initialState (h : heap) : segments_ok (initialState h).
Proof.
  split; [|done]. intros k. cbn. unfold has_segment. split; [|lia].
  intros [t H]. by apply elem_of_nil in H.
Qed.

Lemma segments_ok_reads (reads : list jstring) (st : state) (buffer : jstring) :
  segments_ok st ->
  segments_ok
    (foldl (readLoop_step JSON_parse ToString applySpecStreamPatch)
       (st, buffer) reads).1.
Proof.
  revert st buffer. induction reads as [|v r IH]; intros st buffer Hst; [done|].
  cbn [foldl]. unfold readLoop_step at 2.
  destruct (takeLines buffer v) as [lines buffer'].
  by apply IH, segments_ok_lines.
Qed.

Lemma segments_ok_processResponseStream (h : heap) (src : source) :
  segments_ok
    (processResponseStream JSON_parse ToString applySpecStreamPatch h src).1.
Proof.
  unfold processResponseStream.
  pose proof (segments_ok_reads (reads src) (initialState h) []
                (segments_ok_initialState h)) as H.
  destruct (foldl _ _ _) as [st buffer]. cbn [fst] in H.
  destruct (ending src) as [tail|]; [|done].
  destruct (trim (buffer ++ tail)); [done|].
  by apply segments_ok_processLine.
Qed.

(** Chunks of a segment that has been left behind are never added
    to. *)
Lemma advances_sealed (st st' : state) (k : nat) :
  advances st st' -> (k < segmentIndex st)%nat ->
  segment_texts k (queue st') = segment_texts k (queue st).
Proof.
  intros (_ & new & -> & Hnew) Hk. unfold segment_texts.
  rewrite omap_app. rewrite <- (app_nil_r (omap _ (queue st))) at 2. f_equal.
  induction Hnew as [|c r Hc _ IH]; [done|].
  destruct c as [n|i t|v]; cbn in *; try done.
  destruct (decide (i = k)); [lia|done].
Qed.

Lemma type_is_exclusive (chunk : value) (a b : string) :
  str a <> str b -> type_is chunk a = true -> type_is chunk b = false.
Proof.
  unfold type_is, jstring_eqb. intros Hab.
  destruct (field chunk (str "type")) as [[]|]; try done.
  intros Ha. apply bool_decide_eq_true in Ha. subst s.
  by apply bool_decide_eq_false.
Qed.

Lemma handleChunk_text_delta (st : state) (chunk : value) :
  type_is chunk "text-delta" = true ->
  handleChunk JSON_parse ToString applySpecStreamPatch st chunk
  = onTextDelta JSON_parse ToString applySpecStreamPatch st chunk.
Proof.
  intros H. unfold handleChunk. rewrite H. by destruct chunk.
Qed.

Lemma handleChunk_text_end (st : state) (chunk : value) :
  type_is chunk "text-end" = true ->
  handleChunk JSON_parse ToString applySpecStreamPatch st chunk
  = onTextEnd JSON_parse applySpecStreamPatch st.
Proof.
  intros H. unfold handleChunk.
  rewrite (type_is_exclusive chunk "text-end" "text-delta"), H by done.
  by destruct chunk.
Qed.

Lemma onTextDelta_string (st : state) (chunk : value) (delta : jstring) :
  field chunk (str "delta") = Some (VStr delta) ->
  onTextDelta JSON_parse ToString applySpecStreamPatch st chunk
  = (processItems applySpecStreamPatch
       (set_specBuffer st (processChunk JSON_parse (specBuffer st) delta).2)
       (processChunk JSON_parse (specBuffer st) delta).1).1.
Proof.
  intros H. unfold onTextDelta. rewrite H. cbn [concat_operand].
  by destruct (processChunk _ _ _).
Qed.

Lemma splitTextSegment_index (st : state) :
  segmentIndex (splitTextSegment st)
  = match currentSegmentText st with
    | [] => segmentIndex st
    | _ :: _ => S (segmentIndex st)
    end.
Proof. unfold splitTextSegment. by destruct (currentSegmentText st). Qed.


(** A text line of a delta and the text that a [text-end] flushes. *)
Lemma text_line_appended (st : state) (content : jstring)
    (rest : list ParsedLine) :
  processItems applySpecStreamPatch st (Text content :: rest)
  = processItems applySpecStreamPatch (emitUIText st (content ++ [nl])) rest
  /\ segmentIndex (emitUIText st (content ++ [nl])) = segmentIndex st
  /\ currentSegmentText (emitUIText st (content ++ [nl]))
     = currentSegmentText st ++ content ++ [nl]
  /\ queue (emitUIText st (content ++ [nl]))
     = queue st ++ [DataUIText (segmentIndex st)
                      (currentSegmentText st ++ content ++ [nl])].
Proof. done. Qed.

Lemma segment_opened (st : state) :
  segments_ok st -> currentSegmentText st = [] ->
  ~ has_segment (queue st) (segmentIndex st).
Proof.
  intros [Hseg _] Ht. rewrite Hseg. unfold open_segments. rewrite Ht. lia.
Qed.

Lemma text_end_flushes_text (st : state) (content buffer' : jstring)
    (lines : list jstring) :
  flush JSON_parse (specBuffer st) = (Some (Text content), buffer') ->
  let st' := onTextEnd JSON_parse applySpecStreamPatch st in
  content = specBuffer st
  /\ queue st' = queue st ++ [DataUIText (segmentIndex st)
                               (currentSegmentText st ++ content)]
  /\ segmentIndex st' = S (segmentIndex st)
  /\ currentSegmentText st' = []
  /\ specBuffer st' = []
  /\ segment_texts (segmentIndex st)
       (queue (foldl (processLine JSON_parse ToString applySpecStreamPatch)
                 st' lines))
     = segment_texts (segmentIndex st) (queue st').
Proof.
  intros E st'. pose proof (flush_Text_nonempty _ _ _ E) as (Hc & Hb & ->).
  assert (Hst' : st' = splitTextSegment
                         (emitUIText (set_specBuffer st []) content)).
  { subst st'. unfold onTextEnd. by rewrite E. }
  assert (Hne : currentSegmentText st ++ content <> []).
  { rewrite Hc. intros H. by apply app_eq_nil in H as [_ ?]. }
  assert (Hfields : queue st' = queue st ++ [DataUIText (segmentIndex st)
                                 (currentSegmentText st ++ content)]
            /\ segmentIndex st' = S (segmentIndex st)
            /\ currentSegmentText st' = [] /\ specBuffer st' = []).
  { rewrite Hst'. unfold splitTextSegment. cbn.
    by destruct (currentSegmentText st ++ content). }
  destruct Hfields as (Hq & Hi & Ht & Hsb). repeat split; try done.
  apply advances_sealed; [apply advances_lines|lia].
Qed.

End TransportFacts.

(** ** The Document builder *)

Lemma directElementPath_key (path m : jstring) :
  directElementPath path = Some m ->
  m = path /\ slice_from 10 m <> []
  /\ startsWith path (str "/elements/") = true
  /\ slash ∉ slice_from 10 m.
Proof.
  unfold directElementPath.
  destruct (startsWith path (str "/elements/")) eqn:E1; [|done].
  destruct (jstring_eqb (slice_from 10 path) []) eqn:E2; [done|].
  destruct (forallb _ _) eqn:E3; [|done]. cbn. intros [= <-].
  apply bool_decide_eq_false in E2. repeat split; try done.
  rewrite forallb_forall in E3. intros Hin.
  apply list_elem_of_In, E3 in Hin. by rewrite N.eqb_refl in Hin.
Qed.

Lemma directElementKey_nonempty (p : SpecPatch) (k : jstring) :
  directElementKey p = Some k -> k <> [].
Proof.
  unfold directElementKey.
  destruct (op p); try done;
    destruct (directElementPath (path p)) as [m|] eqn:E; try done;
    intros [= <-]; by apply directElementPath_key in E as (_ & ? & _).
Qed.

Lemma jstring_eqb_refl (k : jstring) : jstring_eqb k k = true.
Proof. by apply bool_decide_eq_true_2. Qed.

Lemma own_prop_assign {A} (k : jstring) (v : A) (props : list (jstring * A)) :
  own_prop k (assign k v props) = Some v.
Proof.
  induction props as [|[k' v'] r IH]; cbn.
  - by rewrite jstring_eqb_refl.
  - destruct (jstring_eqb k k') eqn:E; cbn.
    + by rewrite jstring_eqb_refl.
    + destruct (array_index k) as [i|], (array_index k') as [j|];
        try destruct (i <? j); cbn; rewrite ?jstring_eqb_refl, ?E; done.
Qed.

Lemma get_prop_set_prop (h : heap) (o : loc) (k : jstring) (v : hval)
    (props : list (jstring * hval)) :
  h !! o = Some (CObj props) -> get_prop (set_prop h o k v) o k = Some v.
Proof.
  intros H. unfold get_prop, set_prop. rewrite H.
  rewrite list_lookup_insert_eq by (by eapply lookup_lt_Some).
  apply own_prop_assign.
Qed.

Section BuilderFacts.

Variable applySpecStreamPatch : heap -> loc -> value -> heap * bool.

Lemma buildSpec_step_thrown (patches : list SpecPatch) (h : heap)
    (key : option jstring) :
  foldl (buildSpec_step applySpecStreamPatch) (h, None, key) patches
  = (h, None, key).
Proof. induction patches as [|p r IH]; [done|]. exact IH. Qed.

Lemma applyAll_thrown (patches : list SpecPatch) (h : heap) :
  applyAll applySpecStreamPatch (h, None) patches = (h, None).
Proof. induction patches as [|p r IH]; [done|]. exact IH. Qed.

(** The loop threads the Document through [applySpecPatch] and notes
    the first id added or replaced directly under [/elements]. *)
Lemma buildSpec_step_fold (patches : list SpecPatch) (h : heap)
    (spec : option loc) (key : option jstring) :
  key <> Some [] ->
  let r := foldl (buildSpec_step applySpecStreamPatch) (h, spec, key) patches in
  (r.1.1, r.1.2) = applyAll applySpecStreamPatch (h, spec) patches
  /\ (is_Some r.1.2 ->
      r.2 = match key with
            | Some k => Some k
            | None => head (omap directElementKey patches)
            end).
Proof.
  revert h spec key. induction patches as [|p r IH]; intros h spec key Hkey.
  - cbn. split; [done|]. by destruct key.
  - destruct spec as [spec|].
    + cbn [foldl applyAll]. cbn [buildSpec_step].
      destruct (applySpecPatch _ h spec _) as [h' s'] eqn:E.
      set (key' := match directElementPath (path p) with
                   | Some m =>
                       match op p with
                       | OpAdd | OpReplace =>
                           if key_falsy key then Some (slice_from 10 m) else key
                       | _ => key
                       end
                   | None => key
                   end).
      assert (Hk' : key' = match key with
                           | Some k => Some k
                           | None => directElementKey p
                           end /\ key' <> Some []).
      { subst key'. unfold directElementKey.
        destruct (directElementPath (path p)) as [m|] eqn:Em.
        - apply directElementPath_key in Em as (_ & Hm & _).
          destruct key as [[|c k]|]; try done;
            destruct (op p); cbn; split; try done; congruence.
        - destruct key; by destruct (op p). }
      destruct Hk' as [Hk1 Hk2].
      destruct (IH h' s' key' Hk2) as [IH1 IH2]. split; [exact IH1|].
      intros Hs. rewrite (IH2 Hs), Hk1. destruct key as [k|]; [done|].
      cbn. by destruct (directElementKey p).
    + cbn [foldl applyAll]. cbn [buildSpec_step].
      rewrite buildSpec_step_thrown. cbn [fst snd].
      pose proof (applyAll_thrown r h) as Hthrown. unfold applyAll in Hthrown.
      rewrite Hthrown. split; [done|]. by intros [? [=]].
Qed.

Lemma buildSpec_result (h : heap) (patches : list SpecPatch) (h' : heap)
    (spec : loc) :
  buildSpec applySpecStreamPatch h patches = (h', Some spec) ->
  exists hl,
    applyAll applySpecStreamPatch ((newSpec h).1, Some (newSpec h).2) patches
      = (hl, Some spec)
    /\ (if hval_truthy (get_prop hl spec (str "root")) then h' = hl
        else match head (omap directElementKey patches) with
             | Some k =>
                 k <> [] /\ h' = set_prop hl spec (str "root") (HStr k)
                 /\ forall props, hl !! spec = Some (CObj props) ->
                      get_prop h' spec (str "root") = Some (HStr k)
             | None => h' = hl
             end).
Proof.
  unfold buildSpec, buildSpec_loop. cbn [newSpec].
  set (start := h ++ _).
  destruct (buildSpec_step_fold patches start (Some (S (length h))) None)
    as [Hfold Hkey]; [done|].
  destruct (foldl _ _ _) as [[hl [s|]] key]; cbn [fst snd] in *; [|done].
  specialize (Hkey (mk_is_Some _ _ eq_refl)). subst key.
  intros Hres. exists hl.
  assert (Hs : s = spec) by (destruct (_ && _) in Hres; congruence).
  subst s. split; [done|].
  destruct (hval_truthy (get_prop hl spec (str "root"))) eqn:Er;
    cbn [negb andb] in Hres; [congruence|].
  destruct (head (omap directElementKey patches)) as [k|] eqn:Ek.
  - assert (Hk : k <> []).
    { apply head_Some in Ek as [l' El'].
      assert (Hin : k ∈ omap directElementKey patches)
        by (rewrite El'; left).
      apply list_elem_of_omap in Hin as (p & _ & Hp).
      by apply directElementKey_nonempty in Hp. }
    destruct k as [|c k]; [done|].
    cbn [key_falsy negb or_empty default] in Hres.
    injection Hres as <-. repeat split; try done.
    intros props Hprops. by eapply get_prop_set_prop.
  - cbn in Hres. congruence.
Qed.

Lemma buildSpec_empty (h : heap) :
  buildSpec applySpecStreamPatch h [] = ((newSpec h).1, Some (newSpec h).2)
  /\ snapshot (JSON_fuel (newSpec h).1) (newSpec h).1 (HRef (newSpec h).2)
     = Some (Some (VObj [(str "root", VStr []); (str "elements", VObj [])])).
Proof.
  split.
  - unfold buildSpec, buildSpec_loop. cbn [newSpec foldl fst snd].
    unfold get_prop. rewrite lookup_app_r by lia.
    replace (S (length h) - length h)%nat with 1%nat by lia. done.
  - unfold JSON_fuel. cbn [newSpec fst snd]. rewrite length_app. cbn [length].
    replace (length h + 2)%nat with (S (S (length h))) by lia.
    cbn [snapshot]. rewrite lookup_app_r by lia.
    replace (S (length h) - length h)%nat with 1%nat by lia.
    cbn. rewrite lookup_app_r by lia. rewrite Nat.sub_diag. done.
Qed.

End BuilderFacts.

(** ** The model of the patch library keeps to its target *)

Lemma alloc_props_added (props : list (jstring * value)) :
  forall b h, (b <= length h)%nat ->
    added_above b h (alloc_props props h).1
      (flat_map (fun kv => hval_refs kv.2) (alloc_props props h).2).
Proof.
  induction props as [|[k x] r IH]; intros b h Hb.
  - exists []. rewrite app_nil_r. repeat split; by constructor.
  - cbn [alloc_props]. pose proof (alloc_added x b h Hb) as Hx.
    destruct (alloc x h) as [h1 v]. cbn [fst snd] in Hx.
    assert (Hb1 : (b <= length h1)%nat).
    { destruct Hx as (e & -> & _). rewrite length_app. lia. }
    specialize (IH b h1 Hb1). destruct (alloc_props r h1) as [h2 vs].
    cbn [fst snd flat_map] in *. eapply added_above_trans; eauto.
Qed.

Lemma JsonRender_keeps_to_target :
  keeps_to_target JsonRender.applySpecStreamPatch.
Proof.
  intros h target patch b Hbt Ht Hb Hcl.
  unfold JsonRender.applySpecStreamPatch.
  destruct (snapshot _ h (HRef target)) as [[doc|]|]; [|by auto|by auto].
  destruct (JsonRender.apply_tree doc patch) as [[| | | | |props]|]; try by auto.
  destruct (alloc_props_added props (length h) h (le_n _))
    as (ext & E & Hext & Hrefs).
  destruct (alloc_props props h) as [h' ps]. cbn [fst snd] in *. subst h'.
  split; [|split].
  - intros l Hl. rewrite list_lookup_insert_ne by lia.
    apply lookup_app_l. lia.
  - intros l c Hl Hc. destruct (decide (l = target)) as [->|Hne].
    + rewrite list_lookup_insert_eq in Hc by (rewrite length_app; lia).
      injection Hc as <-. cbn.
      eapply Forall_impl; [exact Hrefs|]. cbn. lia.
    + rewrite list_lookup_insert_ne in Hc by done.
      destruct (decide (l < length h)%nat) as [Hlt|Hge].
      * rewrite lookup_app_l in Hc by done. by eapply Hcl.
      * rewrite lookup_app_r in Hc by lia.
        eapply Forall_lookup_1 in Hext; [|exact Hc].
        eapply Forall_impl; [exact Hext|]. cbn. lia.
  - rewrite length_insert, length_app. lia.
Qed.

(** ** The transport: the store and failing patches *)

Section TransportStore.

Variable JSON_parse : jstring -> option value.
Variable ToString : option value -> option jstring.
Variable applySpecStreamPatch : heap -> loc -> value -> heap * bool.

Lemma processItems_specBuffer (parsed : list ParsedLine) (st : state) :
  specBuffer (processItems applySpecStreamPatch st parsed).1 = specBuffer st.
Proof.
  revert st. induction parsed as [|[data|content] r IH]; intros st; cbn; [done| |].
  - destruct (applyPatchItem_fields applySpecStreamPatch st data) as (Hb & _).
    destruct (applyPatchItem applySpecStreamPatch st data) as [st' [|]];
      cbn [fst] in *; [|done].
    by rewrite IH.
  - by rewrite IH.
Qed.

(** When [applySpecPatch] throws, the loop over the parsed lines ends
    there: the lines after the patch are not looked at, nothing is
    enqueued and nothing is reported; [currentSpec] still refers to the
    Document it referred to. *)
Lemma patch_failure (st : state) (data : value) (rest : list ParsedLine) :
  (applySpecPatch applySpecStreamPatch (store (splitTextSegment st))
     (currentSpec st) data).2 = None ->
  let st' := (processItems applySpecStreamPatch st (Patch data :: rest)).1 in
  (processItems applySpecStreamPatch st (Patch data :: rest)).2 = false
  /\ queue st' = queue st
  /\ currentSpec st' = currentSpec st
  /\ segmentIndex st' = segmentIndex (splitTextSegment st)
  /\ currentSegmentText st' = [].
Proof.
  intros H. cbn [processItems]. unfold applyPatchItem.
  replace (currentSpec (splitTextSegment st)) with (currentSpec st)
    by (unfold splitTextSegment; by destruct (currentSegmentText st)).
  destruct (applySpecPatch _ _ _ _) as [h' [n|]]; [done|]. cbn.
  unfold splitTextSegment.
  destruct (currentSegmentText st) eqn:E; cbn; rewrite ?E; by repeat split.
Qed.

Hypothesis library_keeps_to_target : keeps_to_target applySpecStreamPatch.

Lemma preserved_applyPatchItem (st : state) (data : value) :
  preserved (store st) (store (applyPatchItem applySpecStreamPatch st data).1).
Proof.
  unfold applyPatchItem.
  pose proof (applySpecPatch_frame applySpecStreamPatch library_keeps_to_target
                (store (splitTextSegment st))
                (currentSpec (splitTextSegment st)) data) as (Hp & _).
  replace (store (splitTextSegment st)) with (store st) in Hp
    by (unfold splitTextSegment; by destruct (currentSegmentText st)).
  replace (store (splitTextSegment st)) with (store st)
    by (unfold splitTextSegment; by destruct (currentSegmentText st)).
  by destruct (applySpecPatch _ _ _ _) as [h' [n|]].
Qed.

Lemma preserved_processItems (parsed : list ParsedLine) (st : state) :
  preserved (store st) (store (processItems applySpecStreamPatch st parsed).1).
Proof.
  revert st. induction parsed as [|[data|content] r IH]; intros st; cbn.
  - apply preserved_refl.
  - pose proof (preserved_applyPatchItem st data) as H.
    destruct (applyPatchItem applySpecStreamPatch st data) as [st' [|]]; [|done].
    eapply preserved_trans; [exact H|apply IH].
  - apply (IH (emitUIText st (content ++ [nl]))).
Qed.

Lemma preserved_splitTextSegment (st : state) :
  store (splitTextSegment st) = store st.
Proof. unfold splitTextSegment. by destruct (currentSegmentText st). Qed.

Lemma preserved_handleChunk (st : state) (chunk : value) :
  preserved (store st)
    (store (handleChunk JSON_parse ToString applySpecStreamPatch st chunk)).
Proof.
  destruct (handleChunk_cases JSON_parse ToString applySpecStreamPatch st chunk)
    as [->|[->|[->| ->]]]; try apply preserved_refl.
  - unfold onTextDelta. destruct (concat_operand _ _); [|apply preserved_refl].
    destruct (processChunk _ _ _) as [parsed b].
    apply (preserved_processItems parsed (set_specBuffer st b)).
  - unfold onTextEnd. destruct (flush _ _) as [[[data|content]|] b].
    + pose proof (preserved_applyPatchItem (set_specBuffer st b) data) as H.
      destruct (applyPatchItem _ _ _) as [st2 [|]]; [|done].
      by rewrite preserved_splitTextSegment.
    + rewrite preserved_splitTextSegment. apply preserved_refl.
    + rewrite preserved_splitTextSegment. apply preserved_refl.
Qed.

Lemma preserved_processLine (st : state) (line : jstring) :
  preserved (store st)
    (store (processLine JSON_parse ToString applySpecStreamPatch st line)).
Proof.
  unfold processLine. destruct (trim line); [apply preserved_refl|].
  destruct (jstring_eqb _ _); [apply preserved_refl|].
  destruct (JSON_parse _); [apply preserved_handleChunk|apply preserved_refl].
Qed.

Lemma preserved_lines (lines : list jstring) (st : state) :
  preserved (store st)
    (store (foldl (processLine JSON_parse ToString applySpecStreamPatch)
              st lines)).
Proof.
  revert st. induction lines as [|l r IH]; intros st; cbn.
  - apply preserved_refl.
  - eapply preserved_trans; [apply preserved_processLine|apply IH].
Qed.

(** What the consumer has seen of a chunk stays what it sees of it:
    no line processed later changes a Document that was enqueued. *)
Lemma seen_for_good (lines : list jstring) (st : state) (c : OutChunk)
    (document : option value) :
  see (store st) c = SeenUI (Some document) ->
  see (store (foldl (processLine JSON_parse ToString applySpecStreamPatch)
                st lines)) c
  = SeenUI (Some document).
Proof.
  destruct c as [l|k t|v]; [|done|done]. unfold see. intros [= H]. f_equal.
  change (snapshot (JSON_fuel (store st)) (store st) (HRef l) = Some document)
    in H.
  pose proof (preserved_lines lines st) as Hp.
  eapply snapshot_mono; [|exact Hp|exact H].
  unfold JSON_fuel. apply preserved_length in Hp. lia.
Qed.

End TransportStore.

(** ** The claims about the transport *)



(** C10. Over a whole run the segment indices of the text chunks enqueued
    are exactly the numbers below a bound, without a gap: the segments up
    to the counter, and the segment at the counter when it has text. The
    counter moves only when the segment that is closed has text, so two
    patch lines in a row use up no index. *)
Theorem segment_indices_dense
    (JSON_parse : jstring -> option value)
    (ToString : option value -> option jstring)
    (applySpecStreamPatch : heap -> loc -> value -> heap * bool)
    (h : heap) (src : source) :
  let st := (processResponseStream JSON_parse ToString applySpecStreamPatch
               h src).1 in
  (forall k, (exists t, DataUIText k t ∈ queue st)
             <-> (k < open_segments st)%nat)
  /\ open_segments st
     = match currentSegmentText st with
       | [] => segmentIndex st
       | _ :: _ => S (segmentIndex st)
       end
  /\ (forall st0 : state,
        segmentIndex (splitTextSegment st0)
        = match currentSegmentText st0 with
          | [] => segmentIndex st0
          | _ :: _ => S (segmentIndex st0)
          end)
  /\ (forall (st0 : state) (d d' : value),
        let st1 := (applyPatchItem applySpecStreamPatch st0 d).1 in
        segmentIndex (applyPatchItem applySpecStreamPatch st1 d').1
        = segmentIndex st1).
Proof.
  intros st. split; [|split; [|split]].
  - apply (segments_ok_processResponseStream JSON_parse ToString
             applySpecStreamPatch h src).
  - done.
  - apply splitTextSegment_index.
  - intros st0 d d' st1.
    destruct (applyPatchItem_fields applySpecStreamPatch st0 d) as (_ & _ & Ht & _).
    destruct (applyPatchItem_fields applySpecStreamPatch st1 d') as (_ & Hi & _).
    fold st1 in Ht. rewrite Hi, splitTextSegment_index. by rewrite Ht.
Qed.

(** ** The claims about the buffer and the classifier: instances *)

Lemma classifier_cases_witness :
  trim (str "  text  ") <> []
  /\ Json.parse (trim (str "  text  ")) = None
  /\ parseSpecLine Json.parse (str "  text  ") = Some (Text (str "  text  ")).
Proof.
  split; [by vm_compute|]. split; [by vm_compute|].
  exact (proj1 (proj2 (classifier_cases Json.parse (str "  text  ")))
           ltac:(by vm_compute) ltac:(by vm_compute)).
Defined.

(** ** The claims about the patch engine *)


(** ** Where the transport departs from the specification *)

(** C1. The read loop ends without flushing the line buffer. A stream
    that ends after a delta whose text has no terminator, and without a
    [text-end], is closed with nothing enqueued for that text: it is
    still in the buffer. The text may be plain, a complete patch or the
    beginning of one. With a [text-end] before the end the same text is
    announced, and the same patch applied. *)
Theorem end_of_stream_drops_buffered_text :
  (let body := [text_delta (str "t") (str "hello")] in
   (run body).2 = Closed
   /\ queue (run body).1 = []
   /\ specBuffer (run body).1 = str "hello"
   /\ seen (body ++ [text_end (str "t")]) = [SeenText 0 (str "hello")])
  /\ (let body := [text_delta (str "t") (js "{'op':'add','pa")] in
      (run body).2 = Closed
      /\ queue (run body).1 = []
      /\ seen (body ++ [text_end (str "t")])
         = [SeenText 0 (js "{'op':'add','pa")])
  /\ (let body := [text_delta (str "t") (js set_root)] in
      (run body).2 = Closed
      /\ queue (run body).1 = []
      /\ seen (body ++ [text_end (str "t")])
         = [SeenUI (Some (Some (VObj [(str "root", VStr (str "card1"));
                                      (str "elements", VObj [])])))]).
Proof. by vm_compute. Qed.

(** C2, as the specification words it, fails: the lines the transport
    cuts for two interleaved identifiers are not the lines their own
    buffers would give. The fragment [Hel] of [a] and the fragment [lo]
    of [b] come out as the one line [Hello]. *)
Lemma keyed_buffers_counterexample :
  let events := [(str "a", str "Hel"); (str "b", line "lo")] in
  (pushedLines [] (map snd events)).1 <> keyedLines (fun _ => []) events
  /\ seen (map (fun e => text_delta e.1 e.2) events) = [SeenText 0 (line "Hello")].
Proof. split; by vm_compute. Qed.

(** C2, amended. The transport has one line buffer for the whole stream
    and never reads the identifier of a text event: two [text-delta]
    chunks with the same delta are handled alike whatever else they
    carry, so are two [text-end] chunks, and the fragment of a
    [text-delta] is pushed into that one buffer. *)
Theorem one_buffer_for_all_identifiers
    (JSON_parse : jstring -> option value)
    (ToString : option value -> option jstring)
    (applySpecStreamPatch : heap -> loc -> value -> heap * bool)
    (st : state) (chunk chunk' : value) :
  (type_is chunk "text-delta" = true -> type_is chunk' "text-delta" = true ->
   field chunk (str "delta") = field chunk' (str "delta") ->
   handleChunk JSON_parse ToString applySpecStreamPatch st chunk
   = handleChunk JSON_parse ToString applySpecStreamPatch st chunk')
  /\ (type_is chunk "text-end" = true -> type_is chunk' "text-end" = true ->
      handleChunk JSON_parse ToString applySpecStreamPatch st chunk
      = handleChunk JSON_parse ToString applySpecStreamPatch st chunk')
  /\ (forall delta,
        type_is chunk "text-delta" = true ->
        field chunk (str "delta") = Some (VStr delta) ->
        specBuffer (handleChunk JSON_parse ToString applySpecStreamPatch st chunk)
        = (takeLines (specBuffer st) delta).2).
Proof.
  split; [|split].
  - intros H1 H2 Hd. rewrite !handleChunk_text_delta by done.
    unfold onTextDelta. by rewrite Hd.
  - intros H1 H2. by rewrite !handleChunk_text_end.
  - intros delta H1 Hd. rewrite handleChunk_text_delta by done.
    rewrite (onTextDelta_string _ _ _ _ _ _ Hd), processItems_specBuffer.
    unfold processChunk. by destruct (takeLines (specBuffer st) delta).
Qed.

Lemma one_buffer_for_all_identifiers_witness :
  let a := parsed "{'type':'text-delta','id':'a','delta':'lo'}" in
  let b := parsed "{'type':'text-delta','id':'b','delta':'lo'}" in
  let st := set_specBuffer (initialState []) (str "Hel") in
  type_is a "text-delta" = true
  /\ type_is b "text-delta" = true
  /\ field a (str "delta") = field b (str "delta")
  /\ handleChunk Json.parse Ecma.ToString JsonRender.applySpecStreamPatch st a
     = handleChunk Json.parse Ecma.ToString JsonRender.applySpecStreamPatch st b.
Proof.
  intros a b st. split; [by vm_compute|]. split; [by vm_compute|].
  split; [by vm_compute|].
  exact (proj1 (one_buffer_for_all_identifiers Json.parse Ecma.ToString
                  JsonRender.applySpecStreamPatch st a b)
           ltac:(by vm_compute) ltac:(by vm_compute) ltac:(by vm_compute)).
Defined.

(** C9. A patch that fails is not reported. The streams below carry a
    patch that cannot be applied (a path without an element id, a path
    that is a number), followed in the same delta by a text line:
    applying the patch throws, the empty [catch] of [processLine] takes
    the exception, and the stream is closed with nothing enqueued, neither
    an error nor the text line. Without the failing line the text is
    announced. The Document is not touched by the failure. *)
Theorem patch_failure_is_swallowed :
  let failing bad := [text_delta (str "t") (line bad ++ line "Hello");
                      text_end (str "t")] in
  let sound := [text_delta (str "t") (line "Hello"); text_end (str "t")] in
  parseSpecLine Json.parse (js bad_path) = Some (Patch (parsed bad_path))
  /\ (applySpecPatch JsonRender.applySpecStreamPatch (newSpec []).1 1
       (parsed bad_path)).2 = None
  /\ (run (failing bad_path)).2 = Closed
  /\ queue (run (failing bad_path)).1 = []
  /\ currentSpec (run (failing bad_path)).1 = currentSpec (initialState [])
  /\ parseSpecLine Json.parse (js no_path) = Some (Patch (parsed no_path))
  /\ (applySpecPatch JsonRender.applySpecStreamPatch (newSpec []).1 1
       (parsed no_path)).2 = None
  /\ (run (failing no_path)).2 = Closed
  /\ queue (run (failing no_path)).1 = []
  /\ currentSpec (run (failing no_path)).1 = currentSpec (initialState [])
  /\ seen sound = [SeenText 0 (line "Hello")].
Proof. by vm_compute. Qed.

(** * Further properties of the code *)

(** ** The line buffer: how pushes compose *)

Lemma split_nl_free (r : jstring) : nl ∉ r -> split_nl r = [r].
Proof.
  induction r as [|c r IH]; [done|]. intros H.
  apply not_elem_of_cons in H as [Hc Hr]. cbn [split_nl].
  destruct (N.eqb_spec c nl) as [->|_]; [done|]. by rewrite IH.
Qed.

Lemma split_nl_line (l s : jstring) :
  nl ∉ l -> split_nl (l ++ nl :: s) = l :: split_nl s.
Proof.
  induction l as [|c l IH]; intros H.
  - cbn [app split_nl]. by rewrite N.eqb_refl.
  - apply not_elem_of_cons in H as [Hc Hl]. cbn [app split_nl].
    destruct (N.eqb_spec c nl) as [->|_]; [done|]. by rewrite IH.
Qed.

(** A text has one way of being cut into lines. *)
Lemma split_nl_unlines (ls : list jstring) (r : jstring) :
  Forall (fun l => nl ∉ l) ls -> nl ∉ r -> split_nl (unlines ls r) = ls ++ [r].
Proof.
  intros Hls Hr. induction Hls as [|l ls Hl _ IH].
  - unfold unlines. cbn. by apply split_nl_free.
  - unfold unlines in *. cbn [flat_map]. rewrite <- !app_assoc.
    cbn [app]. by rewrite split_nl_line, IH.
Qed.

Lemma takeLines_unlines (buffer chunk : jstring) (ls : list jstring)
    (r : jstring) :
  Forall (fun l => nl ∉ l) ls -> nl ∉ r -> buffer ++ chunk = unlines ls r ->
  takeLines buffer chunk = (ls, r).
Proof.
  intros Hls Hr E. unfold takeLines.
  by rewrite E, split_nl_unlines, pop_snoc.
Qed.

Lemma split_nl_takeLines (buffer chunk : jstring) :
  split_nl (buffer ++ chunk)
  = (takeLines buffer chunk).1 ++ [(takeLines buffer chunk).2].
Proof.
  destruct (takeLines_spec buffer chunk) as (E & Hl & Hr).
  rewrite E. by apply split_nl_unlines.
Qed.

Lemma takeLines_app (buffer a b : jstring) :
  takeLines buffer (a ++ b)
  = ((takeLines buffer a).1 ++ (takeLines (takeLines buffer a).2 b).1,
     (takeLines (takeLines buffer a).2 b).2).
Proof.
  destruct (takeLines_spec buffer a) as (E1 & Hl1 & Hr1).
  destruct (takeLines_spec (takeLines buffer a).2 b) as (E2 & Hl2 & Hr2).
  apply takeLines_unlines; [by apply Forall_app|done|].
  by rewrite app_assoc, E1, unlines_app, <- E2, app_assoc, unlines_nil_app.
Qed.

Lemma takeLines_pushedLines (frags : list jstring) :
  takeLines [] (concat frags)
  = (concat (pushedLines [] frags).1, (pushedLines [] frags).2).
Proof.
  destruct (pushedLines_spec frags []) as (E & Hl & Hr).
  apply takeLines_unlines; [done|apply Hr, not_elem_of_nil|done].
Qed.

Lemma processChunk_app (JSON_parse : jstring -> option value)
    (buffer a b : jstring) :
  processChunk JSON_parse buffer (a ++ b)
  = ((processChunk JSON_parse buffer a).1
       ++ (processChunk JSON_parse (processChunk JSON_parse buffer a).2 b).1,
     (processChunk JSON_parse (processChunk JSON_parse buffer a).2 b).2).
Proof.
  unfold processChunk. rewrite takeLines_app.
  destruct (takeLines buffer a) as [l1 t1]. cbn [fst snd].
  destruct (takeLines t1 b) as [l2 t2]. cbn [fst snd].
  by rewrite omap_app.
Qed.

Lemma processChunk_lines (JSON_parse : jstring -> option value)
    (buffer chunk : jstring) :
  processChunk JSON_parse buffer chunk
  = (omap (parseSpecLine JSON_parse) (takeLines buffer chunk).1,
     (takeLines buffer chunk).2).
Proof. unfold processChunk. by destruct (takeLines buffer chunk). Qed.

Lemma flushed_parseSpecLine (JSON_parse : jstring -> option value)
    (buffer : jstring) :
  flushed JSON_parse buffer = omap (parseSpecLine JSON_parse) [buffer].
Proof.
  unfold flushed, flush.
  destruct (trim buffer) as [|c r] eqn:E; cbn [fst omap list_omap].
  - by rewrite parseSpecLine_blank.
  - by destruct (parseSpecLine JSON_parse buffer).
Qed.

Lemma flush_flush (JSON_parse : jstring -> option value) (buffer : jstring) :
  flush JSON_parse (flush JSON_parse buffer).2
  = (None, (flush JSON_parse buffer).2).
Proof.
  unfold flush at 2 3. destruct (trim buffer) as [|c r] eqn:E; cbn [snd].
  - by apply flush_blank.
  - done.
Qed.

(** ** Trimming at both ends *)

Lemma trimStart_ws (pad s : jstring) :
  forallb is_ws pad = true -> trimStart (pad ++ s) = trimStart s.
Proof.
  induction pad as [|c pad IH]; [done|]. cbn [forallb app trimStart].
  intros H. apply andb_true_iff in H as [-> H]. by apply IH.
Qed.

Lemma trimStart_snoc (s : jstring) (c : N) :
  trimStart (s ++ [c])
  = if forallb is_ws s && is_ws c then [] else trimStart s ++ [c].
Proof.
  induction s as [|d s IH]; cbn [app trimStart forallb].
  - by destruct (is_ws c).
  - destruct (is_ws d); [exact IH|done].
Qed.

Lemma trimEnd_nil (s : jstring) : trimEnd s = [] <-> forallb is_ws s = true.
Proof.
  unfold trimEnd. rewrite <- (forallb_rev is_ws s), <- trimStart_nil. split.
  - intros H. apply (f_equal (@rev N)) in H. by rewrite rev_involutive in H.
  - by intros ->.
Qed.

Lemma trimEnd_cons (c : N) (s : jstring) :
  trimEnd (c :: s)
  = if forallb is_ws s && is_ws c then [] else c :: trimEnd s.
Proof.
  unfold trimEnd. cbn [rev]. rewrite trimStart_snoc, forallb_rev.
  destruct (forallb is_ws s && is_ws c); [done|].
  by rewrite rev_app_distr.
Qed.

Lemma trimEnd_app (a b : jstring) :
  trimEnd b <> [] -> trimEnd (a ++ b) = a ++ trimEnd b.
Proof.
  intros Hb. induction a as [|c a IH]; [done|]. cbn [app].
  rewrite trimEnd_cons, IH.
  destruct (forallb is_ws (a ++ b)) eqn:E; [|done].
  rewrite forallb_app in E. apply andb_true_iff in E as [_ E].
  by apply trimEnd_nil in E.
Qed.

(** The two ends are trimmed independently. *)
Lemma trim_comm (s : jstring) : trimStart (trimEnd s) = trim s.
Proof.
  unfold trim. induction s as [|c s IH]; [done|].
  rewrite trimEnd_cons. cbn [trimStart].
  destruct (is_ws c) eqn:Ec; rewrite ?andb_true_r, ?andb_false_r.
  - destruct (forallb is_ws s) eqn:Es.
    + apply trimStart_nil in Es. by rewrite Es.
    + cbn [trimStart]. by rewrite Ec.
  - cbn [trimStart]. rewrite Ec, trimEnd_cons, Ec. by rewrite andb_false_r.
Qed.

Lemma trim_trimEnd_nil (s : jstring) : trim s = [] <-> trimEnd s = [].
Proof. by rewrite trim_nil, trimEnd_nil. Qed.

Lemma startsWith_app (p s : jstring) : startsWith (p ++ s) p = true.
Proof.
  induction p as [|c p IH]; [by destruct s|].
  cbn [app startsWith]. by rewrite N.eqb_refl, IH.
Qed.

(** The text handed to [JSON.parse] for a line that carries the prefix
    [data:], whatever white space surrounds the prefix. *)
Lemma payload_sse (lead pad line : jstring) :
  forallb is_ws lead = true -> forallb is_ws pad = true -> trim line <> [] ->
  trim (lead ++ str "data:" ++ pad ++ line) = str "data:" ++ pad ++ trimEnd line
  /\ payload (lead ++ str "data:" ++ pad ++ line) = trim line.
Proof.
  intros Hlead Hpad Hline.
  assert (Ht : trim (lead ++ str "data:" ++ pad ++ line)
               = str "data:" ++ pad ++ trimEnd line).
  { unfold trim. rewrite trimStart_ws by done.
    change (trimStart (str "data:" ++ pad ++ line))
      with (str "data:" ++ pad ++ line).
    assert (Hne : trimEnd line <> []) by (by rewrite <- trim_trimEnd_nil).
    assert (Hp : trimEnd (pad ++ line) = pad ++ trimEnd line)
      by (by apply trimEnd_app).
    rewrite trimEnd_app, Hp; [done|]. rewrite Hp.
    intros H. by apply app_eq_nil in H as [_ H]. }
  split; [exact Ht|]. unfold payload. rewrite Ht.
  rewrite startsWith_app.
  change (slice_from 5 (str "data:" ++ pad ++ trimEnd line))
    with (pad ++ trimEnd line).
  rewrite trimStart_ws by done. apply trim_comm.
Qed.

(** ** The transport: lines, chunks passed through, well-formed chunks *)

Section TransportLines.

Variable JSON_parse : jstring -> option value.
Variable ToString : option value -> option jstring.
Variable applySpecStreamPatch : heap -> loc -> value -> heap * bool.

Lemma processLine_payload (st : state) (line : jstring) :
  processLine JSON_parse ToString applySpecStreamPatch st line
  = match trim line with
    | [] => st
    | _ :: _ =>
        if jstring_eqb (payload line) (str "[DONE]") then st
        else match JSON_parse (payload line) with
             | None => st
             | Some chunk =>
                 handleChunk JSON_parse ToString applySpecStreamPatch st chunk
             end
    end.
Proof. done. Qed.

Lemma processLine_blank (st : state) (line : jstring) :
  trim line = [] ->
  processLine JSON_parse ToString applySpecStreamPatch st line = st.
Proof. intros H. by rewrite processLine_payload, H. Qed.

(** The read loop processes the complete lines of what it has read so
    far, in order, and keeps the rest. *)
Lemma reads_lines (decoded : list jstring) (st : state) (buffer : jstring) :
  foldl (readLoop_step JSON_parse ToString applySpecStreamPatch)
    (st, buffer) decoded
  = (foldl (processLine JSON_parse ToString applySpecStreamPatch) st
       (concat (pushedLines buffer decoded).1),
     (pushedLines buffer decoded).2).
Proof.
  revert st buffer. induction decoded as [|v r IH]; intros st buffer; [done|].
  rewrite pushedLines_cons. cbn [foldl fst snd concat].
  unfold readLoop_step at 2.
  destruct (takeLines buffer v) as [lines buffer']. cbn [fst snd].
  by rewrite IH, foldl_app.
Qed.

Lemma processResponseStream_done (h : heap) (decoded : list jstring)
    (tail : jstring) :
  nl ∉ tail ->
  processResponseStream JSON_parse ToString applySpecStreamPatch h
    (mkSource decoded (SourceDone tail))
  = (foldl (processLine JSON_parse ToString applySpecStreamPatch)
       (initialState h) (split_nl (concat decoded ++ tail)),
     Closed).
Proof.
  intros Htail. unfold processResponseStream. cbn [reads ending].
  rewrite reads_lines.
  destruct (pushedLines_spec decoded []) as (E & Hl & Hr).
  specialize (Hr (not_elem_of_nil _)). cbn [app] in E.
  assert (Es : split_nl (concat decoded ++ tail)
               = concat (pushedLines [] decoded).1
                 ++ [(pushedLines [] decoded).2 ++ tail]).
  { rewrite E. unfold unlines. rewrite <- app_assoc.
    apply (split_nl_unlines _ (_ ++ tail)); [done|].
    rewrite elem_of_app. tauto. }
  rewrite Es, foldl_app. cbn [foldl].
  destruct (trim ((pushedLines [] decoded).2 ++ tail)) eqn:Et; [|done].
  by rewrite processLine_blank.
Qed.

Lemma processResponseStream_error (h : heap) (decoded : list jstring) :
  processResponseStream JSON_parse ToString applySpecStreamPatch h
    (mkSource decoded SourceError)
  = (foldl (processLine JSON_parse ToString applySpecStreamPatch)
       (initialState h) (removelast (split_nl (concat decoded))),
     Errored).
Proof.
  unfold processResponseStream. cbn [reads ending].
  rewrite reads_lines.
  destruct (pushedLines_spec decoded []) as (E & Hl & Hr).
  specialize (Hr (not_elem_of_nil _)). cbn [app] in E.
  by rewrite E, split_nl_unlines, removelast_last.
Qed.

(** *** Chunks passed through *)

Lemma forwarded_app (q q' : list OutChunk) :
  forwarded (q ++ q') = forwarded q ++ forwarded q'.
Proof. apply omap_app. Qed.

Lemma forwarded_applyPatchItem (st : state) (data : value) :
  forwarded (queue (applyPatchItem applySpecStreamPatch st data).1)
  = forwarded (queue st).
Proof.
  destruct (applyPatchItem_fields applySpecStreamPatch st data)
    as (_ & _ & _ & [->|[n ->]]); [done|].
  rewrite forwarded_app. apply app_nil_r.
Qed.

Lemma forwarded_processItems (parsed : list ParsedLine) (st : state) :
  forwarded (queue (processItems applySpecStreamPatch st parsed).1)
  = forwarded (queue st).
Proof.
  revert st. induction parsed as [|[data|content] r IH]; intros st;
    cbn [processItems]; [done| |].
  - pose proof (forwarded_applyPatchItem st data) as H.
    destruct (applyPatchItem applySpecStreamPatch st data) as [st' [|]];
      cbn [fst] in *; [|done].
    by rewrite IH.
  - rewrite IH. cbn [emitUIText queue]. rewrite forwarded_app. apply app_nil_r.
Qed.

Lemma queue_splitTextSegment (st : state) :
  queue (splitTextSegment st) = queue st.
Proof. unfold splitTextSegment. by destruct (currentSegmentText st). Qed.

Lemma forwarded_onTextDelta (st : state) (chunk : value) :
  forwarded (queue (onTextDelta JSON_parse ToString applySpecStreamPatch
                      st chunk))
  = forwarded (queue st).
Proof.
  unfold onTextDelta. destruct (concat_operand _ _); [|done].
  destruct (processChunk _ _ _) as [parsed b].
  by rewrite forwarded_processItems.
Qed.

Lemma forwarded_onTextEnd (st : state) :
  forwarded (queue (onTextEnd JSON_parse applySpecStreamPatch st))
  = forwarded (queue st).
Proof.
  unfold onTextEnd. destruct (flush _ _) as [[[data|content]|] b].
  - pose proof (forwarded_applyPatchItem (set_specBuffer st b) data) as H.
    destruct (applyPatchItem _ _ _) as [st2 [|]]; cbn [fst] in H;
      by rewrite ?queue_splitTextSegment.
  - rewrite queue_splitTextSegment. cbn [emitUIText queue].
    rewrite forwarded_app. apply app_nil_r.
  - by rewrite queue_splitTextSegment.
Qed.

Lemma forwarded_processLine (st : state) (line : jstring) :
  forwarded (queue (processLine JSON_parse ToString applySpecStreamPatch
                      st line))
  = forwarded (queue st)
    ++ match passedThrough JSON_parse line with
       | Some chunk => [chunk]
       | None => []
       end.
Proof.
  rewrite processLine_payload. unfold passedThrough.
  destruct (trim line); [by rewrite app_nil_r|].
  destruct (jstring_eqb _ _); [by rewrite app_nil_r|].
  destruct (JSON_parse (payload line)) as [chunk|]; [|by rewrite app_nil_r].
  unfold handleChunk.
  destruct (type_is chunk "text-delta") eqn:E1;
    [destruct chunk; cbn [is_null orb]; rewrite ?app_nil_r; try done;
     apply forwarded_onTextDelta|].
  destruct (type_is chunk "text-end") eqn:E2;
    [destruct chunk; cbn [is_null orb]; rewrite ?app_nil_r; try done;
     apply forwarded_onTextEnd|].
  destruct (type_is chunk "text-start") eqn:E3;
    [destruct chunk; cbn [is_null orb]; by rewrite ?app_nil_r|].
  destruct chunk; cbn [is_null orb enqueue queue];
    by rewrite ?app_nil_r, ?forwarded_app.
Qed.

Lemma forwarded_lines (lines : list jstring) (st : state) :
  forwarded (queue (foldl (processLine JSON_parse ToString
                             applySpecStreamPatch) st lines))
  = forwarded (queue st) ++ omap (passedThrough JSON_parse) lines.
Proof.
  revert st. induction lines as [|l r IH]; intros st; cbn [foldl].
  - by rewrite app_nil_r.
  - rewrite IH, forwarded_processLine, <- app_assoc. f_equal.
    cbn [omap list_omap]. by destruct (passedThrough JSON_parse l).
Qed.

End TransportLines.

Section TransportInvariants.

Variable JSON_parse : jstring -> option value.
Variable ToString : option value -> option jstring.
Variable applySpecStreamPatch : heap -> loc -> value -> heap * bool.

(** What holds at the start and is kept by every line holds at the end
    of the run, however the body ends. *)
Lemma processResponseStream_invariant (P : state -> Prop) (h : heap)
    (src : source) :
  P (initialState h) ->
  (forall st l,
      P st -> P (processLine JSON_parse ToString applySpecStreamPatch st l)) ->
  P (processResponseStream JSON_parse ToString applySpecStreamPatch h src).1.
Proof.
  intros H0 Hstep.
  assert (Hlines : forall lines st, P st ->
            P (foldl (processLine JSON_parse ToString applySpecStreamPatch)
                 st lines)).
  { induction lines as [|l r IH]; intros st Hst; [done|]. by apply IH, Hstep. }
  unfold processResponseStream. rewrite reads_lines.
  destruct (ending src) as [tail|]; [|by apply Hlines].
  destruct (trim _); [by apply Hlines|]. by apply Hstep, Hlines.
Qed.

(** An invariant of the variables of the closure is kept by a line when
    the four things a line can do keep it. *)
Lemma processLine_invariant (P : state -> Prop) :
  (forall st b, P st -> P (set_specBuffer st b)) ->
  (forall st, P st -> P (splitTextSegment st)) ->
  (forall st data, P st -> P (applyPatchItem applySpecStreamPatch st data).1) ->
  (forall st text, P st -> text <> [] -> P (emitUIText st text)) ->
  (forall st chunk, P st -> chunk <> VNull ->
     type_is chunk "text-delta" = false -> type_is chunk "text-end" = false ->
     type_is chunk "text-start" = false -> P (enqueue st (Forwarded chunk))) ->
  forall st l,
    P st -> P (processLine JSON_parse ToString applySpecStreamPatch st l).
Proof.
  intros Hbuf Hsplit Hpatch Htext Hfwd.
  assert (Hitems : forall items st, P st ->
            P (processItems applySpecStreamPatch st items).1).
  { induction items as [|[data|content] r IH]; intros st Hst;
      cbn [processItems]; [done| |].
    - pose proof (Hpatch st data Hst) as H.
      destruct (applyPatchItem applySpecStreamPatch st data) as [st' [|]];
        cbn [fst] in *; [by apply IH|done].
    - apply IH, Htext; [done|]. by destruct content. }
  intros st l Hst. rewrite processLine_payload.
  destruct (trim l); [done|]. destruct (jstring_eqb _ _); [done|].
  destruct (JSON_parse (payload l)) as [chunk|]; [|done].
  unfold handleChunk.
  destruct (type_is chunk "text-delta") eqn:E1.
  { destruct chunk; try done; unfold onTextDelta;
      (destruct (concat_operand _ _); [|done]);
      (destruct (processChunk _ _ _) as [parsed b]); by apply Hitems, Hbuf. }
  destruct (type_is chunk "text-end") eqn:E2.
  { assert (He : P (onTextEnd JSON_parse applySpecStreamPatch st)).
    { unfold onTextEnd.
      destruct (flush JSON_parse (specBuffer st)) as [[[data|content]|] b] eqn:E.
      - pose proof (Hpatch (set_specBuffer st b) data (Hbuf _ _ Hst)) as H.
        destruct (applyPatchItem _ _ _) as [st2 [|]]; cbn [fst] in H;
          [by apply Hsplit|done].
      - apply flush_Text_nonempty in E as (-> & Hb & _).
        apply Hsplit, Htext; [by apply Hbuf|done].
      - by apply Hsplit, Hbuf. }
    by destruct chunk. }
  destruct (type_is chunk "text-start") eqn:E3; [by destruct chunk|].
  destruct chunk; try done; by apply Hfwd.
Qed.

(** *** Well-formed chunks *)

Lemma well_formed_queue (h : heap) (src : source) :
  Forall well_formed_chunk
    (queue (processResponseStream JSON_parse ToString applySpecStreamPatch
              h src).1).
Proof.
  apply (processResponseStream_invariant
           (fun st => Forall well_formed_chunk (queue st))); [by constructor|].
  apply processLine_invariant.
  - done.
  - intros st H. by rewrite queue_splitTextSegment.
  - intros st data H.
    destruct (applyPatchItem_fields applySpecStreamPatch st data)
      as (_ & _ & _ & [->|[n ->]]); [done|].
    apply Forall_app. split; [done|]. by repeat constructor.
  - intros st text H Ht. cbn [emitUIText queue]. apply Forall_app.
    split; [done|]. repeat constructor. cbn.
    intros E. by apply app_eq_nil in E as [_ ?].
  - intros st chunk H ? ? ? ?. cbn [enqueue queue]. apply Forall_app.
    split; [done|]. by repeat constructor.
Qed.

(** *** Deltas and their fragments *)

Lemma processItems_app (a b : list ParsedLine) (st : state) :
  processItems applySpecStreamPatch st (a ++ b)
  = if (processItems applySpecStreamPatch st a).2
    then processItems applySpecStreamPatch
           (processItems applySpecStreamPatch st a).1 b
    else ((processItems applySpecStreamPatch st a).1, false).
Proof.
  revert st. induction a as [|[data|content] r IH]; intros st;
    cbn [app processItems fst snd]; [done| |by apply IH].
  destruct (applyPatchItem applySpecStreamPatch st data) as [st' [|]];
    [by apply IH|done].
Qed.

Lemma applyPatchItem_set_specBuffer (st : state) (b : jstring) (data : value) :
  applyPatchItem applySpecStreamPatch (set_specBuffer st b) data
  = (set_specBuffer (applyPatchItem applySpecStreamPatch st data).1 b,
     (applyPatchItem applySpecStreamPatch st data).2).
Proof.
  unfold applyPatchItem, splitTextSegment. cbn [set_specBuffer currentSegmentText].
  destruct (currentSegmentText st) as [|c0 t0];
    cbn [store currentSpec set_specBuffer];
    by destruct (applySpecPatch _ _ _ _) as [h' [m|]].
Qed.

Lemma processItems_set_specBuffer (parsed : list ParsedLine) (st : state)
    (b : jstring) :
  processItems applySpecStreamPatch (set_specBuffer st b) parsed
  = (set_specBuffer (processItems applySpecStreamPatch st parsed).1 b,
     (processItems applySpecStreamPatch st parsed).2).
Proof.
  revert st. induction parsed as [|[data|content] r IH]; intros st;
    cbn [processItems]; [done| |].
  - rewrite applyPatchItem_set_specBuffer.
    destruct (applyPatchItem applySpecStreamPatch st data) as [st' [|]];
      cbn [fst snd]; [by apply IH|done].
  - apply (IH (emitUIText st (content ++ [nl]))).
Qed.

Lemma onTextDelta_app (st : state) (c1 c2 c12 : value) (a b : jstring) :
  field c1 (str "delta") = Some (VStr a) ->
  field c2 (str "delta") = Some (VStr b) ->
  field c12 (str "delta") = Some (VStr (a ++ b)) ->
  (processItems applySpecStreamPatch st
     (processChunk JSON_parse (specBuffer st) a).1).2 = true ->
  onTextDelta JSON_parse ToString applySpecStreamPatch
    (onTextDelta JSON_parse ToString applySpecStreamPatch st c1) c2
  = onTextDelta JSON_parse ToString applySpecStreamPatch st c12.
Proof.
  intros H1 H2 H12 Hok.
  rewrite (onTextDelta_string _ _ _ _ c12 (a ++ b) H12).
  rewrite (onTextDelta_string _ _ _ _ c2 b H2).
  rewrite (onTextDelta_string _ _ _ st c1 a H1).
  rewrite processChunk_app.
  destruct (processChunk JSON_parse (specBuffer st) a) as [i1 b1].
  cbn [fst snd] in *.
  rewrite !processItems_set_specBuffer. cbn [fst snd set_specBuffer specBuffer].
  destruct (processChunk JSON_parse b1 b) as [i2 b2]. cbn [fst snd].
  rewrite ?processItems_app, ?processItems_set_specBuffer. cbn [fst snd].
  by rewrite Hok.
Qed.

(** *** The end of a text *)

Lemma onTextEnd_closed (st : state) :
  let st' := onTextEnd JSON_parse applySpecStreamPatch st in
  currentSegmentText st' = []
  /\ trim (specBuffer st') = []
  /\ segmentIndex st'
     = match (flush JSON_parse (specBuffer st)).1 with
       | Some (Text _) => S (segmentIndex st)
       | _ => open_segments st
       end.
Proof.
  unfold onTextEnd.
  assert (Hb : trim (flush JSON_parse (specBuffer st)).2 = []).
  { unfold flush. by destruct (trim (specBuffer st)) eqn:E. }
  assert (Hopen : forall s, segmentIndex (splitTextSegment s) = open_segments s
                            /\ currentSegmentText (splitTextSegment s) = []
                            /\ specBuffer (splitTextSegment s) = specBuffer s).
  { intros s. unfold splitTextSegment, open_segments.
    by destruct (currentSegmentText s) eqn:E. }
  destruct (flush JSON_parse (specBuffer st)) as [[[data|content]|] b] eqn:E;
    cbn [fst snd] in *.
  - destruct (applyPatchItem_fields applySpecStreamPatch (set_specBuffer st b) data)
      as (H1 & H2 & H3 & _).
    destruct (applyPatchItem _ _ _) as [st2 [|]]; cbn [fst] in *.
    + destruct (Hopen st2) as (Ha & Hc & Hd). rewrite Hc, Hd, H1.
      split; [done|]. split; [done|].
      unfold splitTextSegment. rewrite H3. rewrite H2.
      apply (Hopen (set_specBuffer st b)).
    + split; [done|]. rewrite H1. split; [done|]. rewrite H2.
      apply (Hopen (set_specBuffer st b)).
  - apply flush_Text_nonempty in E as (-> & Hne & ->).
    destruct (Hopen (emitUIText (set_specBuffer st []) (specBuffer st)))
      as (Ha & Hc & Hd).
    rewrite Hc, Hd, Ha. split; [done|]. split; [done|].
    unfold open_segments. cbn.
    destruct (currentSegmentText st ++ specBuffer st) eqn:E; [|done].
    by apply app_eq_nil in E as [_ ?].
  - destruct (Hopen (set_specBuffer st b)) as (Ha & Hc & Hd).
    by rewrite Hc, Hd, Ha.
Qed.

End TransportInvariants.

(** ** The transport and [buildSpec] fold the same way *)

Section TransportBuilds.

Variable applySpecStreamPatch : heap -> loc -> value -> heap * bool.

Lemma applyAll_cons (start : heap * option loc) (p : SpecPatch)
    (ps : list SpecPatch) :
  applyAll applySpecStreamPatch start (p :: ps)
  = applyAll applySpecStreamPatch
      (match start with
       | (h, Some spec) =>
           applySpecPatch applySpecStreamPatch h spec (SpecPatch_object p)
       | (h, None) => (h, None)
       end) ps.
Proof. done. Qed.

Lemma applyPatchItem_applySpecPatch (st : state) (data : value) :
  let r := applyPatchItem applySpecStreamPatch st data in
  applySpecPatch applySpecStreamPatch (store st) (currentSpec st) data
  = (store r.1, if r.2 then Some (currentSpec r.1) else None)
  /\ (r.2 = true -> queue r.1 = queue st ++ [DataUI (currentSpec r.1)])
  /\ (r.2 = false -> currentSpec r.1 = currentSpec st /\ queue r.1 = queue st).
Proof.
  unfold applyPatchItem, splitTextSegment.
  destruct (currentSegmentText st) as [|c0 t0];
    cbn [store currentSpec];
    by destruct (applySpecPatch _ _ _ _) as [h' [m|]].
Qed.

(** The patches of a delta are folded over the Document as
    [buildSpec] folds them, and each one that applies enqueues the
    Document it gives. *)
Lemma processItems_patches (ps : list SpecPatch) (st : state) :
  let r := processItems applySpecStreamPatch st (map patchItem ps) in
  applyAll applySpecStreamPatch (store st, Some (currentSpec st)) ps
  = (store r.1, if r.2 then Some (currentSpec r.1) else None)
  /\ (r.2 = true ->
      exists docs, queue r.1 = queue st ++ map DataUI docs
        /\ length docs = length ps
        /\ last (currentSpec st :: docs) = Some (currentSpec r.1)).
Proof.
  revert st. induction ps as [|p ps IH]; intros st.
  - cbn. split; [done|]. intros _. exists []. by rewrite app_nil_r.
  - rewrite applyAll_cons. cbn [map].
    change (patchItem p :: map patchItem ps)
      with (Patch (SpecPatch_object p) :: map patchItem ps).
    cbn [processItems].
    destruct (applyPatchItem_applySpecPatch st (SpecPatch_object p))
      as (E & Hq & _).
    rewrite E.
    destruct (applyPatchItem applySpecStreamPatch st (SpecPatch_object p))
      as [st' [|]]; cbn [fst snd] in *.
    + destruct (IH st') as [IH1 IH2]. split; [exact IH1|].
      intros Hok. destruct (IH2 Hok) as (docs & Hd & Hlen & Hlast).
      exists (currentSpec st' :: docs). rewrite Hd, Hq by done.
      rewrite <- app_assoc. split; [done|]. split; [cbn; lia|].
      by rewrite last_cons_cons.
    + rewrite applyAll_thrown. split; [done|]. done.
Qed.

End TransportBuilds.

(** ** Every Document enqueued is an object of its own *)

Section TransportDocuments.

Variable JSON_parse : jstring -> option value.
Variable ToString : option value -> option jstring.
Variable applySpecStreamPatch : heap -> loc -> value -> heap * bool.
Hypothesis library_keeps_to_target : keeps_to_target applySpecStreamPatch.

Lemma documents_apart_run (h : heap) (src : source) :
  documents_apart
    (processResponseStream JSON_parse ToString applySpecStreamPatch h src).1.
Proof.
  apply (processResponseStream_invariant JSON_parse ToString
           applySpecStreamPatch documents_apart).
  { split; cbn; constructor. }
  apply processLine_invariant; unfold documents_apart.
  - done.
  - intros st H. by rewrite queue_splitTextSegment, preserved_splitTextSegment.
  - intros st data [Hlt Hnd]. unfold applyPatchItem.
    rewrite preserved_splitTextSegment.
    replace (currentSpec (splitTextSegment st)) with (currentSpec st)
      by (unfold splitTextSegment; by destruct (currentSegmentText st)).
    destruct (applySpecPatch_frame applySpecStreamPatch library_keeps_to_target
                (store st) (currentSpec st) data) as (Hp & _ & Hn).
    apply preserved_length in Hp.
    destruct (applySpecPatch _ _ _ _) as [h' [m|]];
      cbn [fst snd enqueue set_currentSpec queue store] in *;
      rewrite ?queue_splitTextSegment.
    + destruct (Hn m eq_refl) as [Hm1 Hm2]. unfold documents.
      rewrite omap_app. cbn [omap list_omap]. fold (documents (queue st)).
      split.
      * apply Forall_app. split; [|by repeat constructor].
        eapply Forall_impl; [exact Hlt|]. cbn. lia.
      * apply NoDup_app. split; [done|]. split; [|apply NoDup_singleton].
        intros l Hl Hm. apply list_elem_of_singleton in Hm. subst l.
        rewrite Forall_forall in Hlt. apply Hlt in Hl. lia.
    + split; [|done]. eapply Forall_impl; [exact Hlt|]. cbn. lia.
  - intros st text [Hlt Hnd] _. cbn [emitUIText queue store]. unfold documents.
    rewrite omap_app. cbn [omap list_omap]. by rewrite app_nil_r.
  - intros st chunk [Hlt Hnd] _ _ _ _. cbn [enqueue queue store].
    unfold documents. rewrite omap_app. cbn [omap list_omap].
    by rewrite app_nil_r.
Qed.

End TransportDocuments.

(** ** [buildSpec] and a patch that cannot be applied *)

Section BuilderFailure.

Variable applySpecStreamPatch : heap -> loc -> value -> heap * bool.

Lemma applyAll_app (start : heap * option loc) (ps1 ps2 : list SpecPatch) :
  applyAll applySpecStreamPatch start (ps1 ++ ps2)
  = applyAll applySpecStreamPatch
      (applyAll applySpecStreamPatch start ps1) ps2.
Proof. apply foldl_app. Qed.

Lemma buildSpec_applyAll (h : heap) (patches : list SpecPatch) :
  match applyAll applySpecStreamPatch
          ((newSpec h).1, Some (newSpec h).2) patches with
  | (hl, Some spec) =>
      exists h', buildSpec applySpecStreamPatch h patches = (h', Some spec)
  | (hl, None) => buildSpec applySpecStreamPatch h patches = (hl, None)
  end.
Proof.
  unfold buildSpec, buildSpec_loop. cbn [newSpec fst snd].
  set (start := h ++ _).
  destruct (buildSpec_step_fold applySpecStreamPatch patches start
              (Some (S (length h))) None) as [Hfold _]; [done|].
  rewrite <- Hfold.
  destruct (foldl _ _ _) as [[hl [s|]] key]; cbn [fst snd]; [|done].
  destruct (_ && _); eauto.
Qed.

End BuilderFailure.

(** ** The callback of [convertUIMessagesToModelMessages] *)

Section UtilsFacts.

Variable JSON_stringify : value -> jstring.

Lemma convertDataPart_text (id : option jstring) (k : nat) (t : jstring) :
  t <> [] ->
  convertDataPart JSON_stringify
    (mkDataPart (str "data-ui-text") id
       (Some (VObj [(str "segmentId", VStr (segmentId k));
                    (str "text", VStr t)])))
  = Some t.
Proof. intros Ht. unfold convertDataPart. cbn. by destruct t. Qed.

Lemma convertDataPart_ui (type : jstring) (document : value) :
  truthy (Some document) = true ->
  type <> str "data-ui-text" ->
  convertDataPart JSON_stringify (mkDataPart type (Some (str "ui")) (Some document))
  = Some (spec_marker ++ JSON_stringify document).
Proof.
  intros Ht Hty. unfold convertDataPart. cbn [part_type part_id part_data].
  rewrite Ht, jstring_eqb_refl.
  assert (E : jstring_eqb type (str "data-ui-text") = false)
    by (by apply bool_decide_eq_false_2).
  by rewrite E.
Qed.

End UtilsFacts.

(** ** Objects built by spreading *)

Lemma own_prop_assign_ne {A} (k k' : jstring) (v : A)
    (props : list (jstring * A)) :
  k <> k' -> own_prop k (assign k' v props) = own_prop k props.
Proof.
  intros Hk.
  assert (Hf : jstring_eqb k k' = false) by (by apply bool_decide_eq_false_2).
  induction props as [|[k0 v0] r IH]; cbn [assign own_prop].
  - by rewrite Hf.
  - destruct (jstring_eqb k' k0) eqn:E.
    + apply bool_decide_eq_true in E. subst k0. cbn [own_prop]. by rewrite Hf.
    + destruct (array_index k') as [i|], (array_index k0) as [j|];
        try destruct (i <? j); cbn [own_prop]; rewrite ?Hf, ?IH; done.
Qed.

Lemma own_prop_None {A} (k : jstring) (props : list (jstring * A)) :
  own_prop k props = None <-> k ∉ props.*1.
Proof.
  induction props as [|[k0 v0] r IH]; cbn [own_prop fmap list_fmap fst].
  - split; [intros _; apply not_elem_of_nil|done].
  - rewrite not_elem_of_cons. unfold jstring_eqb.
    destruct (decide (k = k0)) as [->|Hne].
    + rewrite bool_decide_eq_true_2 by done. split; [done|]. by intros [? _].
    + rewrite bool_decide_eq_false_2 by done. rewrite IH. tauto.
Qed.

Lemma own_prop_spread_None {A} (k : jstring) (source target : list (jstring * A)) :
  own_prop k source = None ->
  own_prop k (spread target source) = own_prop k target.
Proof.
  unfold spread. revert target.
  induction source as [|[k0 v0] r IH]; intros target H; [done|].
  cbn [foldl fst snd]. cbn [own_prop] in H.
  destruct (jstring_eqb k k0) eqn:E; [done|].
  apply bool_decide_eq_false in E. by rewrite IH, own_prop_assign_ne.
Qed.

Lemma own_prop_spread_Some {A} (k : jstring) (v : A)
    (source target : list (jstring * A)) :
  NoDup source.*1 -> own_prop k source = Some v ->
  own_prop k (spread target source) = Some v.
Proof.
  revert target.
  induction source as [|[k0 v0] r IH]; intros target Hnd H; [done|].
  cbn [fmap list_fmap fst] in Hnd. apply NoDup_cons in Hnd as [Hk0 Hnd].
  cbn [own_prop] in H. unfold spread. cbn [foldl fst snd].
  destruct (jstring_eqb k k0) eqn:E.
  - apply bool_decide_eq_true in E. subst k0. injection H as ->.
    fold (spread (assign k v target) r).
    rewrite own_prop_spread_None by (by apply own_prop_None).
    apply own_prop_assign.
  - by apply IH.
Qed.

(** ** Lines of a prompt *)

Lemma split_nl_app (a b : jstring) :
  split_nl (a ++ nl :: b) = split_nl a ++ split_nl b.
Proof.
  induction a as [|c a IH]; cbn [app split_nl].
  - by rewrite N.eqb_refl.
  - rewrite IH. destruct (c =? nl); [done|].
    destruct (split_nl_snoc a) as (ls & r & E & _). rewrite E.
    by destruct ls.
Qed.

(** ** Properties of the line buffer and the classifier *)

Lemma omap_concat {A B} (f : A -> option B) (ls : list (list A)) :
  omap f (concat ls) = concat (map (omap f) ls).
Proof.
  induction ls as [|l ls IH]; [done|]. cbn [concat map].
  by rewrite omap_app, IH.
Qed.

(** X1. Where a text is cut into fragments does not matter to the
    line buffer: pushing [a] and then [b] returns, one after the other,
    the items that pushing [a ++ b] returns at once, and leaves the same
    buffer; pushing any number of fragments into a new buffer returns
    between them the items of one push of their concatenation. *)
Theorem processChunk_fragmentation (JSON_parse : jstring -> option value) :
  (forall buffer a b : jstring,
      let first := processChunk JSON_parse buffer a in
      let second := processChunk JSON_parse first.2 b in
      processChunk JSON_parse buffer (a ++ b)
      = (first.1 ++ second.1, second.2))
  /\ (forall frags : list jstring,
        processChunk JSON_parse new_SpecStreamBuffer (concat frags)
        = (concat (pushes JSON_parse new_SpecStreamBuffer frags).1,
           (pushes JSON_parse new_SpecStreamBuffer frags).2)).
Proof.
  split.
  - intros buffer a b. apply processChunk_app.
  - intros frags. unfold new_SpecStreamBuffer.
    rewrite pushes_pushedLines, processChunk_lines, takeLines_pushedLines.
    cbn [fst snd]. by rewrite omap_concat.
Qed.

(** X2. A push followed by [flush] classifies every line of the buffered
    text and of the chunk together, the unterminated last one included:
    the items are those of the pieces that [split] cuts, in order, blank
    pieces giving none. A second [flush] returns nothing and changes
    nothing. *)
Theorem flush_completes_the_lines (JSON_parse : jstring -> option value)
    (buffer chunk : jstring) :
  let r := processChunk JSON_parse buffer chunk in
  r.1 ++ flushed JSON_parse r.2
  = omap (parseSpecLine JSON_parse) (split_nl (buffer ++ chunk))
  /\ forall b : jstring,
       flush JSON_parse (flush JSON_parse b).2 = (None, (flush JSON_parse b).2).
Proof.
  intros r. subst r. rewrite processChunk_lines. cbn [fst snd]. split.
  - by rewrite flushed_parseSpecLine, <- omap_app, <- split_nl_takeLines.
  - intros b. apply flush_flush.
Qed.

(** X3. What a push returns and leaves: a text item holds no line
    terminator and is not blank, a patch item is an object whose [op] and
    [path] are truthy, and the buffer left holds no line terminator,
    whatever the buffer held before. *)
Theorem processChunk_results (JSON_parse : jstring -> option value)
    (buffer chunk : jstring) :
  let r := processChunk JSON_parse buffer chunk in
  Forall (fun item =>
            match item with
            | Text content => (nl ∉ content) /\ trim content <> []
            | Patch data =>
                (exists props, data = VObj props)
                /\ truthy (field data (str "op")) = true
                /\ truthy (field data (str "path")) = true
            end) r.1
  /\ nl ∉ r.2.
Proof.
  intros r. subst r. rewrite processChunk_lines. cbn [fst snd].
  destruct (takeLines_spec buffer chunk) as (_ & Hl & Hr). split; [|done].
  apply Forall_forall. intros item Hin.
  apply list_elem_of_omap in Hin as (l & Hin & Hp).
  rewrite Forall_forall in Hl. specialize (Hl l Hin).
  destruct (parseSpecLine_cases _ _ _ Hp) as [->|(v & _ & -> & Ho & Hpa)].
  - split; [done|]. intros E.
    by rewrite (parseSpecLine_blank JSON_parse l E) in Hp.
  - split; [|done]. destruct v; try done. eauto.
Qed.

(** X4. [buildSpec] has no handler: when a patch cannot be applied
    to the Document that the patches before it gave, [buildSpec] throws
    there, and the patches after it are not applied. When every patch
    applies, [buildSpec] returns the Document of the last one. *)
Theorem buildSpec_stops_at_first_failure
    (applySpecStreamPatch : heap -> loc -> value -> heap * bool) (h : heap) :
  (forall (before : list SpecPatch) (p : SpecPatch) (after : list SpecPatch)
          (hl : heap) (spec : loc),
      applyAll applySpecStreamPatch ((newSpec h).1, Some (newSpec h).2) before
        = (hl, Some spec) ->
      (applySpecPatch applySpecStreamPatch hl spec (SpecPatch_object p)).2 = None ->
      buildSpec applySpecStreamPatch h (before ++ p :: after)
      = ((applySpecPatch applySpecStreamPatch hl spec (SpecPatch_object p)).1,
         None))
  /\ (forall (patches : list SpecPatch) (hl : heap) (spec : loc),
        applyAll applySpecStreamPatch ((newSpec h).1, Some (newSpec h).2) patches
          = (hl, Some spec) ->
        exists h', buildSpec applySpecStreamPatch h patches = (h', Some spec)).
Proof.
  split.
  - intros before p after hl spec Hb Hp.
    pose proof (buildSpec_applyAll applySpecStreamPatch h (before ++ p :: after))
      as H.
    rewrite applyAll_app, Hb, applyAll_cons in H.
    destruct (applySpecPatch applySpecStreamPatch hl spec (SpecPatch_object p))
      as [h1 [m|]]; [done|].
    by rewrite applyAll_thrown in H.
  - intros patches hl spec Ha.
    pose proof (buildSpec_applyAll applySpecStreamPatch h patches) as H.
    by rewrite Ha in H.
Qed.

Lemma buildSpec_stops_at_first_failure_witness :
  applyAll JsonRender.applySpecStreamPatch ((newSpec []).1, Some (newSpec []).2) []
    = ((newSpec []).1, Some 1%nat)
  /\ (applySpecPatch JsonRender.applySpecStreamPatch (newSpec []).1 1
        (SpecPatch_object Samples.failing_test)).2 = None
  /\ buildSpec JsonRender.applySpecStreamPatch []
       ([] ++ Samples.failing_test :: [add_card_patch])
     = ((applySpecPatch JsonRender.applySpecStreamPatch (newSpec []).1 1
           (SpecPatch_object Samples.failing_test)).1, None).
Proof.
  split; [by vm_compute|]. split; [by vm_compute|].
  exact (proj1 (buildSpec_stops_at_first_failure
                  JsonRender.applySpecStreamPatch [])
           [] Samples.failing_test [add_card_patch] (newSpec []).1 1%nat
           ltac:(by vm_compute) ltac:(by vm_compute)).
Defined.

(** ** Properties of the transport *)

(** X5. How the network cuts the response body does not show: when the
    body ends normally, the run is the lines of the whole text, cut at
    the line terminators, handed to [processLine] one after the other
    (the last, unterminated one included), and then the stream is
    closed. A body that arrives in many reads gives the run of the same
    text in one read. The text that the final [decode()] returns holds
    no line terminator. *)
Theorem body_chunking_is_unobservable
    (JSON_parse : jstring -> option value)
    (ToString : option value -> option jstring)
    (applySpecStreamPatch : heap -> loc -> value -> heap * bool)
    (h : heap) (decoded : list jstring) (tail : jstring) :
  nl ∉ tail ->
  processResponseStream JSON_parse ToString applySpecStreamPatch h
    (mkSource decoded (SourceDone tail))
  = (foldl (processLine JSON_parse ToString applySpecStreamPatch)
       (initialState h) (split_nl (concat decoded ++ tail)),
     Closed)
  /\ processResponseStream JSON_parse ToString applySpecStreamPatch h
       (mkSource decoded (SourceDone tail))
     = processResponseStream JSON_parse ToString applySpecStreamPatch h
         (mkSource [concat decoded ++ tail] (SourceDone [])).
Proof.
  intros Htail.
  rewrite (processResponseStream_done _ _ _ h decoded tail Htail).
  split; [done|].
  rewrite (processResponseStream_done _ _ _ h [concat decoded ++ tail] [])
    by apply not_elem_of_nil.
  cbn [concat]. by rewrite !app_nil_r.
Qed.

Lemma body_chunking_is_unobservable_witness :
  (nl ∉ [65533])
  /\ processResponseStream Json.parse Ecma.ToString
       JsonRender.applySpecStreamPatch []
       (mkSource Samples.cut_body (SourceDone [65533]))
     = processResponseStream Json.parse Ecma.ToString
         JsonRender.applySpecStreamPatch []
         (mkSource [concat Samples.cut_body ++ [65533]] (SourceDone [])).
Proof.
  assert (H : nl ∉ [65533])
    by (intros E; apply list_elem_of_singleton in E; by vm_compute in E).
  split; [exact H|].
  exact (proj2 (body_chunking_is_unobservable Json.parse Ecma.ToString
                  JsonRender.applySpecStreamPatch [] Samples.cut_body
                  [65533] H)).
Defined.

(** X6. When a read of the body fails, every complete line received
    before the failure has been handed to [processLine], in order; the
    unterminated rest is not processed, and the stream is put in error
    instead of being closed. *)
Theorem read_error_keeps_complete_lines
    (JSON_parse : jstring -> option value)
    (ToString : option value -> option jstring)
    (applySpecStreamPatch : heap -> loc -> value -> heap * bool)
    (h : heap) (decoded : list jstring) :
  processResponseStream JSON_parse ToString applySpecStreamPatch h
    (mkSource decoded SourceError)
  = (foldl (processLine JSON_parse ToString applySpecStreamPatch)
       (initialState h) (removelast (split_nl (concat decoded))),
     Errored).
Proof. apply processResponseStream_error. Qed.

(** X7. The prefix [data:] of a server-sent event is transparent: a
    line that carries the prefix, with any white space before the prefix
    and between the prefix and the payload, is handled exactly as the
    payload alone. Only one prefix is removed, so the payload must not
    itself begin with [data:]. *)
Theorem sse_prefix_is_transparent
    (JSON_parse : jstring -> option value)
    (ToString : option value -> option jstring)
    (applySpecStreamPatch : heap -> loc -> value -> heap * bool)
    (st : state) (lead pad l : jstring) :
  forallb is_ws lead = true -> forallb is_ws pad = true ->
  trim l <> [] -> startsWith (trim l) (str "data:") = false ->
  processLine JSON_parse ToString applySpecStreamPatch st
    (lead ++ str "data:" ++ pad ++ l)
  = processLine JSON_parse ToString applySpecStreamPatch st l.
Proof.
  intros Hlead Hpad Hl Hs.
  destruct (payload_sse lead pad l Hlead Hpad Hl) as [Ht Hp].
  rewrite !processLine_payload, Hp, Ht.
  assert (Hpl : payload l = trim l) by (unfold payload; by rewrite Hs).
  rewrite Hpl. by destruct (trim l).
Qed.

Lemma sse_prefix_is_transparent_witness :
  forallb is_ws (str " ") = true
  /\ forallb is_ws (str "  ") = true
  /\ trim (js "{'type':'start'}") <> []
  /\ startsWith (trim (js "{'type':'start'}")) (str "data:") = false
  /\ processLine Json.parse Ecma.ToString JsonRender.applySpecStreamPatch
       (initialState []) (str " " ++ str "data:" ++ str "  " ++ js "{'type':'start'}")
     = processLine Json.parse Ecma.ToString JsonRender.applySpecStreamPatch
         (initialState []) (js "{'type':'start'}").
Proof.
  split; [by vm_compute|]. split; [by vm_compute|].
  split; [by vm_compute|]. split; [by vm_compute|].
  exact (sse_prefix_is_transparent Json.parse Ecma.ToString
           JsonRender.applySpecStreamPatch (initialState [])
           (str " ") (str "  ") (js "{'type':'start'}")
           ltac:(by vm_compute) ltac:(by vm_compute)
           ltac:(by vm_compute) ltac:(by vm_compute)).
Defined.

(** X8. Chunks that are not text events pass through unchanged and in
    order. A line whose payload parses to a chunk that is not [null] and
    whose [type] is none of [text-delta], [text-end] and [text-start]
    enqueues that chunk and does nothing else; any other line enqueues no
    passed-through chunk, whether or not a patch in it fails. Over any
    lines, and over a whole body, the chunks passed through are those of
    the lines, in the order of the lines. *)
Theorem passed_through_in_order
    (JSON_parse : jstring -> option value)
    (ToString : option value -> option jstring)
    (applySpecStreamPatch : heap -> loc -> value -> heap * bool) :
  (forall (st : state) (l : jstring),
      match passedThrough JSON_parse l with
      | Some chunk =>
          processLine JSON_parse ToString applySpecStreamPatch st l
          = enqueue st (Forwarded chunk)
      | None =>
          forwarded (queue (processLine JSON_parse ToString
                              applySpecStreamPatch st l))
          = forwarded (queue st)
      end)
  /\ (forall (lines : list jstring) (st : state),
        forwarded (queue (foldl (processLine JSON_parse ToString
                                   applySpecStreamPatch) st lines))
        = forwarded (queue st) ++ omap (passedThrough JSON_parse) lines)
  /\ (forall (h : heap) (decoded : list jstring),
        forwarded
          (queue (processResponseStream JSON_parse ToString
                    applySpecStreamPatch h
                    (mkSource decoded (SourceDone []))).1)
        = omap (passedThrough JSON_parse) (split_nl (concat decoded))).
Proof.
  split; [|split].
  - intros st l.
    pose proof (forwarded_processLine JSON_parse ToString
                  applySpecStreamPatch st l) as H.
    destruct (passedThrough JSON_parse l) as [chunk|] eqn:E;
      [|by rewrite app_nil_r in H].
    clear H. revert E. unfold passedThrough. rewrite processLine_payload.
    destruct (trim l); [done|]. destruct (jstring_eqb _ _); [done|].
    destruct (JSON_parse (payload l)) as [v|]; [|done].
    unfold handleChunk.
    destruct v; cbn [is_null orb]; try done;
      destruct (type_is _ "text-delta"); cbn [orb]; try done;
      destruct (type_is _ "text-end"); cbn [orb]; try done;
      destruct (type_is _ "text-start"); cbn [orb]; try done;
      by intros [= <-].
  - intros lines st. apply forwarded_lines.
  - intros h decoded.
    rewrite (processResponseStream_done _ _ _ h decoded [])
      by apply not_elem_of_nil.
    cbn [fst]. rewrite forwarded_lines, app_nil_r.
    by destruct (newSpec h).
Qed.

(** X9. Over a whole run, however the body ends: no text chunk is
    enqueued with an empty text, and no chunk is passed through that
    is [null] or that is one of the text events [text-delta], [text-end]
    and [text-start]. *)
Theorem queue_chunks_are_well_formed
    (JSON_parse : jstring -> option value)
    (ToString : option value -> option jstring)
    (applySpecStreamPatch : heap -> loc -> value -> heap * bool)
    (h : heap) (src : source) :
  Forall well_formed_chunk
    (queue (processResponseStream JSON_parse ToString applySpecStreamPatch
              h src).1).
Proof. apply well_formed_queue. Qed.

(** X10. Two [text-delta] events in a row are handled as the one event
    that carries their deltas joined, provided no patch of the first
    delta fails: where the server cuts the text into deltas does not show
    in the chunks, the segments or the Document. *)
Theorem delta_fragments_compose
    (JSON_parse : jstring -> option value)
    (ToString : option value -> option jstring)
    (applySpecStreamPatch : heap -> loc -> value -> heap * bool)
    (st : state) (c1 c2 c12 : value) (a b : jstring) :
  type_is c1 "text-delta" = true -> type_is c2 "text-delta" = true ->
  type_is c12 "text-delta" = true ->
  field c1 (str "delta") = Some (VStr a) ->
  field c2 (str "delta") = Some (VStr b) ->
  field c12 (str "delta") = Some (VStr (a ++ b)) ->
  (processItems applySpecStreamPatch st
     (processChunk JSON_parse (specBuffer st) a).1).2 = true ->
  handleChunk JSON_parse ToString applySpecStreamPatch
    (handleChunk JSON_parse ToString applySpecStreamPatch st c1) c2
  = handleChunk JSON_parse ToString applySpecStreamPatch st c12.
Proof.
  intros T1 T2 T12 H1 H2 H12 Hok.
  rewrite !handleChunk_text_delta by done. by eapply onTextDelta_app.
Qed.

Lemma delta_fragments_compose_witness :
  let c1 := parsed "{'type':'text-delta','id':'t','delta':'{\'op\':\'replace\',\'pa'}" in
  let c2 := parsed "{'type':'text-delta','id':'t','delta':'th\':\'/root\',\'value\':\'a\'}\nHi\n'}" in
  let c12 := parsed "{'type':'text-delta','id':'t','delta':'{\'op\':\'replace\',\'path\':\'/root\',\'value\':\'a\'}\nHi\n'}" in
  let a := js "{'op':'replace','pa" in
  let b := js "th':'/root','value':'a'}" ++ [nl] ++ str "Hi" ++ [nl] in
  field c1 (str "delta") = Some (VStr a)
  /\ field c2 (str "delta") = Some (VStr b)
  /\ field c12 (str "delta") = Some (VStr (a ++ b))
  /\ queue (handleChunk Json.parse Ecma.ToString JsonRender.applySpecStreamPatch
              (initialState []) c12)
     = [DataUI 3; DataUIText 0 (str "Hi" ++ [nl])]
  /\ handleChunk Json.parse Ecma.ToString JsonRender.applySpecStreamPatch
       (handleChunk Json.parse Ecma.ToString JsonRender.applySpecStreamPatch
          (initialState []) c1) c2
     = handleChunk Json.parse Ecma.ToString JsonRender.applySpecStreamPatch
         (initialState []) c12.
Proof.
  intros c1 c2 c12 a b.
  split; [by vm_compute|]. split; [by vm_compute|].
  split; [by vm_compute|]. split; [by vm_compute|].
  exact (delta_fragments_compose Json.parse Ecma.ToString
           JsonRender.applySpecStreamPatch (initialState []) c1 c2 c12 a b
           ltac:(by vm_compute) ltac:(by vm_compute) ltac:(by vm_compute)
           ltac:(by vm_compute) ltac:(by vm_compute) ltac:(by vm_compute)
           ltac:(by vm_compute)).
Defined.

(** X11. A [text-end] event always leaves the text closed: no segment
    is open afterwards and the line buffer holds white space at most,
    whether the buffered rest was nothing, a text, a patch that applied
    or a patch that failed. The segment counter has moved past the
    segment that was open, or past the one the rest of the text opened;
    the index it is at has not been used, so text that arrives later
    starts a segment of its own. *)
Theorem text_end_closes_the_segment
    (JSON_parse : jstring -> option value)
    (ToString : option value -> option jstring)
    (applySpecStreamPatch : heap -> loc -> value -> heap * bool)
    (st : state) (chunk : value) :
  type_is chunk "text-end" = true ->
  let st' := handleChunk JSON_parse ToString applySpecStreamPatch st chunk in
  currentSegmentText st' = []
  /\ trim (specBuffer st') = []
  /\ segmentIndex st'
     = match (flush JSON_parse (specBuffer st)).1 with
       | Some (Text _) => S (segmentIndex st)
       | _ => open_segments st
       end
  /\ (segments_ok st -> ~ has_segment (queue st') (segmentIndex st')).
Proof.
  intros Ht st'.
  assert (E : st' = onTextEnd JSON_parse applySpecStreamPatch st)
    by (by apply handleChunk_text_end).
  destruct (onTextEnd_closed JSON_parse applySpecStreamPatch st)
    as (H1 & H2 & H3).
  rewrite E. split; [done|]. split; [done|]. split; [done|].
  intros Hok. apply segment_opened; [|done].
  by apply segments_ok_onTextEnd.
Qed.

Lemma text_end_closes_the_segment_witness :
  type_is (parsed "{'type':'text-end','id':'text1'}") "text-end" = true
  /\ currentSegmentText
       (handleChunk Json.parse Ecma.ToString JsonRender.applySpecStreamPatch
          buffered_tail (parsed "{'type':'text-end','id':'text1'}")) = []
  /\ currentSegmentText buffered_tail <> [].
Proof.
  split; [by vm_compute|]. split; [|by vm_compute].
  exact (proj1 (text_end_closes_the_segment Json.parse Ecma.ToString
                  JsonRender.applySpecStreamPatch buffered_tail
                  (parsed "{'type':'text-end','id':'text1'}")
                  ltac:(by vm_compute))).
Defined.

(** X12. The transport folds patches as [buildSpec] does. When
    [buildSpec] returns for a list of patches, the same patches arriving
    as the items of a delta all apply, each enqueues one Document, the
    last Document enqueued is the object that [buildSpec] returns, and the
    store is the one [buildSpec] leaves, except that the transport never
    infers the root: where [buildSpec] sets an empty root to the first
    element added, the Document of the transport keeps the empty
    root. *)
Theorem transport_folds_like_buildSpec
    (applySpecStreamPatch : heap -> loc -> value -> heap * bool)
    (h : heap) (patches : list SpecPatch) (h' : heap) (spec : loc) :
  buildSpec applySpecStreamPatch h patches = (h', Some spec) ->
  let r := processItems applySpecStreamPatch (initialState h)
             (map patchItem patches) in
  r.2 = true
  /\ currentSpec r.1 = spec
  /\ (exists docs, queue r.1 = map DataUI docs
        /\ length docs = length patches
        /\ last (currentSpec (initialState h) :: docs) = Some spec)
  /\ (h' = store r.1
      \/ exists k, head (omap directElementKey patches) = Some k
           /\ hval_truthy (get_prop (store r.1) spec (str "root")) = false
           /\ h' = set_prop (store r.1) spec (str "root") (HStr k)).
Proof.
  intros Hb r.
  destruct (buildSpec_result applySpecStreamPatch h patches h' spec Hb)
    as (hl & Ha & Hroot).
  destruct (processItems_patches applySpecStreamPatch patches (initialState h))
    as [Hfold Hq].
  fold r in Hfold, Hq.
  change (store (initialState h)) with (newSpec h).1 in Hfold.
  change (currentSpec (initialState h)) with (newSpec h).2 in Hfold.
  rewrite Ha in Hfold. destruct (r.2) eqn:Eok; [|done].
  injection Hfold as Hs Hc. split; [done|]. split; [done|]. split.
  - destruct (Hq eq_refl) as (docs & Hd & Hlen & Hlast). exists docs.
    rewrite Hd, Hlast, <- Hc. done.
  - rewrite <- Hs.
    destruct (hval_truthy (get_prop hl spec (str "root"))) eqn:Et; [by left|].
    destruct (head (omap directElementKey patches)) as [k|]; [|by left].
    right. exists k. by destruct Hroot as (_ & -> & _).
Qed.

Lemma transport_folds_like_buildSpec_witness :
  let h' := (buildSpec JsonRender.applySpecStreamPatch [] [add_card_patch]).1 in
  let r := processItems JsonRender.applySpecStreamPatch (initialState [])
             (map patchItem [add_card_patch]) in
  buildSpec JsonRender.applySpecStreamPatch [] [add_card_patch] = (h', Some 3%nat)
  /\ currentSpec r.1 = 3%nat
  /\ get_prop h' 3 (str "root") = Some (HStr (str "card1"))
  /\ get_prop (store r.1) 3 (str "root") = Some (HStr []).
Proof.
  intros h' r. split; [by vm_compute|]. split; [|by vm_compute].
  exact (proj1 (proj2 (transport_folds_like_buildSpec
                         JsonRender.applySpecStreamPatch [] [add_card_patch]
                         h' 3%nat ltac:(by vm_compute)))).
Defined.

(** X13. Every Document that the transport enqueues is an object of its
    own: over a whole run, no two [data-ui] chunks carry the same
    object, and each object exists in the store. It is assumed that the
    patch library changes nothing outside its target. *)
Theorem documents_are_separate_objects
    (JSON_parse : jstring -> option value)
    (ToString : option value -> option jstring)
    (applySpecStreamPatch : heap -> loc -> value -> heap * bool)
    (h : heap) (src : source) :
  keeps_to_target applySpecStreamPatch ->
  let st := (processResponseStream JSON_parse ToString applySpecStreamPatch
               h src).1 in
  NoDup (documents (queue st))
  /\ Forall (fun l => (l < length (store st))%nat) (documents (queue st)).
Proof.
  intros Hlib st.
  destruct (documents_apart_run JSON_parse ToString applySpecStreamPatch
              Hlib h src) as [Hlt Hnd].
  by split.
Qed.

Lemma documents_are_separate_objects_witness :
  let body := [text_delta (str "t") (line set_root ++ line add_card)] in
  keeps_to_target JsonRender.applySpecStreamPatch
  /\ documents (queue (run body).1) = [3%nat; 6%nat]
  /\ NoDup (documents (queue (run body).1)).
Proof.
  intros body. split; [exact JsonRender_keeps_to_target|].
  split; [by vm_compute|].
  exact (proj1 (documents_are_separate_objects Json.parse Ecma.ToString
                  JsonRender.applySpecStreamPatch []
                  (mkSource body (SourceDone []))
                  JsonRender_keeps_to_target)).
Defined.

(** X14. A [text-delta] event without a [delta] is not skipped: the
    text that the string coercion gives for [undefined] is appended to the
    line buffer, as if the event carried the delta [undefined]. *)
Theorem missing_delta_reads_undefined
    (JSON_parse : jstring -> option value)
    (ToString : option value -> option jstring)
    (applySpecStreamPatch : heap -> loc -> value -> heap * bool)
    (st : state) (chunk : value) :
  ToString None = Some (str "undefined") ->
  type_is chunk "text-delta" = true ->
  field chunk (str "delta") = None ->
  handleChunk JSON_parse ToString applySpecStreamPatch st chunk
  = handleChunk JSON_parse ToString applySpecStreamPatch st
      (VObj [(str "type", VStr (str "text-delta"));
             (str "delta", VStr (str "undefined"))])
  /\ (nl ∉ specBuffer st ->
      specBuffer (handleChunk JSON_parse ToString applySpecStreamPatch st chunk)
      = specBuffer st ++ str "undefined").
Proof.
  intros Hu Ht Hd.
  rewrite !handleChunk_text_delta by done.
  assert (E : onTextDelta JSON_parse ToString applySpecStreamPatch st chunk
              = (processItems applySpecStreamPatch
                   (set_specBuffer st
                      (processChunk JSON_parse (specBuffer st)
                         (str "undefined")).2)
                   (processChunk JSON_parse (specBuffer st)
                      (str "undefined")).1).1).
  { unfold onTextDelta. rewrite Hd. cbn [concat_operand]. rewrite Hu.
    by destruct (processChunk _ _ _). }
  split.
  - rewrite E. symmetry. by apply onTextDelta_string.
  - intros Hnl. rewrite E, processItems_specBuffer. cbn [set_specBuffer specBuffer].
    rewrite processChunk_lines. cbn [snd].
    rewrite (takeLines_unlines (specBuffer st) (str "undefined") []
               (specBuffer st ++ str "undefined")); [done|done| |done].
    rewrite elem_of_app. intros [?|Hin]; [done|].
    apply list_elem_of_In in Hin. vm_compute in Hin. intuition discriminate.
Qed.

Lemma missing_delta_reads_undefined_witness :
  Ecma.ToString None = Some (str "undefined")
  /\ type_is (parsed "{'type':'text-delta','id':'t'}") "text-delta" = true
  /\ field (parsed "{'type':'text-delta','id':'t'}") (str "delta") = None
  /\ specBuffer
       (handleChunk Json.parse Ecma.ToString JsonRender.applySpecStreamPatch
          (initialState []) (parsed "{'type':'text-delta','id':'t'}"))
     = str "undefined".
Proof.
  split; [by vm_compute|]. split; [by vm_compute|]. split; [by vm_compute|].
  exact (proj2 (missing_delta_reads_undefined Json.parse Ecma.ToString
                  JsonRender.applySpecStreamPatch (initialState [])
                  (parsed "{'type':'text-delta','id':'t'}")
                  ltac:(by vm_compute) ltac:(by vm_compute)
                  ltac:(by vm_compute))
           ltac:(apply not_elem_of_nil)).
Defined.

(** ** Properties of the conversion for the model *)

(** X15. Nothing the transport enqueues of its own is lost when the
    message is converted for the model: over a whole run, every text
    chunk is converted to a text part that holds exactly the text of the
    chunk, and every Document that can be serialised is converted to the
    marker line followed by its JSON text. *)
Theorem transport_chunks_reach_the_model
    (JSON_parse : jstring -> option value)
    (ToString : option value -> option jstring)
    (applySpecStreamPatch : heap -> loc -> value -> heap * bool)
    (JSON_stringify : value -> jstring)
    (h : heap) (src : source) :
  let st := (processResponseStream JSON_parse ToString applySpecStreamPatch
               h src).1 in
  Forall (fun c =>
            match c, part_of (store st) c with
            | DataUIText _ t, Some p =>
                convertDataPart JSON_stringify p = Some t
            | DataUIText _ _, None => False
            | DataUI _, Some p =>
                exists document,
                  part_data p = Some document
                  /\ convertDataPart JSON_stringify p
                     = Some (spec_marker ++ JSON_stringify document)
            | _, _ => True
            end) (queue st).
Proof.
  intros st.
  eapply Forall_impl;
    [apply (well_formed_queue JSON_parse ToString applySpecStreamPatch h src)|].
  fold st. intros [l|k t|v] Hwf; cbn [part_of]; [| |done].
  - destruct (snapshot _ _ _) as [[document|]|] eqn:E; [|done|done].
    exists document. split; [done|]. cbn [chunk_id].
    apply convertDataPart_ui.
    + by destruct (snapshot_ref_container _ _ _ _ E) as [[? ->]|[? ->]].
    + intros H. by apply str_inj in H.
  - by apply convertDataPart_text.
Qed.

(** X16. The parts that the conversion drops: a data part is dropped
    exactly when its [data] is falsy, or when its [id] is not [ui] and it
    is not a [data-ui-text] part that holds a text of at least one
    character. A part with the id [ui] and truthy data is never dropped,
    whatever its type. *)
Theorem convertDataPart_drops (JSON_stringify : value -> jstring)
    (part : DataPart) :
  convertDataPart JSON_stringify part = None
  <-> (truthy (part_data part) = false
       \/ (part_id part <> Some (str "ui")
           /\ ~ (part_type part = str "data-ui-text"
                 /\ exists text,
                      text <> []
                      /\ (part_data part ≫= fun d => field d (str "text"))
                         = Some (VStr text)))).
Proof.
  destruct part as [ty id data]. unfold convertDataPart.
  cbn [part_type part_id part_data].
  destruct data as [d|]; [|by destruct id; split; auto].
  cbn [mbind option_bind].
  destruct (truthy (Some d)) eqn:Et; rewrite ?andb_true_r, ?andb_false_r;
    [|by destruct id; rewrite ?andb_false_r; split; auto].
  assert (Hsecond : forall o : option jstring,
            match id with
            | Some i => if jstring_eqb i (str "ui") && true then o else None
            | None => None
            end = None
            <-> (o = None \/ id <> Some (str "ui"))).
  { intros o. destruct id as [i|]; [|split; [right|]; done].
    rewrite andb_true_r. unfold jstring_eqb. destruct (decide (i = str "ui")) as [->|Hne].
    - rewrite bool_decide_eq_true_2 by done. split; [by left|by intros [?|?]].
    - rewrite bool_decide_eq_false_2 by done.
      split; [intros _; right; congruence|done]. }
  unfold jstring_eqb at 1. destruct (decide (ty = str "data-ui-text")) as [->|Hty].
  - rewrite bool_decide_eq_true_2 by done.
    destruct (field d (str "text")) as [[| | |text| |]|] eqn:Ef;
      try (rewrite Hsecond; split;
           [intros [?|?]; [done|]; right; split; [done|];
            by intros (_ & text' & _ & ?)
           |intros [?|[? _]]; [done|by right]]).
    unfold jstring_eqb. destruct (decide (text = [])) as [->|Hne].
    + rewrite bool_decide_eq_true_2 by done. cbn [negb]. rewrite Hsecond.
      split.
      * intros [?|?]; [done|]. right. split; [done|].
        by intros (_ & text' & Hne' & [= <-]).
      * intros [?|[? _]]; [done|by right].
    + rewrite bool_decide_eq_false_2 by done. cbn [negb].
      split; [done|]. intros [?|[_ H]]; [done|]. destruct H. eauto.
  - rewrite bool_decide_eq_false_2 by done. rewrite Hsecond. split.
    + intros [?|?]; [done|]. right. split; [done|]. by intros [? _].
    + intros [?|[? _]]; [done|by right].
Qed.

(** ** Properties of the request *)

(** The keys of a literal object are distinct. *)
Ltac distinct_keys :=
  vm_compute;
  repeat (apply NoDup_cons_2;
          [let H := fresh in
           intros H; apply list_elem_of_In in H; vm_compute in H;
           intuition discriminate|]);
  apply NoDup_nil_2.

(** X17. The body of the request: whatever the body of the transport
    and the body of the call hold, [id], [messages], [trigger] and
    [messageId] are those of the call, so neither body can replace them;
    any other key has the value that the body of the call gives it, and
    otherwise the value that the body of the transport gives it. *)
Theorem request_body_reserved_fields (AbortSignal : Type)
    (this : UITransport AbortSignal) (options : SendOptions AbortSignal) :
  let b := bodyOf this options in
  own_prop (str "id") b = Some (Some (VStr (chatId options)))
  /\ own_prop (str "messages") b = Some (Some (VArr (messages options)))
  /\ own_prop (str "trigger") b
     = Some (Some (VStr (trigger_name (trigger options))))
  /\ own_prop (str "messageId") b = Some (VStr <$> messageId options)
  /\ forall k : jstring,
       k ∉ [str "id"; str "messages"; str "trigger"; str "messageId"] ->
       match body this with Some o => NoDup o.*1 | None => True end ->
       match requestBody options with Some o => NoDup o.*1 | None => True end ->
       own_prop k b
       = match requestBody options ≫= own_prop k with
         | Some v => Some v
         | None => body this ≫= own_prop k
         end.
Proof.
  intros b. subst b. unfold bodyOf.
  assert (Hne : forall s s' : string, s <> s' -> str s <> str s')
    by (intros s s' H E; by apply str_inj in E).
  split; [|split; [|split; [|split]]].
  - rewrite !own_prop_assign_ne by (by apply Hne). apply own_prop_assign.
  - rewrite !own_prop_assign_ne by (by apply Hne). apply own_prop_assign.
  - rewrite !own_prop_assign_ne by (by apply Hne). apply own_prop_assign.
  - apply own_prop_assign.
  - intros k Hk Hb Hr. rewrite !not_elem_of_cons in Hk.
    destruct Hk as (K1 & K2 & K3 & K4 & _).
    rewrite !own_prop_assign_ne by done.
    assert (Hbody : own_prop k (spread_opt [] (body this))
                    = body this ≫= own_prop k).
    { destruct (body this) as [o|]; [|done]. cbn [spread_opt mbind option_bind].
      destruct (own_prop k o) as [v|] eqn:E.
      - by apply own_prop_spread_Some.
      - by rewrite own_prop_spread_None. }
    destruct (requestBody options) as [o|]; cbn [spread_opt mbind option_bind];
      [|done].
    destruct (own_prop k o) as [v|] eqn:E.
    + by apply own_prop_spread_Some.
    + by rewrite own_prop_spread_None.
Qed.

Lemma request_body_reserved_fields_witness :
  let b := bodyOf Samples.transport Samples.options in
  own_prop (str "id") b = Some (Some (VStr (str "chat1")))
  /\ (str "model" ∉ [str "id"; str "messages"; str "trigger"; str "messageId"])
  /\ own_prop (str "model") b = Some (Some (VStr (str "m2"))).
Proof.
  intros b.
  assert (Hk : str "model"
               ∉ [str "id"; str "messages"; str "trigger"; str "messageId"]).
  { intros H. apply list_elem_of_In in H. vm_compute in H.
    intuition discriminate. }
  split; [by vm_compute|]. split; [exact Hk|].
  exact (proj2 (proj2 (proj2 (proj2
           (request_body_reserved_fields unit Samples.transport
              Samples.options))))
           (str "model") Hk ltac:(distinct_keys) ltac:(distinct_keys)).
Defined.

(** X18. The headers of the request: a header of the call comes before
    a header of the same name of the transport, and both come before the
    content type [application/json] that the transport sets; that
    content type is sent unless one of the two gives a header named
    exactly [Content-Type]. *)
Theorem request_headers_precedence (AbortSignal : Type)
    (resolved : option (list (jstring * jstring)))
    (options : SendOptions AbortSignal) (k : jstring) :
  match resolved with Some o => NoDup o.*1 | None => True end ->
  NoDup (optionHeaders options).*1 ->
  own_prop k (headersOf resolved options)
  = match own_prop k (optionHeaders options) with
    | Some v => Some v
    | None =>
        match resolved ≫= own_prop k with
        | Some v => Some v
        | None =>
            if jstring_eqb k (str "Content-Type")
            then Some (str "application/json")
            else None
        end
    end.
Proof.
  intros Hr Ho. unfold headersOf.
  destruct (own_prop k (optionHeaders options)) as [v|] eqn:E.
  { by apply own_prop_spread_Some. }
  rewrite own_prop_spread_None by done.
  destruct resolved as [o|]; cbn [spread_opt mbind option_bind]; [|done].
  destruct (own_prop k o) as [v|] eqn:E'.
  - by apply own_prop_spread_Some.
  - by rewrite own_prop_spread_None.
Qed.

Lemma request_headers_precedence_witness :
  let resolved := [(str "Authorization", str "Bearer a");
                   (str "X-Client", str "web")] in
  resolvedHeaders Samples.transport = Some (Some resolved)
  /\ NoDup resolved.*1
  /\ NoDup (optionHeaders Samples.options).*1
  /\ own_prop (str "Authorization") (headersOf (Some resolved) Samples.options)
     = Some (str "Bearer b")
  /\ own_prop (str "X-Client") (headersOf (Some resolved) Samples.options)
     = Some (str "web")
  /\ own_prop (str "Content-Type") (headersOf (Some resolved) Samples.options)
     = Some (str "application/json").
Proof.
  intros resolved.
  assert (H1 : NoDup resolved.*1) by distinct_keys.
  assert (H2 : NoDup (optionHeaders Samples.options).*1) by distinct_keys.
  split; [done|]. split; [exact H1|]. split; [exact H2|].
  split; [|split].
  - exact (request_headers_precedence unit (Some resolved) Samples.options
             (str "Authorization") H1 H2).
  - exact (request_headers_precedence unit (Some resolved) Samples.options
             (str "X-Client") H1 H2).
  - exact (request_headers_precedence unit (Some resolved) Samples.options
             (str "Content-Type") H1 H2).
Defined.

(** X19. How [sendMessages] settles: it resolves with a stream only when
    the response is [ok] and has a body, and the stream is then the
    processing of that body; a response that is not [ok] never reaches
    the stream processing, even when it has a body. The error that
    [sendMessages] throws itself is the text of a response that is
    not [ok], a fixed message when that text is empty, and another
    fixed message when a response that is [ok] has no body; its message
    is never empty. *)
Theorem sendMessages_settles (AbortSignal : Type)
    (JSON_parse : jstring -> option value)
    (ToString : option value -> option jstring)
    (applySpecStreamPatch : heap -> loc -> value -> heap * bool)
    (JSON_stringify : list (jstring * option value) -> jstring)
    (fetch : Fetch AbortSignal) (h : heap)
    (this : UITransport AbortSignal) (options : SendOptions AbortSignal) :
  let outcome := sendMessages JSON_parse ToString applySpecStreamPatch
                   JSON_stringify fetch h this options in
  let called resolved :=
    default fetch (customFetch this) (api this)
      (requestOf JSON_stringify this resolved options) in
  (forall r, outcome = Resolved r ->
     exists resolved response stream,
       resolvedHeaders this = Some resolved
       /\ called resolved = Some response
       /\ response_ok response = true
       /\ response_body response = Some stream
       /\ r = processResponseStream JSON_parse ToString applySpecStreamPatch
                h stream)
  /\ (forall m, outcome = ThrownError m ->
        m <> []
        /\ exists resolved response,
             resolvedHeaders this = Some resolved
             /\ called resolved = Some response
             /\ (if response_ok response
                 then response_body response = None
                      /\ m = str "The response body is empty."
                 else response_text response = Some m
                      \/ (response_text response = Some []
                          /\ m = str "Failed to fetch the chat response."))).
Proof.
  intros outcome called. subst outcome called. unfold sendMessages.
  destruct (resolvedHeaders this) as [resolved|]; [|by split].
  destruct (default fetch (customFetch this) (api this) _)
    as [response|] eqn:Ef; [|by split].
  destruct (response_ok response) eqn:Eok; cbn [negb].
  - destruct (response_body response) as [stream|] eqn:Eb; split; try done.
    + intros r [= <-]. exists resolved, response, stream. by rewrite Eok.
    + intros m [= <-]. split; [done|]. exists resolved, response.
      by rewrite Eok.
  - destruct (response_text response) as [[|c t]|] eqn:Et; split; try done.
    + intros m [= <-]. split; [done|]. exists resolved, response.
      rewrite Eok. auto.
    + intros m [= <-]. split; [done|]. exists resolved, response.
      rewrite Eok. auto.
Qed.

Lemma sendMessages_settles_witness :
  let outcome := sendMessages Json.parse Ecma.ToString
                   JsonRender.applySpecStreamPatch (fun _ => []) Samples.failing_fetch
                   [] Samples.transport Samples.options in
  outcome = ThrownError (str "Failed to fetch the chat response.")
  /\ str "Failed to fetch the chat response." <> [].
Proof.
  intros outcome. split; [by vm_compute|].
  exact (proj1 (proj2 (sendMessages_settles unit Json.parse Ecma.ToString
                         JsonRender.applySpecStreamPatch (fun _ => [])
                         Samples.failing_fetch [] Samples.transport
                         Samples.options)
                  (str "Failed to fetch the chat response.")
                  ltac:(by vm_compute))).
Defined.

(** ** Properties of the prompts *)

(** X20. The user prompt is the prompt of the library followed by an
    empty line and by the two rules of the transport, each on a line of
    its own, and these are its last lines whatever the prompt of the
    library is. *)
Theorem createUserPrompt_lines (UserPromptOptions : Type)
    (buildUserPrompt : UserPromptOptions -> jstring)
    (options : UserPromptOptions) :
  split_nl (createUserPrompt UserPromptOptions buildUserPrompt options)
  = split_nl (buildUserPrompt options) ++ [] :: STREAMUI_RULES
  /\ Forall (fun rule => nl ∉ rule) STREAMUI_RULES
  /\ length STREAMUI_RULES = 2%nat.
Proof.
  split; [|split; [|done]].
  - unfold createUserPrompt.
    change ([nl; nl] ++ join [nl] STREAMUI_RULES)
      with (nl :: nl :: join [nl] STREAMUI_RULES).
    rewrite split_nl_app. reflexivity.
  - repeat constructor; intros H; apply list_elem_of_In in H;
      vm_compute in H; intuition discriminate.
Qed.

(** ** The texts of a segment and the current Document over a run *)

Lemma segment_texts_app (k : nat) (q q' : list OutChunk) :
  segment_texts k (q ++ q') = segment_texts k q ++ segment_texts k q'.
Proof. apply omap_app. Qed.

Lemma segment_texts_none (k : nat) (q : list OutChunk) :
  ~ has_segment q k -> segment_texts k q = [].
Proof.
  unfold has_segment, segment_texts. induction q as [|c q IH]; [done|].
  intros H. cbn [omap list_omap].
  assert (Hq : ¬ (∃ t, DataUIText k t ∈ q)).
  { intros [t Ht]. apply H. exists t. by right. }
  destruct c as [l|i t|v]; [by apply IH| |by apply IH].
  destruct (decide (i = k)) as [->|_]; [|by apply IH].
  destruct H. exists t. by left.
Qed.

Lemma grows_snoc (texts : list jstring) (t' : jstring) :
  grows texts ->
  match last texts with
  | Some t => exists more, more <> [] /\ t' = t ++ more
  | None => True
  end ->
  grows (texts ++ [t']).
Proof.
  induction texts as [|t r IH]; [done|]. destruct r as [|t2 r'].
  - cbn. auto.
  - intros [Hext Hr] Hl. rewrite last_cons_cons in Hl.
    change (grows ((t :: t2 :: r') ++ [t']))
      with ((exists more, more <> [] /\ t2 = t ++ more)
            /\ grows ((t2 :: r') ++ [t'])).
    split; [done|]. by apply IH.
Qed.

Lemma grows_lookup (texts : list jstring) (i : nat) (t t' : jstring) :
  grows texts -> texts !! i = Some t -> texts !! S i = Some t' ->
  exists more, more <> [] /\ t' = t ++ more.
Proof.
  revert i. induction texts as [|t0 r IH]; intros i Hg Hi Hi'; [done|].
  destruct r as [|t2 r']; [done|]. destruct Hg as [Hext Hr].
  destruct i as [|i].
  - cbn in Hi, Hi'. by simplify_eq.
  - by apply (IH i).
Qed.

Section TransportTexts.

Variable JSON_parse : jstring -> option value.
Variable ToString : option value -> option jstring.
Variable applySpecStreamPatch : heap -> loc -> value -> heap * bool.

Lemma texts_grow_splitTextSegment (st : state) :
  texts_grow st -> texts_grow (splitTextSegment st).
Proof.
  intros (Hok & Hg & Hl).
  split; [by apply segments_ok_splitTextSegment|].
  rewrite queue_splitTextSegment. split; [done|].
  unfold splitTextSegment. destruct (currentSegmentText st) as [|c t] eqn:E.
  - by rewrite E.
  - cbn [segmentIndex currentSegmentText].
    rewrite segment_texts_none; [done|].
    destruct Hok as [Hseg _]. rewrite Hseg. unfold open_segments.
    rewrite E. lia.
Qed.

Lemma texts_grow_applyPatchItem (st : state) (data : value) :
  texts_grow st -> texts_grow (applyPatchItem applySpecStreamPatch st data).1.
Proof.
  intros H. pose proof (segments_ok_applyPatchItem applySpecStreamPatch st data
                          (proj1 H)) as Hok'.
  apply texts_grow_splitTextSegment in H. destruct H as (_ & Hg & Hl).
  rewrite queue_splitTextSegment in Hg, Hl.
  destruct (applyPatchItem_fields applySpecStreamPatch st data)
    as (_ & Hi & Hc & Hq).
  split; [done|]. rewrite Hi, Hc.
  assert (Ht : currentSegmentText (splitTextSegment st) = []).
  { unfold splitTextSegment. by destruct (currentSegmentText st) eqn:E. }
  rewrite Ht in Hl.
  destruct Hq as [->|[m ->]]; [done|].
  split.
  - intros k. rewrite segment_texts_app. cbn. by rewrite app_nil_r.
  - rewrite segment_texts_app. cbn. by rewrite app_nil_r.
Qed.

Lemma texts_grow_emitUIText (st : state) (text : jstring) :
  texts_grow st -> text <> [] -> texts_grow (emitUIText st text).
Proof.
  intros (Hok & Hg & Hl) Ht.
  split; [by apply segments_ok_emitUIText|].
  cbn [emitUIText queue segmentIndex currentSegmentText].
  assert (Hsame : segment_texts (segmentIndex st)
                    [DataUIText (segmentIndex st) (currentSegmentText st ++ text)]
                  = [currentSegmentText st ++ text]).
  { unfold segment_texts. cbn [omap list_omap].
    by destruct (decide (segmentIndex st = segmentIndex st)). }
  split.
  - intros k. rewrite segment_texts_app.
    destruct (decide (k = segmentIndex st)) as [->|Hk].
    + rewrite Hsame. apply grows_snoc; [done|]. rewrite Hl.
      destruct (currentSegmentText st); [done|]. eauto.
    + unfold segment_texts at 2. cbn [omap list_omap].
      destruct (decide (segmentIndex st = k)); [congruence|].
      by rewrite app_nil_r.
  - rewrite segment_texts_app, Hsame, last_snoc.
    destruct (currentSegmentText st ++ text) eqn:E; [|done].
    by apply app_eq_nil in E as [_ ?].
Qed.

Lemma texts_grow_run (h : heap) (src : source) :
  texts_grow
    (processResponseStream JSON_parse ToString applySpecStreamPatch h src).1.
Proof.
  apply processResponseStream_invariant.
  { split; [apply segments_ok_initialState|]. by destruct (newSpec h). }
  apply processLine_invariant.
  - done.
  - apply texts_grow_splitTextSegment.
  - apply texts_grow_applyPatchItem.
  - apply texts_grow_emitUIText.
  - intros st chunk (Hok & Hg & Hl) _ _ _ _.
    split; [apply segments_ok_enqueue; [by intros []|done]|].
    cbn [enqueue queue segmentIndex currentSegmentText]. split.
    + intros k. rewrite segment_texts_app. cbn. by rewrite app_nil_r.
    + rewrite segment_texts_app. cbn. by rewrite app_nil_r.
Qed.

Lemma current_is_announced_run (h : heap) (src : source) :
  current_is_announced (currentSpec (initialState h))
    (processResponseStream JSON_parse ToString applySpecStreamPatch h src).1.
Proof.
  apply processResponseStream_invariant; [by destruct (newSpec h)|].
  apply processLine_invariant; unfold current_is_announced.
  - done.
  - intros st H. rewrite queue_splitTextSegment.
    unfold splitTextSegment. by destruct (currentSegmentText st).
  - intros st data H.
    destruct (applyPatchItem_applySpecPatch applySpecStreamPatch st data)
      as (_ & Hq & Hc).
    destruct (applyPatchItem applySpecStreamPatch st data) as [st' [|]];
      cbn [fst snd] in *.
    + rewrite Hq by done. unfold documents. rewrite omap_app.
      cbn [omap list_omap]. by rewrite app_comm_cons, last_snoc.
    + destruct (Hc eq_refl) as [-> ->]. done.
  - intros st text H _. cbn [emitUIText queue currentSpec]. unfold documents.
    rewrite omap_app. cbn [omap list_omap]. by rewrite app_nil_r.
  - intros st chunk H _ _ _ _. cbn [enqueue queue currentSpec].
    unfold documents. rewrite omap_app. cbn [omap list_omap].
    by rewrite app_nil_r.
Qed.

End TransportTexts.

(** X21. The consumer is never behind: over a whole run, however the
    body ends and whether or not patches fail, the Document that the
    transport holds is the one of the last [data-ui] chunk enqueued, or
    the empty Document of the start when none has been enqueued. *)
Theorem announced_document_is_current
    (JSON_parse : jstring -> option value)
    (ToString : option value -> option jstring)
    (applySpecStreamPatch : heap -> loc -> value -> heap * bool)
    (h : heap) (src : source) :
  let st := (processResponseStream JSON_parse ToString applySpecStreamPatch
               h src).1 in
  last (currentSpec (initialState h) :: documents (queue st))
  = Some (currentSpec st).
Proof. apply current_is_announced_run. Qed.

(** X22. Within a segment the text only grows: over a whole run, of two
    text chunks of the same segment enqueued one after the other, the
    later carries the text of the earlier with at least one character
    appended; and while a segment is open, its last chunk carries the
    whole text accumulated, and a segment that is not open has no chunk
    under the index the counter is at. *)
Theorem segment_texts_grow
    (JSON_parse : jstring -> option value)
    (ToString : option value -> option jstring)
    (applySpecStreamPatch : heap -> loc -> value -> heap * bool)
    (h : heap) (src : source) :
  let st := (processResponseStream JSON_parse ToString applySpecStreamPatch
               h src).1 in
  (forall (k i : nat) (t t' : jstring),
      segment_texts k (queue st) !! i = Some t ->
      segment_texts k (queue st) !! S i = Some t' ->
      exists more, more <> [] /\ t' = t ++ more)
  /\ last (segment_texts (segmentIndex st) (queue st))
     = match currentSegmentText st with
       | [] => None
       | _ :: _ => Some (currentSegmentText st)
       end.
Proof.
  intros st.
  destruct (texts_grow_run JSON_parse ToString applySpecStreamPatch h src)
    as (_ & Hg & Hl).
  split; [|exact Hl]. intros k i t t'. apply grows_lookup, Hg.
Qed.

(** ** Text lines and blank lines *)

Section TransportBlankLines.

Variable JSON_parse : jstring -> option value.
Variable ToString : option value -> option jstring.
Variable applySpecStreamPatch : heap -> loc -> value -> heap * bool.

(** Lines of which none is a patch give one text item for each line
    that is not blank. *)
Lemma text_lines_items (lines : list jstring) :
  (forall l v, l ∈ lines -> parseSpecLine JSON_parse l <> Some (Patch v)) ->
  omap (parseSpecLine JSON_parse) lines
  = map Text (filter (fun l => trim l <> []) lines).
Proof.
  induction lines as [|l r IH]; intros H; [done|].
  cbn [omap list_omap]. rewrite filter_cons.
  assert (Hr : omap (parseSpecLine JSON_parse) r
               = map Text (filter (fun l => trim l <> []) r)).
  { apply IH. intros l' v Hin. apply H. by right. }
  fold (omap (parseSpecLine JSON_parse) r). rewrite Hr.
  destruct (decide (trim l <> [])) as [Hne|Hb].
  - destruct (parseSpecLine_is_Some JSON_parse l Hne) as [pl Epl].
    rewrite Epl.
    destruct (parseSpecLine_cases _ _ _ Epl) as [->|(v & _ & -> & _)];
      [done|].
    destruct (H l v); [by left|done].
  - assert (Hb' : trim l = []) by (by destruct (trim l); [|destruct Hb]).
    by rewrite parseSpecLine_blank.
Qed.

Lemma processItems_texts (contents : list jstring) (st : state) :
  let st' := (processItems applySpecStreamPatch st (map Text contents)).1 in
  currentSegmentText st' = currentSegmentText st ++ unlines contents []
  /\ segmentIndex st' = segmentIndex st
  /\ length (queue st') = (length (queue st) + length contents)%nat.
Proof.
  revert st. induction contents as [|c r IH]; intros st.
  - cbn. unfold unlines. cbn. rewrite !app_nil_r. split; [done|]. split; [done|lia].
  - cbn [map processItems]. destruct (IH (emitUIText st (c ++ [nl])))
      as (H1 & H2 & H3).
    cbn zeta. rewrite H1, H2, H3. cbn [emitUIText currentSegmentText
      segmentIndex queue]. unfold unlines. cbn [flat_map].
    rewrite length_app, <- !app_assoc. cbn [length]. split; [done|].
    split; [done|lia].
Qed.

End TransportBlankLines.

(** X23. Text lines keep their white space and lose their blank lines:
    when none of the lines that a delta completes is a patch, the text of
    the open segment grows by each of these lines that is not blank,
    exactly as it came and followed by one terminator; a line that is
    empty or all white space adds nothing, so an empty line between two
    paragraphs is not in the text; one chunk is enqueued for each line
    that is not blank, and the segment stays the same. *)
Theorem blank_lines_are_dropped
    (JSON_parse : jstring -> option value)
    (ToString : option value -> option jstring)
    (applySpecStreamPatch : heap -> loc -> value -> heap * bool)
    (st : state) (chunk : value) (delta : jstring) :
  type_is chunk "text-delta" = true ->
  field chunk (str "delta") = Some (VStr delta) ->
  let lines := (takeLines (specBuffer st) delta).1 in
  let kept := filter (fun l => trim l <> []) lines in
  (forall l v, l ∈ lines -> parseSpecLine JSON_parse l <> Some (Patch v)) ->
  let st' := handleChunk JSON_parse ToString applySpecStreamPatch st chunk in
  currentSegmentText st' = currentSegmentText st ++ unlines kept []
  /\ segmentIndex st' = segmentIndex st
  /\ length (queue st') = (length (queue st) + length kept)%nat.
Proof.
  intros Ht Hd lines kept Hlines st'.
  assert (E : st' = (processItems applySpecStreamPatch
                       (set_specBuffer st (takeLines (specBuffer st) delta).2)
                       (map Text kept)).1).
  { subst st'. rewrite handleChunk_text_delta by done.
    rewrite (onTextDelta_string _ _ _ _ _ _ Hd), processChunk_lines.
    cbn [fst snd]. by rewrite text_lines_items. }
  rewrite E. apply (processItems_texts applySpecStreamPatch kept
                      (set_specBuffer st (takeLines (specBuffer st) delta).2)).
Qed.

Lemma blank_lines_are_dropped_witness :
  let chunk := parsed "{'type':'text-delta','id':'t','delta':'One\n\n  \n Two \n'}" in
  let delta := str "One" ++ [nl; nl] ++ str "  " ++ [nl] ++ str " Two " ++ [nl] in
  type_is chunk "text-delta" = true
  /\ field chunk (str "delta") = Some (VStr delta)
  /\ filter (fun l => trim l <> []) (takeLines [] delta).1 = [str "One"; str " Two "]
  /\ currentSegmentText
       (handleChunk Json.parse Ecma.ToString JsonRender.applySpecStreamPatch
          (initialState []) chunk)
     = [] ++ unlines (filter (fun l => trim l <> []) (takeLines [] delta).1) [].
Proof.
  intros chunk delta.
  split; [by vm_compute|]. split; [by vm_compute|]. split; [by vm_compute|].
  refine (proj1 (blank_lines_are_dropped Json.parse Ecma.ToString
                   JsonRender.applySpecStreamPatch (initialState []) chunk delta
                   ltac:(by vm_compute) ltac:(by vm_compute) _)).
  intros l v Hl.
  change (takeLines (specBuffer (initialState [])) delta).1
    with (takeLines [] delta).1 in Hl.
  assert (E : (takeLines [] delta).1
              = [str "One"; []; str "  "; str " Two "]) by (by vm_compute).
  rewrite E in Hl.
  repeat (apply elem_of_cons in Hl as [->|Hl]; [by vm_compute|]).
  by apply elem_of_nil in Hl.
Defined.

(** ** Paths that count for the root, and the ids of chunks *)

Lemma startsWith_prefix (s p : jstring) :
  startsWith s p = true <-> exists r, s = p ++ r.
Proof.
  revert s. induction p as [|c p IH]; intros s.
  - split; [intros _; by exists s|by destruct s].
  - destruct s as [|d s]; cbn [startsWith].
    + split; [done|]. by intros [r Hr].
    + rewrite andb_true_iff, IH, N.eqb_eq. split.
      * intros [-> [r ->]]. by exists r.
      * intros [r [= -> ->]]. split; [done|]. by exists r.
Qed.

Lemma buildSpec_step_key
    (applySpecStreamPatch : heap -> loc -> value -> heap * bool)
    (h : heap) (spec : loc) (p : SpecPatch) :
  (buildSpec_step applySpecStreamPatch (h, Some spec, None) p).2
  = directElementKey p.
Proof.
  cbn [buildSpec_step]. unfold directElementKey.
  destruct (applySpecPatch applySpecStreamPatch h spec (SpecPatch_object p))
    as [h' r].
  cbn [snd key_falsy].
  destruct (directElementPath (path p)) as [m|]; by destruct (op p).
Qed.

(** The regular expression of [buildSpec] and the test on the
    operation, spelled out. *)
Lemma directElementKey_spec (p : SpecPatch) (key : jstring) :
  directElementKey p = Some key
  <-> ((op p = OpAdd \/ op p = OpReplace)
       /\ path p = str "/elements/" ++ key
       /\ key <> [] /\ (slash ∉ key)).
Proof.
  unfold directElementKey. split.
  - assert (H : slice_from 10 <$> directElementPath (path p) = Some key ->
                path p = str "/elements/" ++ key /\ key <> [] /\ slash ∉ key).
    { destruct (directElementPath (path p)) as [m|] eqn:E; [|done].
      intros [= <-].
      apply directElementPath_key in E as (-> & Hne & Hs & Hsl).
      apply startsWith_prefix in Hs as [r Hr]. rewrite Hr in *.
      change (slice_from 10 (str "/elements/" ++ r)) with r in *. done. }
    destruct (op p); try done; intros Hk; (split; [auto|by apply H]).
  - intros (Hop & Hpath & Hne & Hsl).
    assert (E : directElementPath (path p) = Some (path p)).
    { unfold directElementPath. rewrite Hpath, startsWith_app.
      change (slice_from 10 (str "/elements/" ++ key)) with key.
      unfold jstring_eqb. rewrite bool_decide_eq_false_2 by done.
      cbn [negb andb].
      assert (Hf : forallb (fun c => negb (c =? slash)) key = true).
      { apply forallb_forall. intros c Hc. apply list_elem_of_In in Hc.
        destruct (N.eqb_spec c slash) as [->|]; [done|done]. }
      by rewrite Hf. }
    rewrite E, Hpath. cbn [fmap option_fmap option_map].
    change (slice_from 10 (str "/elements/" ++ key)) with key.
    by destruct Hop as [-> | ->].
Qed.

(** X24. The patches that count for the inferred root are those that
    add or replace an element itself: as long as no key has been kept,
    the loop of [buildSpec] keeps the key of a patch exactly when its
    operation is [add] or [replace] and its path is [/elements/] followed
    by an id that is not empty and holds no slash, and the key is that
    id. A path below an element, a path with a
    slash at its end, the path [/elements] itself and every other
    operation do not count. *)
Theorem direct_element_paths (p : SpecPatch) :
  (forall (applySpecStreamPatch : heap -> loc -> value -> heap * bool)
          (h : heap) (spec : loc),
      (buildSpec_step applySpecStreamPatch (h, Some spec, None) p).2
      = directElementKey p)
  /\ forall key : jstring,
       directElementKey p = Some key
       <-> ((op p = OpAdd \/ op p = OpReplace)
            /\ path p = str "/elements/" ++ key
            /\ key <> [] /\ (slash ∉ key)).
Proof.
  split.
  - intros f h spec. apply buildSpec_step_key.
  - intros key. apply directElementKey_spec.
Qed.

(** X25. The [id] of a chunk tells what it replaces: two text chunks
    have the same [id] exactly when they belong to the same segment, and
    likewise for [segmentId]; no text chunk has the [id] of a [data-ui]
    chunk. *)
Theorem chunk_ids_identify_segments (k k' : nat) (t t' : jstring) (l : loc) :
  (chunk_id (DataUIText k t) = chunk_id (DataUIText k' t') <-> k = k')
  /\ (segmentId k = segmentId k' <-> k = k')
  /\ chunk_id (DataUIText k t) <> chunk_id (DataUI l).
Proof.
  destruct (segment_ids_inj k k' t t') as [H1 H2].
  split; [|split].
  - split; [exact H1|by intros ->].
  - split; [exact H2|by intros ->].
  - cbn [chunk_id]. by intros [=].
Qed.

(** * The line buffer, the text lines and the inferred root: what the
      code does *)

(** ** What the line buffer yields *)

(** The items of some lines are those of the lines that are not blank,
    one each, in order: the line itself as text, or the patch it parses
    to. *)
Lemma classified_lines (JSON_parse : jstring -> option value)
    (lines : list jstring) :
  Forall2 (fun l item =>
             item = Text l
             \/ exists v, JSON_parse (trim l) = Some v /\ item = Patch v
                  /\ truthy (field v (str "op")) = true
                  /\ truthy (field v (str "path")) = true)
    (filter (fun l => trim l <> []) lines)
    (omap (parseSpecLine JSON_parse) lines).
Proof.
  induction lines as [|l r IH]; [by constructor|].
  rewrite filter_cons. cbn [omap list_omap].
  fold (omap (parseSpecLine JSON_parse) r).
  destruct (decide (trim l <> [])) as [Hne|Hb].
  - destruct (parseSpecLine_is_Some JSON_parse l Hne) as [pl Epl].
    rewrite Epl. constructor; [|exact IH].
    by apply parseSpecLine_cases.
  - assert (Hb' : trim l = []) by (by destruct (trim l); [|destruct Hb]).
    by rewrite parseSpecLine_blank.
Qed.

(** C3, as the specification words it, fails: the buffer does not yield
    one line for each terminator. On the chunk of the test [skips empty
    lines], which holds four terminators, [processChunk] yields one item,
    and that item is the parsed patch, not the text of the line; and a
    [flush] of a buffer that holds white space only returns nothing but
    does not clear the buffer. *)
Lemma line_count_counterexample :
  let chunk := [nl; nl] ++ line set_root ++ [nl] in
  count_nl chunk = 4%nat
  /\ (processChunk Json.parse new_SpecStreamBuffer chunk).1
     = [Patch (parsed set_root)]
  /\ length (processChunk Json.parse new_SpecStreamBuffer chunk).1
     <> count_nl chunk
  /\ flush Json.parse (str "  ") = (None, str "  ")
  /\ (flush Json.parse (str "  ")).2 <> [].
Proof. by vm_compute. Qed.

(** C3, amended. The fragments pushed into the buffer are cut at the
    line terminators and nowhere else: with [N] terminators in their
    concatenation, [split] cuts exactly [N] complete lines, in order, free
    of terminators, and putting the terminators back and appending the
    buffered rest gives the text that was pushed. What the pushes yield
    is not these lines but their classification: no item for a line that
    is blank, and for every other line one item, in order, which is the
    line exactly as it came, as text, or the value that the trimmed line
    parses to, as a patch. So the pushes yield as many items as there are
    complete lines that are not blank, at most [N]. [flush] returns
    nothing and leaves the buffer as it is when the buffer trims to
    nothing; otherwise it returns the classified buffer (the buffer itself
    as text, or the patch it parses to) and empties the buffer. *)
Theorem line_buffer_yields_classified_lines
    (JSON_parse : jstring -> option value) (frags : list jstring) :
  let text := concat frags in
  let lines := removelast (split_nl text) in
  let items := concat (pushes JSON_parse new_SpecStreamBuffer frags).1 in
  let rest := (pushes JSON_parse new_SpecStreamBuffer frags).2 in
  length lines = count_nl text
  /\ text = unlines lines rest
  /\ Forall (fun l => nl ∉ l) lines
  /\ (nl ∉ rest)
  /\ items = omap (parseSpecLine JSON_parse) lines
  /\ Forall2 (fun l item =>
                item = Text l
                \/ exists v, JSON_parse (trim l) = Some v /\ item = Patch v
                     /\ truthy (field v (str "op")) = true
                     /\ truthy (field v (str "path")) = true)
       (filter (fun l => trim l <> []) lines) items
  /\ length items = length (filter (fun l => trim l <> []) lines)
  /\ (length items <= count_nl text)%nat
  /\ (forall buffer, trim buffer = [] ->
        flush JSON_parse buffer = (None, buffer))
  /\ (forall buffer, trim buffer <> [] ->
        exists pl, flush JSON_parse buffer = (Some pl, [])
          /\ (pl = Text buffer
              \/ exists v, JSON_parse (trim buffer) = Some v /\ pl = Patch v)).
Proof.
  intros text lines items rest.
  destruct (pushedLines_spec frags []) as (E & Hl & Hr).
  specialize (Hr (not_elem_of_nil _)). cbn [app] in E.
  assert (Elines : lines = concat (pushedLines [] frags).1).
  { subst lines text. by rewrite E, split_nl_unlines, removelast_last. }
  assert (Erest : rest = (pushedLines [] frags).2).
  { subst rest. unfold new_SpecStreamBuffer. by rewrite pushes_pushedLines. }
  assert (Eitems : items = omap (parseSpecLine JSON_parse) lines).
  { subst items. unfold new_SpecStreamBuffer.
    by rewrite pushes_pushedLines, Elines, omap_concat. }
  assert (Hlen : length lines = count_nl text).
  { subst text. by rewrite E, Elines, count_nl_unlines. }
  pose proof (classified_lines JSON_parse lines) as Hc.
  rewrite <- Eitems in Hc.
  split; [exact Hlen|]. split; [by rewrite Elines, Erest|].
  split; [by rewrite Elines|]. split; [by rewrite Erest|].
  split; [exact Eitems|]. split; [exact Hc|].
  split; [symmetry; by eapply Forall2_length|].
  split.
  { rewrite <- (Forall2_length _ _ _ Hc), <- Hlen. apply length_filter. }
  split; [apply flush_blank|].
  intros buffer Hb. rewrite (flush_content _ _ Hb).
  destruct (parseSpecLine_is_Some JSON_parse buffer Hb) as [pl Epl].
  exists pl. rewrite Epl. split; [done|].
  destruct (parseSpecLine_cases _ _ _ Epl) as [->|(v & Ev & -> & _)]; eauto.
Qed.

Lemma line_buffer_yields_classified_lines_witness :
  trim (str "tail") <> []
  /\ concat (pushes Json.parse new_SpecStreamBuffer
               [str "Hel"; line "lo" ++ [nl]; line set_root ++ str "tail"]).1
     = [Text (str "Hello"); Patch (parsed set_root)]
  /\ exists pl, flush Json.parse (str "tail") = (Some pl, [])
       /\ (pl = Text (str "tail")
           \/ exists v, Json.parse (trim (str "tail")) = Some v /\ pl = Patch v).
Proof.
  split; [by vm_compute|]. split; [by vm_compute|].
  exact (proj2 (proj2 (proj2 (proj2 (proj2 (proj2 (proj2 (proj2 (proj2
           (line_buffer_yields_classified_lines Json.parse
              [str "Hel"; line "lo" ++ [nl];
               line set_root ++ str "tail"])))))))))
           (str "tail") ltac:(by vm_compute)).
Defined.

(** ** Text lines, and the lines after a patch that fails *)

(** C6. The items of a delta are handled one after the other. A text
    item that is reached, wherever it stands among the items and
    whatever patches were applied before it, is appended with one
    terminator to the text of the open segment, and a chunk is enqueued
    and stays in the queue that carries the index of that segment and the
    whole text accumulated so far; when no segment is open the index has
    not been used before. A patch that applies does not end the delta;
    a patch that fails does: the items after it are not reached, so their
    text lines are never announced, and nothing is enqueued for them. The
    text that a [text-end] flushes is the buffer as it is; it is appended
    without a terminator and announced in one chunk, after which the
    segment is closed and its chunks stay as they are. On the stream
    that sends the lines [Before] and [After] with a patch between them
    whose path is a number, [Before] is announced and [After] is lost;
    without the failing line both are announced, and after a patch that
    applies the text line is announced. *)
Theorem text_lines_accumulate_until_a_patch_fails :
  (forall (JSON_parse : jstring -> option value)
          (ToString : option value -> option jstring)
          (applySpecStreamPatch : heap -> loc -> value -> heap * bool)
          (st : state),
      (forall chunk delta,
          type_is chunk "text-delta" = true ->
          field chunk (str "delta") = Some (VStr delta) ->
          handleChunk JSON_parse ToString applySpecStreamPatch st chunk
          = (processItems applySpecStreamPatch
               (set_specBuffer st
                  (processChunk JSON_parse (specBuffer st) delta).2)
               (processChunk JSON_parse (specBuffer st) delta).1).1)
      /\ (forall (before : list ParsedLine) (content : jstring)
                 (after : list ParsedLine),
            (processItems applySpecStreamPatch st before).2 = true ->
            let st1 := (processItems applySpecStreamPatch st before).1 in
            let st2 := emitUIText st1 (content ++ [nl]) in
            let announced :=
              DataUIText (segmentIndex st1)
                (currentSegmentText st1 ++ content ++ [nl]) in
            processItems applySpecStreamPatch st
              (before ++ Text content :: after)
            = processItems applySpecStreamPatch st2 after
            /\ segmentIndex st2 = segmentIndex st1
            /\ currentSegmentText st2
               = currentSegmentText st1 ++ content ++ [nl]
            /\ queue st2 = queue st1 ++ [announced]
            /\ (segments_ok st1 -> currentSegmentText st1 = [] ->
                ~ has_segment (queue st1) (segmentIndex st1))
            /\ announced
               ∈ queue (processItems applySpecStreamPatch st
                          (before ++ Text content :: after)).1)
      /\ (forall (before : list ParsedLine) (data : value)
                 (after : list ParsedLine),
            (processItems applySpecStreamPatch st before).2 = true ->
            let st1 := (processItems applySpecStreamPatch st before).1 in
            processItems applySpecStreamPatch st
              (before ++ Patch data :: after)
            = (if (applyPatchItem applySpecStreamPatch st1 data).2
               then processItems applySpecStreamPatch
                      (applyPatchItem applySpecStreamPatch st1 data).1 after
               else ((applyPatchItem applySpecStreamPatch st1 data).1, false))
            /\ ((applyPatchItem applySpecStreamPatch st1 data).2 = false ->
                queue (processItems applySpecStreamPatch st
                         (before ++ Patch data :: after)).1
                = queue st1))
      /\ (forall chunk content buffer' lines,
            type_is chunk "text-end" = true ->
            flush JSON_parse (specBuffer st) = (Some (Text content), buffer') ->
            let st' := handleChunk JSON_parse ToString applySpecStreamPatch
                         st chunk in
            content = specBuffer st
            /\ queue st' = queue st ++ [DataUIText (segmentIndex st)
                                         (currentSegmentText st ++ content)]
            /\ segmentIndex st' = S (segmentIndex st)
            /\ currentSegmentText st' = []
            /\ specBuffer st' = []
            /\ segment_texts (segmentIndex st)
                 (queue (foldl (processLine JSON_parse ToString
                                  applySpecStreamPatch) st' lines))
               = segment_texts (segmentIndex st) (queue st')))
  /\ (let failing := [text_delta (str "t")
                        (line "Before" ++ line no_path ++ line "After");
                      text_end (str "t")] in
      let sound := [text_delta (str "t") (line "Before" ++ line "After");
                    text_end (str "t")] in
      let applying := [text_delta (str "t") (line set_root ++ line "After");
                       text_end (str "t")] in
      parseSpecLine Json.parse (js no_path) = Some (Patch (parsed no_path))
      /\ seen failing = [SeenText 0 (line "Before")]
      /\ (run failing).2 = Closed
      /\ seen sound = [SeenText 0 (line "Before");
                       SeenText 0 (line "Before" ++ line "After")]
      /\ seen applying
         = [SeenUI (Some (Some (VObj [(str "root", VStr (str "card1"));
                                      (str "elements", VObj [])])));
            SeenText 0 (line "After")]).
Proof.
  split; [|by vm_compute].
  intros JSON_parse ToString f st. split; [|split; [|split]].
  - intros chunk delta Ht Hd.
    rewrite handleChunk_text_delta by done. by apply onTextDelta_string.
  - intros before content after Hok st1 st2 announced.
    assert (E : processItems f st (before ++ Text content :: after)
                = processItems f st2 after).
    { rewrite processItems_app, Hok. done. }
    split; [exact E|]. split; [done|]. split; [done|]. split; [done|].
    split; [apply segment_opened|].
    rewrite E.
    destruct (advances_processItems f after st2) as (_ & new & -> & _).
    apply elem_of_app. left. cbn [st2 emitUIText queue].
    apply elem_of_app. right. by left.
  - intros before data after Hok st1. split.
    + rewrite processItems_app, Hok. fold st1. cbn [processItems].
      by destruct (applyPatchItem f st1 data) as [st' [|]].
    + intros Hfail. rewrite processItems_app, Hok. fold st1.
      cbn [processItems].
      destruct (applyPatchItem_applySpecPatch f st1 data) as (_ & _ & Hq).
      destruct (applyPatchItem f st1 data) as [st' [|]];
        cbn [fst snd] in *; [done|].
      by destruct (Hq eq_refl).
  - intros chunk content buffer' lines Ht Hf.
    rewrite handleChunk_text_end by done.
    by eapply text_end_flushes_text.
Qed.

Lemma text_lines_accumulate_until_a_patch_fails_witness :
  let f := JsonRender.applySpecStreamPatch in
  let before := [Text (str "Before"); Patch (parsed set_root)] in
  (processItems f (initialState []) before).2 = true
  /\ queue (processItems f (initialState [])
              (before ++ Text (str "After") :: [])).1
     = [DataUIText 0 (line "Before"); DataUI 3; DataUIText 1 (line "After")]
  /\ DataUIText 1 ([] ++ str "After" ++ [nl])
     ∈ queue (processItems f (initialState [])
                (before ++ Text (str "After") :: [])).1.
Proof.
  intros f before. split; [by vm_compute|]. split; [by vm_compute|].
  exact (proj2 (proj2 (proj2 (proj2 (proj2
           (proj1 (proj2 (proj1 text_lines_accumulate_until_a_patch_fails
                            Json.parse Ecma.ToString f (initialState [])))
              before (str "After") [] ltac:(by vm_compute))))))).
Defined.

(** ** The inferred root is the text of the path *)

(** A segment without a tilde is its own decoding. *)
Lemma unescape_plain (key : jstring) :
  126 ∉ key -> JsonRender.unescape key = key.
Proof.
  induction key as [|c r IH]; [done|]. intros H.
  apply not_elem_of_cons in H as [Hc Hr]. specialize (IH Hr).
  destruct c as [|p]; [cbn; by rewrite IH|].
  do 7 (try (destruct p as [p|p|]; try (cbn; by rewrite IH))).
Qed.

(** C7. [buildSpec] folds the patches from the empty Document, the result
    of one application being the Document of the next. When the root is
    still empty afterwards and some patch counted, the root becomes the
    key of the first patch that counted; otherwise the folded Document is
    returned as it is. A patch counts exactly when its operation is [add]
    or [replace] and its path is [/elements/] followed by one segment
    that is not empty and holds no slash, and its key is that segment as
    it is written in the path. The key is the id of the entry when the
    segment holds no tilde; it is not when the segment holds a pointer
    escape, which the patch library decodes and [buildSpec] does not: the
    patch that adds the element [b/c], written [/elements/b~1c], gives a
    Document whose root is [b~1c] and whose only element is [b/c], so the
    root names no element. No patch at all gives the empty Document, and
    the one patch that adds [card1] gives a Document whose root is
    [card1]. *)
Theorem build_infers_root_from_raw_path :
  (forall applySpecStreamPatch (h : heap) (patches : list SpecPatch)
          (h' : heap) (spec : loc),
      buildSpec applySpecStreamPatch h patches = (h', Some spec) ->
      exists hl,
        applyAll applySpecStreamPatch ((newSpec h).1, Some (newSpec h).2) patches
          = (hl, Some spec)
        /\ (if hval_truthy (get_prop hl spec (str "root")) then h' = hl
            else match head (omap directElementKey patches) with
                 | Some k =>
                     k <> [] /\ h' = set_prop hl spec (str "root") (HStr k)
                     /\ forall props, hl !! spec = Some (CObj props) ->
                          get_prop h' spec (str "root") = Some (HStr k)
                 | None => h' = hl
                 end))
  /\ (forall (p : SpecPatch) (key : jstring),
        directElementKey p = Some key
        <-> ((op p = OpAdd \/ op p = OpReplace)
             /\ path p = str "/elements/" ++ key
             /\ key <> [] /\ (slash ∉ key)))
  /\ (forall applySpecStreamPatch (h : heap) (spec : loc) (p : SpecPatch),
        (buildSpec_step applySpecStreamPatch (h, Some spec, None) p).2
        = directElementKey p)
  /\ (forall key : jstring, 126 ∉ key -> JsonRender.unescape key = key)
  /\ (forall applySpecStreamPatch (h : heap),
        buildSpec applySpecStreamPatch h [] = ((newSpec h).1, Some (newSpec h).2)
        /\ snapshot (JSON_fuel (newSpec h).1) (newSpec h).1 (HRef (newSpec h).2)
           = Some (Some (VObj [(str "root", VStr []); (str "elements", VObj [])])))
  /\ (let r := buildSpec JsonRender.applySpecStreamPatch [] [add_card_patch] in
      r.2 = Some 3%nat
      /\ get_prop r.1 3 (str "root") = Some (HStr (str "card1"))
      /\ snapshot (JSON_fuel r.1) r.1 (HRef 3)
         = Some (Some (VObj [(str "root", VStr (str "card1"));
                             (str "elements", VObj [(str "card1", card)])])))
  /\ (let r := buildSpec JsonRender.applySpecStreamPatch []
                 [Samples.add_escaped] in
      directElementKey Samples.add_escaped = Some (str "b~1c")
      /\ JsonRender.unescape (str "b~1c") = str "b/c"
      /\ r.2 = Some 3%nat
      /\ snapshot (JSON_fuel r.1) r.1 (HRef 3)
         = Some (Some (VObj [(str "root", VStr (str "b~1c"));
                             (str "elements", VObj [(str "b/c", card)])]))
      /\ own_prop (str "b~1c") [(str "b/c", card)] = None).
Proof.
  split; [|split; [|split; [|split; [|split; [|split]]]]].
  - intros. by apply buildSpec_result.
  - apply directElementKey_spec.
  - intros. apply buildSpec_step_key.
  - apply unescape_plain.
  - intros. apply buildSpec_empty.
  - by vm_compute.
  - by vm_compute.
Qed.

Lemma build_infers_root_from_raw_path_witness :
  let r := buildSpec JsonRender.applySpecStreamPatch [] [Samples.add_escaped] in
  r = (r.1, Some 3%nat)
  /\ exists hl,
       applyAll JsonRender.applySpecStreamPatch
         ((newSpec []).1, Some (newSpec []).2) [Samples.add_escaped]
       = (hl, Some 3%nat)
       /\ (if hval_truthy (get_prop hl 3 (str "root")) then r.1 = hl
           else match head (omap directElementKey [Samples.add_escaped]) with
                | Some k =>
                    k <> [] /\ r.1 = set_prop hl 3 (str "root") (HStr k)
                    /\ forall props, hl !! 3%nat = Some (CObj props) ->
                         get_prop r.1 3 (str "root") = Some (HStr k)
                | None => r.1 = hl
                end).
Proof.
  intros r. split; [by vm_compute|].
  exact (proj1 build_infers_root_from_raw_path JsonRender.applySpecStreamPatch
           [] [Samples.add_escaped] r.1 3%nat ltac:(by vm_compute)).
Defined.
